(** * Little Yellow Book: history store, persistence and lookup orchestration

    A shallow embedding of [App.tsx] (the application component with its
    state, effects and handlers), of [types.ts] and of
    [utils/csvUtils.ts], with the platform functions they call
    ([String.prototype.trim], [JSON.parse], [JSON.stringify],
    [Array.prototype.slice], [Date.now], the UTF-8 encoding of a Blob)
    modelled after ECMAScript and the Web platform. *)

From Stdlib Require Import List Bool Arith ZArith NArith QArith Lia.
From Stdlib Require Import Ascii String.
From Stdlib Require Decimal DecimalFacts DecimalPos DecimalN.
From Stdlib Require Strings.Byte.
Import ListNotations.

Close Scope Q_scope.

Set Implicit Arguments.

(* ================================================================== *)
(** * JavaScript strings *)
(* ================================================================== *)

(** A JavaScript string is a finite sequence of UTF-16 code units. *)
Definition jsstring := list N.

(** [lit s] is the string literal [s] of the source (ASCII literals only). *)
Definition lit (s : string) : jsstring :=
  map (fun a => N.of_nat (nat_of_ascii a)) (list_ascii_of_string s).

(** Strict equality [a === b] on strings: same code units in the same order. *)
Fixpoint streq (a b : jsstring) : bool :=
  match a, b with
  | [], [] => true
  | x :: a', y :: b' => N.eqb x y && streq a' b'
  | _, _ => false
  end.

(** ECMAScript WhiteSpace and LineTerminator code points, the ones
    [String.prototype.trim] strips. *)
Definition is_white_space (c : N) : bool :=
  match c with
  | 9 | 10 | 11 | 12 | 13 | 32 | 160 | 5760 | 8232 | 8233 | 8239 | 8287
  | 12288 | 65279 => true
  | _ => (8192 <=? c) && (c <=? 8202)
  end%N.

Fixpoint trimStart (s : jsstring) : jsstring :=
  match s with
  | c :: s' => if is_white_space c then trimStart s' else s
  | [] => []
  end.

Definition trimEnd (s : jsstring) : jsstring := rev (trimStart (rev s)).

(** [s.trim()] *)
Definition trim (s : jsstring) : jsstring := trimEnd (trimStart s).

(** ToBoolean on a string: only the empty string is falsy. *)
Definition truthy (s : jsstring) : bool :=
  match s with [] => false | _ :: _ => true end.

(* ================================================================== *)
(** * types.ts *)
(* ================================================================== *)

Module DictionaryResult.
Record t : Type := mk {
  word : jsstring;
  reading : jsstring;
  romaji : jsstring;
  definition_cn : jsstring;
  definition_jp : jsstring;
  example_jp : jsstring;
  example_cn : jsstring
}.
End DictionaryResult.

Module WordHistoryItem.
Record t : Type := mk {
  id : jsstring;
  word : jsstring;
  reading : jsstring;
  definition : jsstring;
  definition_jp : jsstring;
  example_jp : jsstring;
  example_cn : jsstring;
  timestamp : Z
}.
End WordHistoryItem.

Inductive ViewMode : Type := SEARCH | WORDBOOK.

Module DictionaryState.
Record t : Type := mk {
  data : option DictionaryResult.t;
  imageUrl : option jsstring;
  isLoadingText : bool;
  isLoadingImage : bool;
  isLoadingAudioWord : bool;
  isLoadingAudioSentence : bool;
  isAnalyzingImage : bool;
  isGeneratingStory : bool;
  error : option jsstring;
  history : list WordHistoryItem.t;
  dailyStory : option jsstring
}.

(** The initial value given to [useState]. *)
Definition initial : t :=
  mk None None false false false false false false None [] None.

(** Object-spread updates [{ ...prev, field: v }], one per field the
    handlers write. *)
Definition with_data v (p : t) : t :=
  mk v (imageUrl p) (isLoadingText p) (isLoadingImage p)
     (isLoadingAudioWord p) (isLoadingAudioSentence p) (isAnalyzingImage p)
     (isGeneratingStory p) (error p) (history p) (dailyStory p).
Definition with_imageUrl v (p : t) : t :=
  mk (data p) v (isLoadingText p) (isLoadingImage p)
     (isLoadingAudioWord p) (isLoadingAudioSentence p) (isAnalyzingImage p)
     (isGeneratingStory p) (error p) (history p) (dailyStory p).
Definition with_isLoadingText v (p : t) : t :=
  mk (data p) (imageUrl p) v (isLoadingImage p)
     (isLoadingAudioWord p) (isLoadingAudioSentence p) (isAnalyzingImage p)
     (isGeneratingStory p) (error p) (history p) (dailyStory p).
Definition with_isLoadingImage v (p : t) : t :=
  mk (data p) (imageUrl p) (isLoadingText p) v
     (isLoadingAudioWord p) (isLoadingAudioSentence p) (isAnalyzingImage p)
     (isGeneratingStory p) (error p) (history p) (dailyStory p).
Definition with_isLoadingAudioWord v (p : t) : t :=
  mk (data p) (imageUrl p) (isLoadingText p) (isLoadingImage p)
     v (isLoadingAudioSentence p) (isAnalyzingImage p)
     (isGeneratingStory p) (error p) (history p) (dailyStory p).
Definition with_isLoadingAudioSentence v (p : t) : t :=
  mk (data p) (imageUrl p) (isLoadingText p) (isLoadingImage p)
     (isLoadingAudioWord p) v (isAnalyzingImage p)
     (isGeneratingStory p) (error p) (history p) (dailyStory p).
Definition with_isAnalyzingImage v (p : t) : t :=
  mk (data p) (imageUrl p) (isLoadingText p) (isLoadingImage p)
     (isLoadingAudioWord p) (isLoadingAudioSentence p) v
     (isGeneratingStory p) (error p) (history p) (dailyStory p).
Definition with_isGeneratingStory v (p : t) : t :=
  mk (data p) (imageUrl p) (isLoadingText p) (isLoadingImage p)
     (isLoadingAudioWord p) (isLoadingAudioSentence p) (isAnalyzingImage p)
     v (error p) (history p) (dailyStory p).
Definition with_error v (p : t) : t :=
  mk (data p) (imageUrl p) (isLoadingText p) (isLoadingImage p)
     (isLoadingAudioWord p) (isLoadingAudioSentence p) (isAnalyzingImage p)
     (isGeneratingStory p) v (history p) (dailyStory p).
Definition with_history v (p : t) : t :=
  mk (data p) (imageUrl p) (isLoadingText p) (isLoadingImage p)
     (isLoadingAudioWord p) (isLoadingAudioSentence p) (isAnalyzingImage p)
     (isGeneratingStory p) (error p) v (dailyStory p).
Definition with_dailyStory v (p : t) : t :=
  mk (data p) (imageUrl p) (isLoadingText p) (isLoadingImage p)
     (isLoadingAudioWord p) (isLoadingAudioSentence p) (isAnalyzingImage p)
     (isGeneratingStory p) (error p) (history p) v.
End DictionaryState.

(* ================================================================== *)
(** * Number to string *)
(* ================================================================== *)

(** The decimal digits of an unsigned decimal numeral, as code units. *)
Fixpoint uint_chars (d : Decimal.uint) : jsstring :=
  match d with
  | Decimal.Nil => []
  | Decimal.D0 d => 48 :: uint_chars d
  | Decimal.D1 d => 49 :: uint_chars d
  | Decimal.D2 d => 50 :: uint_chars d
  | Decimal.D3 d => 51 :: uint_chars d
  | Decimal.D4 d => 52 :: uint_chars d
  | Decimal.D5 d => 53 :: uint_chars d
  | Decimal.D6 d => 54 :: uint_chars d
  | Decimal.D7 d => 55 :: uint_chars d
  | Decimal.D8 d => 56 :: uint_chars d
  | Decimal.D9 d => 57 :: uint_chars d
  end%N.

(** [Number.prototype.toString] (radix 10) on an integer-valued number.
    [Date.now()] yields an integer of magnitude at most 8.64e15, far below
    1e21, where ECMAScript prints the plain decimal digits with a leading
    minus sign for negative values. *)
Definition Number_toString (z : Z) : jsstring :=
  match z with
  | Z0 => [48%N]
  | Zpos p => uint_chars (Pos.to_uint p)
  | Zneg p => 45%N :: uint_chars (Pos.to_uint p)
  end.

(* ================================================================== *)
(** * History store: [addToHistory] *)
(* ================================================================== *)

(** [prev.history.some(item => item.word === w)] *)
Definition has_word (w : jsstring) (h : list WordHistoryItem.t) : bool :=
  existsb (fun item => streq (WordHistoryItem.word item) w) h.

(** The object literal [newItem] of [addToHistory].  [Date.now()] is read
    twice, once for [id] and once for [timestamp]; [now_id] and [now_ts]
    are the two readings. *)
Definition newItem (now_id now_ts : Z) (result : DictionaryResult.t)
  : WordHistoryItem.t :=
  WordHistoryItem.mk
    (Number_toString now_id)
    (DictionaryResult.word result)
    (DictionaryResult.reading result)
    (DictionaryResult.definition_cn result)
    (DictionaryResult.definition_jp result)
    (DictionaryResult.example_jp result)
    (DictionaryResult.example_cn result)
    now_ts.

(** The state updater passed to [setState] by [addToHistory]. *)
Definition addToHistory_updater (now_id now_ts : Z)
    (result : DictionaryResult.t) (prev : DictionaryState.t)
  : DictionaryState.t :=
  if has_word (DictionaryResult.word result) (DictionaryState.history prev)
  then prev
  else DictionaryState.with_history
         (newItem now_id now_ts result :: DictionaryState.history prev) prev.

(* ================================================================== *)
(** * JSON values *)
(* ================================================================== *)

(** The values [JSON.parse] can return.  A number carries the exact
    rational value of its literal (the rounding to binary64 is not
    modelled; the integers this program stores are represented exactly).
    An object is the list of its own properties in property order. *)
#[local] Unset Elimination Schemes.
Inductive json : Type :=
| JNull
| JBool (b : bool)
| JNum (q : Q)
| JStr (s : jsstring)
| JArr (elements : list json)
| JObj (members : list (jsstring * json)).
#[local] Set Elimination Schemes.

(** ** Property order of ordinary objects *)

Definition is_digit (c : N) : bool := ((48 <=? c) && (c <=? 57))%N.

Fixpoint digits_value (acc : N) (k : jsstring) : option N :=
  match k with
  | [] => Some acc
  | c :: k' =>
      if is_digit c then digits_value (acc * 10 + (c - 48))%N k' else None
  end.

(** An array index is a canonical numeric string below 2^32 - 1. *)
Definition array_index (k : jsstring) : option N :=
  match k with
  | [] => None
  | c :: k' =>
      if (c =? 48)%N then match k' with [] => Some 0%N | _ => None end
      else match digits_value 0%N k with
           | Some v => if (v <? 4294967295)%N then Some v else None
           | None => None
           end
  end.

Fixpoint has_key (k : jsstring) (m : list (jsstring * json)) : bool :=
  match m with
  | [] => false
  | (k', _) :: m' => streq k' k || has_key k m'
  end.

Fixpoint obj_replace (k : jsstring) (v : json) (m : list (jsstring * json))
  : list (jsstring * json) :=
  match m with
  | [] => []
  | (k', v') :: m' =>
      if streq k' k then (k', v) :: m' else (k', v') :: obj_replace k v m'
  end.

Fixpoint obj_insert_index (n : N) (k : jsstring) (v : json)
    (m : list (jsstring * json)) : list (jsstring * json) :=
  match m with
  | [] => [(k, v)]
  | (k', v') :: m' =>
      match array_index k' with
      | Some n' =>
          if (n' <? n)%N then (k', v') :: obj_insert_index n k v m'
          else (k, v) :: m
      | None => (k, v) :: m
      end
  end.

(** CreateDataProperty on an ordinary object: an existing key keeps its
    place and takes the new value; a new array-index key goes among the
    index keys in ascending order; any other new key goes last. *)
Definition obj_set (k : jsstring) (v : json) (m : list (jsstring * json))
  : list (jsstring * json) :=
  if has_key k m then obj_replace k v m
  else match array_index k with
       | Some n => obj_insert_index n k v m
       | None => m ++ [(k, v)]
       end.

(* ================================================================== *)
(** * JSON.parse *)
(* ================================================================== *)

(** [JSON.parse] as a pushdown machine reading one code unit at a time:
    the JSON grammar of ECMA-404 with the four JSON white-space characters,
    no trailing commas, no leading zeros, and strings without raw control
    characters.  [None] stands for the thrown [SyntaxError]. *)
Module JSONParse.

(** A container under construction. *)
Inductive frame : Type :=
| FArr (acc : list json)                         (* elements, newest first *)
| FObj (acc : list (jsstring * json)) (key : jsstring). (* pending key *)

(** Position in the number grammar: an optional minus sign; a zero, or
    a nonzero digit and further digits; optionally a point and digits;
    optionally e or E, a sign and digits. *)
Inductive numst : Type :=
| NMinus | NZero | NInt | NDot | NFrac | NE | NESign | NExp.

Record numacc : Type := mkNum {
  neg : bool;      (* a leading minus sign *)
  mant : N;        (* the digits read so far, without the point *)
  scale : N;       (* how many of them follow the point *)
  eneg : bool;     (* a minus sign in the exponent *)
  expo : N         (* the exponent digits *)
}.

Inductive mode : Type :=
| MValue                                  (* a value must start *)
| MArrStart                               (* after [: a value or ] *)
| MObjStart                               (* after {: a key or } *)
| MKey                                    (* after , in an object: a key *)
| MColon                                  (* after a key: the colon *)
| MAfter                                  (* after a value in a container *)
| MDone (v : json)                        (* the whole text was a value *)
| MStr (key : bool) (acc : jsstring)      (* in a string, units newest first *)
| MEsc (key : bool) (acc : jsstring)      (* after a backslash *)
| MHex (key : bool) (acc : jsstring) (n : nat) (v : N) (* in \uXXXX *)
| MLit (rest : jsstring) (v : json)       (* in true, false or null *)
| MNum (st : numst) (a : numacc).

Definition state : Type := (mode * list frame)%type.

Definition is_ws (c : N) : bool :=
  ((c =? 32) || (c =? 9) || (c =? 10) || (c =? 13))%N.

Definition hex_value (c : N) : option N :=
  if is_digit c then Some (c - 48)%N
  else if ((97 <=? c) && (c <=? 102))%N then Some (c - 87)%N
  else if ((65 <=? c) && (c <=? 70))%N then Some (c - 55)%N
  else None.

Definition num_value (a : numacc) : Q :=
  let m := (if neg a then - Z.of_N (mant a) else Z.of_N (mant a))%Z in
  let e := ((if eneg a then - Z.of_N (expo a) else Z.of_N (expo a))
            - Z.of_N (scale a))%Z in
  match e with
  | Zneg p => Qred (m # (10 ^ p)%positive)
  | _ => (m * 10 ^ e)%Z # 1
  end.

Definition accepting (st : numst) : bool :=
  match st with
  | NZero | NInt | NFrac | NExp => true
  | NMinus | NDot | NE | NESign => false
  end.

(** A complete value [v] goes to the enclosing container, or ends the
    text. *)
Definition deliver (v : json) (stk : list frame) : state :=
  match stk with
  | [] => (MDone v, [])
  | FArr acc :: stk' => (MAfter, FArr (v :: acc) :: stk')
  | FObj acc k :: stk' => (MAfter, FObj (obj_set k v acc) k :: stk')
  end.

(** The first code unit of a value. *)
Definition start_value (c : N) (stk : list frame) : option state :=
  if (c =? 34)%N then Some (MStr false [], stk)
  else if (c =? 91)%N then Some (MArrStart, FArr [] :: stk)
  else if (c =? 123)%N then Some (MObjStart, FObj [] [] :: stk)
  else if (c =? 116)%N then Some (MLit [114; 117; 101]%N (JBool true), stk)
  else if (c =? 102)%N
    then Some (MLit [97; 108; 115; 101]%N (JBool false), stk)
  else if (c =? 110)%N then Some (MLit [117; 108; 108]%N JNull, stk)
  else if (c =? 45)%N
    then Some (MNum NMinus (mkNum true 0 0 false 0), stk)
  else if (c =? 48)%N
    then Some (MNum NZero (mkNum false 0 0 false 0), stk)
  else if is_digit c
    then Some (MNum NInt (mkNum false (c - 48) 0 false 0), stk)
  else None.

(** A code unit after a complete value. *)
Definition after_value (c : N) (s : state) : option state :=
  if is_ws c then Some s
  else match s with
       | (MAfter, FArr acc :: stk') =>
           if (c =? 44)%N then Some (MValue, FArr acc :: stk')
           else if (c =? 93)%N then Some (deliver (JArr (rev acc)) stk')
           else None
       | (MAfter, FObj acc k :: stk') =>
           if (c =? 44)%N then Some (MKey, FObj acc k :: stk')
           else if (c =? 125)%N then Some (deliver (JObj acc) stk')
           else None
       | _ => None
       end.

(** The closing quote of a string. *)
Definition end_string (key : bool) (acc : jsstring) (stk : list frame)
  : option state :=
  if key then
    match stk with
    | FObj m _ :: stk' => Some (MColon, FObj m (rev acc) :: stk')
    | _ => None
    end
  else Some (deliver (JStr (rev acc)) stk).

Definition escape_value (c : N) : option N :=
  if (c =? 34)%N then Some 34%N
  else if (c =? 92)%N then Some 92%N
  else if (c =? 47)%N then Some 47%N
  else if (c =? 98)%N then Some 8%N
  else if (c =? 102)%N then Some 12%N
  else if (c =? 110)%N then Some 10%N
  else if (c =? 114)%N then Some 13%N
  else if (c =? 116)%N then Some 9%N
  else None.

Definition add_digit (a : numacc) (c : N) : numacc :=
  mkNum (neg a) (mant a * 10 + (c - 48)) (scale a) (eneg a) (expo a).
Definition add_frac_digit (a : numacc) (c : N) : numacc :=
  mkNum (neg a) (mant a * 10 + (c - 48)) (scale a + 1) (eneg a) (expo a).
Definition add_exp_digit (a : numacc) (c : N) : numacc :=
  mkNum (neg a) (mant a) (scale a) (eneg a) (expo a * 10 + (c - 48)).
Definition set_eneg (a : numacc) : numacc :=
  mkNum (neg a) (mant a) (scale a) true (expo a).

Definition is_e (c : N) : bool := ((c =? 101) || (c =? 69))%N.

(** A code unit inside a number: it extends the number, or ends it and
    is read again after the value. *)
Definition step_number (st : numst) (a : numacc) (c : N)
    (stk : list frame) : option state :=
  let finish := after_value c (deliver (JNum (num_value a)) stk) in
  match st with
  | NMinus =>
      if (c =? 48)%N then Some (MNum NZero a, stk)
      else if is_digit c then Some (MNum NInt (add_digit a c), stk)
      else None
  | NZero =>
      if (c =? 46)%N then Some (MNum NDot a, stk)
      else if is_e c then Some (MNum NE a, stk)
      else finish
  | NInt =>
      if is_digit c then Some (MNum NInt (add_digit a c), stk)
      else if (c =? 46)%N then Some (MNum NDot a, stk)
      else if is_e c then Some (MNum NE a, stk)
      else finish
  | NDot =>
      if is_digit c then Some (MNum NFrac (add_frac_digit a c), stk)
      else None
  | NFrac =>
      if is_digit c then Some (MNum NFrac (add_frac_digit a c), stk)
      else if is_e c then Some (MNum NE a, stk)
      else finish
  | NE =>
      if (c =? 43)%N then Some (MNum NESign a, stk)
      else if (c =? 45)%N then Some (MNum NESign (set_eneg a), stk)
      else if is_digit c then Some (MNum NExp (add_exp_digit a c), stk)
      else None
  | NESign =>
      if is_digit c then Some (MNum NExp (add_exp_digit a c), stk)
      else None
  | NExp =>
      if is_digit c then Some (MNum NExp (add_exp_digit a c), stk)
      else finish
  end.

Definition step (s : state) (c : N) : option state :=
  let (m, stk) := s in
  match m with
  | MValue => if is_ws c then Some s else start_value c stk
  | MArrStart =>
      if is_ws c then Some s
      else if (c =? 93)%N then
        match stk with
        | FArr _ :: stk' => Some (deliver (JArr []) stk')
        | _ => None
        end
      else start_value c stk
  | MObjStart =>
      if is_ws c then Some s
      else if (c =? 125)%N then
        match stk with
        | FObj _ _ :: stk' => Some (deliver (JObj []) stk')
        | _ => None
        end
      else if (c =? 34)%N then Some (MStr true [], stk)
      else None
  | MKey =>
      if is_ws c then Some s
      else if (c =? 34)%N then Some (MStr true [], stk)
      else None
  | MColon =>
      if is_ws c then Some s
      else if (c =? 58)%N then Some (MValue, stk)
      else None
  | MAfter => after_value c s
  | MDone _ => after_value c s
  | MStr key acc =>
      if (c =? 34)%N then end_string key acc stk
      else if (c =? 92)%N then Some (MEsc key acc, stk)
      else if (c <? 32)%N then None
      else Some (MStr key (c :: acc), stk)
  | MEsc key acc =>
      if (c =? 117)%N then Some (MHex key acc 0 0%N, stk)
      else match escape_value c with
           | Some u => Some (MStr key (u :: acc), stk)
           | None => None
           end
  | MHex key acc n v =>
      match hex_value c with
      | Some d =>
          let v' := (v * 16 + d)%N in
          match n with
          | 3%nat => Some (MStr key (v' :: acc), stk)
          | _ => Some (MHex key acc (S n) v', stk)
          end
      | None => None
      end
  | MLit rest v =>
      match rest with
      | [] => None
      | x :: rest' =>
          if (c =? x)%N then
            match rest' with
            | [] => Some (deliver v stk)
            | _ :: _ => Some (MLit rest' v, stk)
            end
          else None
      end
  | MNum st a => step_number st a c stk
  end.

Fixpoint run (s : jsstring) (st : state) : option state :=
  match s with
  | [] => Some st
  | c :: s' =>
      match step st c with
      | Some st' => run s' st'
      | None => None
      end
  end.

(** End of the text: it must have been exactly one value. *)
Definition finish (s : state) : option json :=
  match s with
  | (MDone v, []) => Some v
  | (MNum st a, []) =>
      if accepting st then Some (JNum (num_value a)) else None
  | _ => None
  end.

End JSONParse.

(** [JSON.parse(text)]: [Some v] when it returns [v], [None] when it throws. *)
Definition JSON_parse (text : jsstring) : option json :=
  match JSONParse.run text (JSONParse.MValue, []) with
  | Some st => JSONParse.finish st
  | None => None
  end.

(* ================================================================== *)
(** * JSON.stringify *)
(* ================================================================== *)

Definition is_high_surrogate (c : N) : bool :=
  ((55296 <=? c) && (c <=? 56319))%N.
Definition is_low_surrogate (c : N) : bool :=
  ((56320 <=? c) && (c <=? 57343))%N.

Definition hex_digit (d : N) : N := (if d <? 10 then 48 + d else 87 + d)%N.

(** UnicodeEscape: a backslash, [u] and four lowercase hexadecimal
    digits. *)
Definition UnicodeEscape (c : N) : jsstring :=
  [92; 117; hex_digit (c / 4096); hex_digit ((c / 256) mod 16);
   hex_digit ((c / 16) mod 16); hex_digit (c mod 16)]%N.

(** A code unit that is not a surrogate, as QuoteJSONString writes it. *)
Definition quote_code_unit (c : N) : jsstring :=
  if (c =? 8)%N then [92; 98]%N
  else if (c =? 9)%N then [92; 116]%N
  else if (c =? 10)%N then [92; 110]%N
  else if (c =? 12)%N then [92; 102]%N
  else if (c =? 13)%N then [92; 114]%N
  else if (c =? 34)%N then [92; 34]%N
  else if (c =? 92)%N then [92; 92]%N
  else if (c <? 32)%N then UnicodeEscape c
  else [c].

(** The code points of the string in turn: a surrogate pair is written as
    it is, a lone surrogate as a Unicode escape. *)
Fixpoint quote_body (s : jsstring) : jsstring :=
  match s with
  | [] => []
  | c :: s' =>
      if is_high_surrogate c then
        match s' with
        | d :: s'' =>
            if is_low_surrogate d then c :: d :: quote_body s''
            else UnicodeEscape c ++ quote_body s'
        | [] => UnicodeEscape c
        end
      else if is_low_surrogate c then UnicodeEscape c ++ quote_body s'
      else quote_code_unit c ++ quote_body s'
  end.

Definition QuoteJSONString (s : jsstring) : jsstring :=
  34%N :: quote_body s ++ [34%N].

(** SerializeJSONProperty of a string-valued and of a number-valued
    property: the quoted key, a colon, the value. *)
Definition string_property (key : string) (v : jsstring) : jsstring :=
  QuoteJSONString (lit key) ++ 58%N :: QuoteJSONString v.
Definition number_property (key : string) (v : Z) : jsstring :=
  QuoteJSONString (lit key) ++ 58%N :: Number_toString v.

(** SerializeJSONObject of a WordHistoryItem: its own properties in
    creation order (the order of the object literal in [addToHistory]),
    separated by commas, no white space. *)
Definition JSON_stringify_item (item : WordHistoryItem.t) : jsstring :=
  123%N ::
  string_property "id" (WordHistoryItem.id item) ++ 44%N ::
  string_property "word" (WordHistoryItem.word item) ++ 44%N ::
  string_property "reading" (WordHistoryItem.reading item) ++ 44%N ::
  string_property "definition" (WordHistoryItem.definition item) ++ 44%N ::
  string_property "definition_jp" (WordHistoryItem.definition_jp item)
    ++ 44%N ::
  string_property "example_jp" (WordHistoryItem.example_jp item) ++ 44%N ::
  string_property "example_cn" (WordHistoryItem.example_cn item) ++ 44%N ::
  number_property "timestamp" (WordHistoryItem.timestamp item) ++ [125%N].

(** The elements of SerializeJSONArray, separated by commas. *)
Fixpoint JSON_stringify_items (h : list WordHistoryItem.t) : jsstring :=
  match h with
  | [] => []
  | [item] => JSON_stringify_item item
  | item :: h' => JSON_stringify_item item ++ 44%N :: JSON_stringify_items h'
  end.

(** [JSON.stringify(state.history)] *)
Definition JSON_stringify (h : list WordHistoryItem.t) : jsstring :=
  91%N :: JSON_stringify_items h ++ [93%N].

(** The run-time value of a WordHistoryItem and of the history array, as
    [JSON.parse] would have to return them. *)
Definition item_value (item : WordHistoryItem.t) : json :=
  JObj [ (lit "id", JStr (WordHistoryItem.id item));
         (lit "word", JStr (WordHistoryItem.word item));
         (lit "reading", JStr (WordHistoryItem.reading item));
         (lit "definition", JStr (WordHistoryItem.definition item));
         (lit "definition_jp", JStr (WordHistoryItem.definition_jp item));
         (lit "example_jp", JStr (WordHistoryItem.example_jp item));
         (lit "example_cn", JStr (WordHistoryItem.example_cn item));
         (lit "timestamp", JNum (inject_Z (WordHistoryItem.timestamp item))) ].

Definition history_value (h : list WordHistoryItem.t) : json :=
  JArr (map item_value h).

(* ================================================================== *)
(** * Durable storage and the two history effects *)
(* ================================================================== *)

(** [localStorage]: a key-value store of strings. *)
Definition Storage : Type := jsstring -> option jsstring.

Definition getItem (ls : Storage) (key : jsstring) : option jsstring := ls key.

Definition setItem (ls : Storage) (key value : jsstring) : Storage :=
  fun k => if streq k key then Some value else ls k.

(** The effect with dependency [state.history]:
    [localStorage.setItem('lyb_history', JSON.stringify(state.history))]. *)
Definition saveHistoryEffect (st : DictionaryState.t) (ls : Storage)
  : Storage :=
  setItem ls (lit "lyb_history") (JSON_stringify (DictionaryState.history st)).

(** What the mount effect does about the history: it leaves the initial
    empty array in place ([kept_empty], with what it wrote to the console),
    or replaces the history by the parsed value as it is ([adopted]).
    Nothing in the effect can throw past its [try]/[catch]. *)
Inductive LoadOutcome : Type :=
| kept_empty (console : list string)
| adopted (parsed : json).

(** The history part of the mount effect:
    [savedHistory = localStorage.getItem('lyb_history')]; if it is truthy,
    [JSON.parse] it inside [try] and set [history] to the result; the
    [catch] only logs. *)
Definition loadHistoryEffect (ls : Storage) : LoadOutcome :=
  match getItem ls (lit "lyb_history") with
  | None => kept_empty []
  | Some savedHistory =>
      if truthy savedHistory then
        match JSON_parse savedHistory with
        | Some parsed => adopted parsed
        | None => kept_empty ["Failed to load history"%string]
        end
      else kept_empty []
  end.

(** The value of [state.history] once the mount effect has run. *)
Definition loaded_history (o : LoadOutcome) : json :=
  match o with
  | kept_empty _ => history_value []
  | adopted parsed => parsed
  end.

(* ================================================================== *)
(** * Audio decoding *)
(* ================================================================== *)

Module AudioDecoder.

Record AudioBuffer : Type := mkBuffer {
  sampleRate : Z;
  numberOfChannels : nat;
  channelData : list Q
}.

Inductive result : Type :=
| decoded (buffer : AudioBuffer)
| format_error.

(** Two bytes, low byte first, as a signed 16-bit integer. *)
Definition int16_le (lo hi : Byte.byte) : Z :=
  let u := (Z.of_N (Byte.to_N lo) + 256 * Z.of_N (Byte.to_N hi))%Z in
  if (u <? 32768)%Z then u else (u - 65536)%Z.

(** Modelled from the spec: the sample conversion of [decodeAudioData]
    in utils/audioUtils, which is not among the sources: a signed 16-bit
    value is divided by 32768, the maximum magnitude of the signed 16-bit
    range.  The quotient of a 16-bit integer by a power of two is exact in
    binary floating point, so it is kept as the exact rational. *)
Definition normalize (sample : Z) : Q := Qmake sample 32768.

(** [Some] of the samples when the bytes pair up, [None] on a dangling
    last byte. *)
Fixpoint samples (bytes : list Byte.byte) : option (list Z) :=
  match bytes with
  | [] => Some []
  | [_] => None
  | lo :: hi :: rest =>
      match samples rest with
      | Some l => Some (int16_le lo hi :: l)
      | None => None
      end
  end.

(** Modelled from the spec: [decodeAudioData] of utils/audioUtils, which
    is not among the sources.  The bytes are signed 16-bit little-endian
    mono PCM at the given sample rate; each sample is normalized; the
    result is a single-channel buffer of that rate and sample count; a
    byte count that is not a multiple of 2 is a format error. *)
Definition decodeAudioData (bytes : list Byte.byte) (sampleRate : Z)
  : result :=
  match samples bytes with
  | Some l => decoded (mkBuffer sampleRate 1 (map normalize l))
  | None => format_error
  end.

(** The encoder the decoder inverts: each sample as two bytes, low byte
    first, in two's complement. *)
Definition byte_of_Z (z : Z) : Byte.byte :=
  match Byte.of_N (Z.to_N (z mod 256)) with
  | Some b => b
  | None => Byte.x00
  end.

Definition encode_sample (s : Z) : list Byte.byte :=
  [byte_of_Z s; byte_of_Z (s / 256)].

Definition encode (l : list Z) : list Byte.byte :=
  flat_map encode_sample l.

Definition is_int16 (s : Z) : Prop := (-32768 <= s <= 32767)%Z.

End AudioDecoder.

(* ================================================================== *)
(** * The application component: state, requests and suspended calls *)
(* ================================================================== *)

(** The calls to the AI service (services/geminiService). *)
Inductive Request : Type :=
| fetchDictionaryDefinition (query : jsstring)
| generateWordImage (word definition : jsstring)
| generateSpeech (text : jsstring)
| generateDailyStory (words : list WordHistoryItem.t)
| extractTextFromImage (base64Image : option jsstring).

(** The second argument of [handlePlayAudio], ['word' | 'sentence']. *)
Inductive AudioType : Type := AudioWord | AudioSentence.

(** An asynchronous function of the component stopped at its [await] (or,
    for the file reader, before its [onload] callback), with the values
    its continuation closes over. *)
Inductive Suspended : Type :=
| awaiting_definition (searchTerm : jsstring)         (* handleSearch *)
| awaiting_image (word def : jsstring)                (* generateImage *)
| awaiting_speech (text : jsstring) (type : AudioType) (* handlePlayAudio *)
| awaiting_decode (type : AudioType) (decoding : AudioDecoder.result)
                                    (* handlePlayAudio, its second await *)
| awaiting_story (words : list WordHistoryItem.t)     (* handleGenerateStory *)
| awaiting_file (query_seen : jsstring)               (* handleImageUpload *)
| awaiting_ocr (query_seen : jsstring) (base64String : option jsstring).
                                                      (* reader.onload *)

(** What [console.error] was called with. *)
Inductive LogEntry : Type :=
| caught_error                (* [console.error(error)] in handleSearch *)
| message (text : string).

(** The component between two events: its three state hooks, the calls
    that are suspended, and a record of what it did to the outside: the
    requests issued, the console, the buffers handed to [playBuffer]
    (all newest first).  [clock] gives the successive readings of
    [Date.now()], [ticks] counts the readings taken. *)
Record World : Type := mkWorld {
  query : jsstring;
  view : ViewMode;
  state : DictionaryState.t;
  pending : list Suspended;
  requests : list Request;
  console : list LogEntry;
  played : list AudioDecoder.AudioBuffer;
  clock : nat -> Z;
  ticks : nat
}.

Definition initial_world (clock : nat -> Z) : World :=
  mkWorld [] SEARCH DictionaryState.initial [] [] [] [] clock 0.

(** The component once the stored history [h] has been loaded. *)
Definition start_world (clock : nat -> Z) (h : list WordHistoryItem.t)
  : World :=
  mkWorld [] SEARCH
          (DictionaryState.with_history h DictionaryState.initial)
          [] [] [] [] clock 0.

(** A synchronous stretch of code acts on the world. *)
Definition Action : Type := World -> World.

Definition andThen (a b : Action) : Action := fun w => b (a w).
Notation "a ;; b" := (andThen a b) (at level 61, right associativity).

Definition skip : Action := fun w => w.

Definition setQuery (q : jsstring) : Action := fun w =>
  mkWorld q (view w) (state w) (pending w) (requests w) (console w)
          (played w) (clock w) (ticks w).

Definition setView (v : ViewMode) : Action := fun w =>
  mkWorld (query w) v (state w) (pending w) (requests w) (console w)
          (played w) (clock w) (ticks w).

(** [setState(prev => f(prev))] *)
Definition setState (f : DictionaryState.t -> DictionaryState.t) : Action :=
  fun w =>
  mkWorld (query w) (view w) (f (state w)) (pending w) (requests w)
          (console w) (played w) (clock w) (ticks w).

Definition console_error (e : LogEntry) : Action := fun w =>
  mkWorld (query w) (view w) (state w) (pending w) (requests w)
          (e :: console w) (played w) (clock w) (ticks w).

Definition playBuffer (b : AudioDecoder.AudioBuffer) : Action := fun w =>
  mkWorld (query w) (view w) (state w) (pending w) (requests w)
          (console w) (b :: played w) (clock w) (ticks w).

(** [await request]: the request goes out and the caller is suspended. *)
Definition await (r : Request) (k : Suspended) : Action := fun w =>
  mkWorld (query w) (view w) (state w) (k :: pending w) (r :: requests w)
          (console w) (played w) (clock w) (ticks w).

(** A suspension that issues no request to the AI service. *)
Definition suspend (k : Suspended) : Action := fun w =>
  mkWorld (query w) (view w) (state w) (k :: pending w) (requests w)
          (console w) (played w) (clock w) (ticks w).

(** [Date.now()] has been read [n] more times. *)
Definition tick (n : nat) : Action := fun w =>
  mkWorld (query w) (view w) (state w) (pending w) (requests w)
          (console w) (played w) (clock w) (n + ticks w).

(** [addToHistory(result)]: [setState] with the updater.  The updater
    reads [Date.now()] twice, and only when the word is new. *)
Definition addToHistory (result : DictionaryResult.t) : Action := fun w =>
  let now_id := clock w (ticks w) in
  let now_ts := clock w (S (ticks w)) in
  let inserted :=
    negb (has_word (DictionaryResult.word result)
                   (DictionaryState.history (state w))) in
  (setState (addToHistory_updater now_id now_ts result) ;;
   if inserted then tick 2 else skip) w.

(** [generateImage(word, def)] up to its [await]. *)
Definition generateImage (word def : jsstring) : Action :=
  await (generateWordImage word def) (awaiting_image word def).

(** [overrideQuery || query]: [query] when the override is missing or
    empty.  [query] is the constant of the render in which the handler was
    created: a [setQuery] issued earlier in the same event does not change
    what the handler sees. *)
Definition searchTerm (query_seen : jsstring)
    (overrideQuery : option jsstring) : jsstring :=
  match overrideQuery with
  | Some o => if truthy o then o else query_seen
  | None => query_seen
  end.

(** [handleSearch(e, overrideQuery)] up to its [await].
    ([e.preventDefault()] acts on the event only.) *)
Definition handleSearch (query_seen : jsstring)
    (overrideQuery : option jsstring) : Action := fun w =>
  if negb (truthy (trim (searchTerm query_seen overrideQuery))) then w
  else
    (setView SEARCH ;;
     setState (fun prev =>
       DictionaryState.with_imageUrl None
         (DictionaryState.with_data None
           (DictionaryState.with_error None
             (DictionaryState.with_isLoadingImage true
               (DictionaryState.with_isLoadingText true prev))))) ;;
     await (fetchDictionaryDefinition (searchTerm query_seen overrideQuery))
           (awaiting_definition (searchTerm query_seen overrideQuery))) w.

(** The rest of the [try] block of [handleSearch], once the definition
    has arrived. *)
Definition handleSearch_fulfilled (definition : DictionaryResult.t) : Action :=
  setQuery (DictionaryResult.word definition) ;;
  setState (fun prev =>
    DictionaryState.with_isLoadingText false
      (DictionaryState.with_data (Some definition) prev)) ;;
  addToHistory definition ;;
  generateImage (DictionaryResult.word definition)
                (DictionaryResult.definition_cn definition).

(** The [catch] block of [handleSearch]. *)
Definition handleSearch_rejected : Action :=
  console_error caught_error ;;
  setState (fun prev =>
    DictionaryState.with_isLoadingImage false
      (DictionaryState.with_isLoadingText false
        (DictionaryState.with_error
          (Some (lit "Failed to find the word. Please try again.")) prev))).

Definition generateImage_fulfilled (imageUrl : jsstring) : Action :=
  setState (fun prev =>
    DictionaryState.with_isLoadingImage false
      (DictionaryState.with_imageUrl (Some imageUrl) prev)).

Definition generateImage_rejected : Action :=
  console_error (message "Image generation failed") ;;
  setState (DictionaryState.with_isLoadingImage false).

Definition handleRegenerateImage : Action := fun w =>
  match DictionaryState.data (state w) with
  | None => w
  | Some data =>
      (setState (fun prev =>
         DictionaryState.with_imageUrl None
           (DictionaryState.with_isLoadingImage true prev)) ;;
       generateImage (DictionaryResult.word data)
                     (DictionaryResult.definition_cn data)) w
  end.

(** [state[loadingKey]] and [{ ...prev, [loadingKey]: v }]. *)
Definition loading (type : AudioType) (st : DictionaryState.t) : bool :=
  match type with
  | AudioWord => DictionaryState.isLoadingAudioWord st
  | AudioSentence => DictionaryState.isLoadingAudioSentence st
  end.

Definition with_loading (type : AudioType) (v : bool)
  : DictionaryState.t -> DictionaryState.t :=
  match type with
  | AudioWord => DictionaryState.with_isLoadingAudioWord v
  | AudioSentence => DictionaryState.with_isLoadingAudioSentence v
  end.

(** [handlePlayAudio(text, type)] up to its [await].  The callback is
    recreated whenever [state] changes, so the [state] it reads is the one
    of the last render. *)
Definition handlePlayAudio (text : jsstring) (type : AudioType) : Action :=
  fun w =>
  if loading type (state w) then w
  else
    (setState (with_loading type true) ;;
     await (generateSpeech text) (awaiting_speech text type)) w.

(** What [handlePlayAudio] takes from the browser and from
    utils/audioUtils, which is not among the sources: [decodeBase64] gives
    the bytes, or [None] when it throws; [newAudioContext] tells whether
    [new AudioContextClass({ sampleRate: 24000 })] returns a context or
    throws (no such class, or the browser refuses another context), which
    may depend on what the component has done so far. *)
Record Platform : Type := mkPlatform {
  decodeBase64 : jsstring -> option (list Byte.byte);
  newAudioContext : World -> bool
}.

(** The [catch] and [finally] blocks of [handlePlayAudio]. *)
Definition handlePlayAudio_rejected (type : AudioType) : Action :=
  console_error (message "Audio playback failed") ;;
  setState (with_loading type false).

Section Playback.

Variable platform : Platform.

(** The [try] block of [handlePlayAudio] from the speech data to its
    second [await]: the bytes are decoded from base64, the audio context
    is made, [decodeAudioData] is called and awaited.  What it is called
    with fixes how its promise will settle.  A throw on the way goes to
    [catch] and [finally]. *)
Definition handlePlayAudio_fulfilled (type : AudioType)
    (base64Audio : jsstring) : Action := fun w =>
  match decodeBase64 platform base64Audio with
  | Some audioBytes =>
      if newAudioContext platform w then
        suspend (awaiting_decode type
                   (AudioDecoder.decodeAudioData audioBytes 24000)) w
      else handlePlayAudio_rejected type w
  | None => handlePlayAudio_rejected type w
  end.

End Playback.

(** The rest of [handlePlayAudio], once the promise of [decodeAudioData]
    has settled: the buffer is played, or the format error is caught and
    logged; [finally] clears the flag. *)
Definition handlePlayAudio_decoded (type : AudioType)
    (decoding : AudioDecoder.result) : Action :=
  match decoding with
  | AudioDecoder.decoded audioBuffer =>
      playBuffer audioBuffer ;;
      setState (with_loading type false)
  | AudioDecoder.format_error => handlePlayAudio_rejected type
  end.

(** [state.history.slice(0, 10)] *)
Definition slice_0_10 (h : list WordHistoryItem.t) : list WordHistoryItem.t :=
  firstn 10 h.

(** [handleGenerateStory()] up to its [await]. *)
Definition handleGenerateStory : Action := fun w =>
  match DictionaryState.history (state w) with
  | [] => w
  | _ :: _ =>
      if DictionaryState.isGeneratingStory (state w) then w
      else
        (setState (fun prev =>
           DictionaryState.with_dailyStory None
             (DictionaryState.with_isGeneratingStory true prev)) ;;
         let words := slice_0_10 (DictionaryState.history (state w)) in
         await (generateDailyStory words) (awaiting_story words)) w
  end.

Definition handleGenerateStory_fulfilled (story : jsstring) : Action :=
  setState (fun prev =>
    DictionaryState.with_isGeneratingStory false
      (DictionaryState.with_dailyStory (Some story) prev)).

(** The [catch] block of [handleGenerateStory]. *)
Definition handleGenerateStory_rejected : Action :=
  setState (fun prev =>
    DictionaryState.with_isGeneratingStory false
      (DictionaryState.with_error
        (Some (lit "Failed to generate story.")) prev)).

(** [s.split(',')[1]]: the text between the first comma and the next one,
    [None] (undefined) when there is no comma. *)
Fixpoint up_to_comma (s : jsstring) : jsstring :=
  match s with
  | [] => []
  | c :: s' => if (c =? 44)%N then [] else c :: up_to_comma s'
  end.

Fixpoint split_comma_1 (s : jsstring) : option jsstring :=
  match s with
  | [] => None
  | c :: s' => if (c =? 44)%N then Some (up_to_comma s') else split_comma_1 s'
  end.

(** [handleImageUpload(e)] up to the end of the handler: with a file
    chosen, the flag is raised and the reader started.  The [onload]
    callback keeps the [handleSearch] of this render, hence its [query]. *)
Definition handleImageUpload (query_seen : jsstring) (file_chosen : bool)
  : Action :=
  if file_chosen then
    setState (fun prev =>
      DictionaryState.with_error None
        (DictionaryState.with_isAnalyzingImage true prev)) ;;
    suspend (awaiting_file query_seen)
  else skip.

(** [reader.onload] up to its [await]. *)
Definition reader_onload (query_seen : jsstring) (result : jsstring)
  : Action :=
  let base64String := split_comma_1 result in
  await (extractTextFromImage base64String)
        (awaiting_ocr query_seen base64String).

(** The rest of [reader.onload]: a text that is not empty starts a
    lookup; an empty one is thrown and caught like a failed call. *)
Definition reader_onload_rejected : Action :=
  setState (DictionaryState.with_error
              (Some (lit "Could not read text from image."))) ;;
  setState (DictionaryState.with_isAnalyzingImage false).

Definition reader_onload_fulfilled (query_seen : jsstring)
    (extractedText : jsstring) : Action :=
  if truthy extractedText then
    setQuery extractedText ;;
    handleSearch query_seen (Some extractedText) ;;
    setState (DictionaryState.with_isAnalyzingImage false)
  else reader_onload_rejected.

(* ================================================================== *)
(** * The event loop *)
(* ================================================================== *)

(** How a suspended call is settled. *)
Inductive Outcome : Type :=
| fulfilled_definition (definition : DictionaryResult.t)
| fulfilled_text (text : jsstring)
| decoder_returned      (* the promise of [decodeAudioData] settles *)
| rejected.

(** What can happen to the component: the user acts on it, or a suspended
    call (the [i]-th of [pending]) is settled.  Every user action ends with
    a render, so the next handler sees the state as it then is.  (Login and
    logout act on the user profile and the view only; the export reads the
    history and changes nothing.) *)
Inductive Event : Type :=
| input_change (q : jsstring)            (* the search box: [setQuery] *)
| click_nav (v : ViewMode)               (* logo and Wordbook: [setView] *)
| submit_search                          (* the form: [handleSearch(e)] *)
| click_view_details (w : jsstring)      (* a word of the wordbook *)
| click_refresh_image
| click_play (text : jsstring) (type : AudioType)
| click_create_story
| file_input_change (file_chosen : bool)
| settled (i : nat) (o : Outcome).

Fixpoint remove_nth {A : Type} (i : nat) (l : list A) : list A :=
  match l, i with
  | [], _ => []
  | _ :: l', O => l'
  | x :: l', S i' => x :: remove_nth i' l'
  end.

Definition resumed (i : nat) : Action := fun w =>
  mkWorld (query w) (view w) (state w) (remove_nth i (pending w))
          (requests w) (console w) (played w) (clock w) (ticks w).

Section EventLoop.

Variable platform : Platform.

(** The continuation of a suspended call for an outcome; [None] when
    the outcome is not one the call can get. *)
Definition continuation (k : Suspended) (o : Outcome) : option Action :=
  match k, o with
  | awaiting_definition _, fulfilled_definition d =>
      Some (handleSearch_fulfilled d)
  | awaiting_definition _, rejected => Some handleSearch_rejected
  | awaiting_image _ _, fulfilled_text url =>
      Some (generateImage_fulfilled url)
  | awaiting_image _ _, rejected => Some generateImage_rejected
  | awaiting_speech _ type, fulfilled_text base64Audio =>
      Some (handlePlayAudio_fulfilled platform type base64Audio)
  | awaiting_speech _ type, rejected => Some (handlePlayAudio_rejected type)
  | awaiting_decode type decoding, decoder_returned =>
      Some (handlePlayAudio_decoded type decoding)
  | awaiting_story _, fulfilled_text story =>
      Some (handleGenerateStory_fulfilled story)
  | awaiting_story _, rejected => Some handleGenerateStory_rejected
  | awaiting_file query_seen, fulfilled_text result =>
      Some (reader_onload query_seen result)
  | awaiting_file _, rejected => Some skip
  | awaiting_ocr query_seen _, fulfilled_text extractedText =>
      Some (reader_onload_fulfilled query_seen extractedText)
  | awaiting_ocr _ _, rejected => Some reader_onload_rejected
  | _, _ => None
  end.

(** One event; [None] when the event cannot happen in this world. *)
Definition handle (e : Event) (w : World) : option World :=
  match e with
  | input_change q => Some (setQuery q w)
  | click_nav v => Some (setView v w)
  | submit_search => Some (handleSearch (query w) None w)
  | click_view_details item_word =>
      Some ((setQuery item_word ;; setView SEARCH ;;
             handleSearch (query w) (Some item_word)) w)
  | click_refresh_image => Some (handleRegenerateImage w)
  | click_play text type => Some (handlePlayAudio text type w)
  | click_create_story => Some (handleGenerateStory w)
  | file_input_change file_chosen =>
      Some (handleImageUpload (query w) file_chosen w)
  | settled i o =>
      match nth_error (pending w) i with
      | Some k =>
          match continuation k o with
          | Some act => Some ((resumed i ;; act) w)
          | None => None
          end
      | None => None
      end
  end.

(** [runs w es w']: the events [es], in this order, take [w] to [w']. *)
Inductive runs : World -> list Event -> World -> Prop :=
| runs_nil : forall w, runs w [] w
| runs_snoc : forall w es w1 e w2,
    runs w es w1 -> handle e w1 = Some w2 -> runs w (es ++ [e]) w2.

(** The worlds the component can be in, from a start with any stored
    history. *)
Definition reachable (w : World) : Prop :=
  exists clock h es, runs (start_world clock h) es w.

End EventLoop.

(** The requests of one audio phase that are in flight. *)
Definition is_speech (type : AudioType) (k : Suspended) : bool :=
  match k, type with
  | awaiting_speech _ AudioWord, AudioWord => true
  | awaiting_speech _ AudioSentence, AudioSentence => true
  | _, _ => false
  end.

Definition in_flight (type : AudioType) (w : World) : nat :=
  List.length (filter (is_speech type) (pending w)).

(** The calls of [handlePlayAudio] for one audio phase that have not
    reached their [finally]: suspended at the speech request or at the
    decoding. *)
Definition is_playback (type : AudioType) (k : Suspended) : bool :=
  match k, type with
  | awaiting_speech _ AudioWord, AudioWord => true
  | awaiting_speech _ AudioSentence, AudioSentence => true
  | awaiting_decode AudioWord _, AudioWord => true
  | awaiting_decode AudioSentence _, AudioSentence => true
  | _, _ => false
  end.

Definition playbacks (type : AudioType) (w : World) : nat :=
  List.length (filter (is_playback type) (pending w)).

(* ================================================================== *)
(** * Vocabulary of the properties *)
(* ================================================================== *)

(** The entries of a history for a word. *)
Definition entries_for (w : jsstring) (h : list WordHistoryItem.t)
  : list WordHistoryItem.t :=
  filter (fun item => streq (WordHistoryItem.word item) w) h.

(** An append succeeds (inserts) when the word is not in the history. *)
Definition inserted (result : DictionaryResult.t) (prev : DictionaryState.t)
  : bool :=
  negb (has_word (DictionaryResult.word result) (DictionaryState.history prev)).

(** The histories built from the empty one by [addToHistory] alone. *)
Inductive built_by_append : list WordHistoryItem.t -> Prop :=
| built_empty : built_by_append []
| built_append : forall prev now_id now_ts result,
    built_by_append (DictionaryState.history prev) ->
    built_by_append
      (DictionaryState.history
         (addToHistory_updater now_id now_ts result prev)).

(** [o[key]] on an object value. *)
Fixpoint obj_get (key : jsstring) (m : list (jsstring * json)) : option json :=
  match m with
  | [] => None
  | (k, v) :: m' => if streq k key then Some v else obj_get key m'
  end.

Definition is_string_at (key : string) (m : list (jsstring * json)) : bool :=
  match obj_get (lit key) m with Some (JStr _) => true | _ => false end.

Definition is_number_at (key : string) (m : list (jsstring * json)) : bool :=
  match obj_get (lit key) m with Some (JNum _) => true | _ => false end.

(** The interface [WordHistoryItem] of types.ts as a check on a value. *)
Definition is_WordHistoryItem (v : json) : bool :=
  match v with
  | JObj m =>
      is_string_at "id" m && is_string_at "word" m &&
      is_string_at "reading" m && is_string_at "definition" m &&
      is_string_at "definition_jp" m && is_string_at "example_jp" m &&
      is_string_at "example_cn" m && is_number_at "timestamp" m
  | _ => false
  end.

(** The type [WordHistoryItem[]] as a check on a value. *)
Definition is_history (v : json) : bool :=
  match v with
  | JArr l => forallb is_WordHistoryItem l
  | _ => false
  end.

(** Sample values for the examples below. *)
Definition neko : DictionaryResult.t :=
  DictionaryResult.mk [29483%N] (lit "neko") (lit "neko") (lit "cat")
                      (lit "a small animal") (lit "neko ga iru") (lit "mao").

Definition neko_again : DictionaryResult.t :=
  DictionaryResult.mk [29483%N] (lit "byou") (lit "byou") (lit "feline")
                      (lit "an animal") (lit "byou no hanashi") (lit "mao").

Definition inu : DictionaryResult.t :=
  DictionaryResult.mk [29356%N] (lit "inu") (lit "inu") (lit "dog")
                      (lit "a loyal animal") (lit "inu ga hashiru")
                      (lit "gou").

Definition no_storage : Storage := fun _ => None.

(** A browser with audio contexts in which [decodeBase64] always throws. *)
Definition no_decoder : Platform :=
  mkPlatform (fun _ => None) (fun _ => true).

Definition sample_clock : nat -> Z := fun n => (1700000000000 + Z.of_nat n)%Z.

(** A story request carries at most ten words. *)
Definition story_bounded (r : Request) : Prop :=
  match r with
  | generateDailyStory words => List.length words <= 10
  | _ => True
  end.

(** An action that neither touches the loading flag of an audio phase nor
    adds or removes a suspended call of that phase. *)
Definition leaves_audio (type : AudioType) (a : Action) : Prop :=
  forall w,
    loading type (state (a w)) = loading type (state w) /\
    filter (is_playback type) (pending (a w))
      = filter (is_playback type) (pending w).

(** The guard of an audio phase as an invariant: a call of the phase is
    suspended (at the speech request or at the decoding) only while the
    flag of the phase is up, and then it is the only one. *)
Definition audio_guarded (type : AudioType) (w : World) : Prop :=
  playbacks type w <= (if loading type (state w) then 1 else 0).

(** A fulfilled definition call among the events: the text phase of a
    lookup has succeeded with [d]. *)
Definition text_succeeded (d : DictionaryResult.t) (es : list Event) : Prop :=
  exists i, In (settled i (fulfilled_definition d)) es.

(** A world with a story request in flight. *)
Definition story_pending : World :=
  handleGenerateStory (start_world sample_clock [newItem 1 2 neko]).

(** A world with a lookup of the query in flight. *)
Definition lookup_pending : World :=
  handleSearch [] (Some [29483%N]) (start_world sample_clock []).

(** Where image requests and displayed results come from: every image
    request issued so far carries the word and the definition of a result
    that a successful text phase delivered, and so does the displayed
    result. *)
Definition image_request_justified (es : list Event) (r : Request) : Prop :=
  match r with
  | generateWordImage wd df =>
      exists d, text_succeeded d es /\
                wd = DictionaryResult.word d /\
                df = DictionaryResult.definition_cn d
  | _ => True
  end.

Definition images_follow_text (es : list Event) (w : World) : Prop :=
  Forall (image_request_justified es) (requests w) /\
  (forall d, DictionaryState.data (state w) = Some d -> text_succeeded d es).

(** A store whose history entry is valid JSON but no array of
    WordHistoryItem. *)
Definition schema_invalid_store : Storage :=
  setItem no_storage (lit "lyb_history") (lit "[1]").

(** A store whose history entry is not JSON. *)
Definition malformed_store : Storage :=
  setItem no_storage (lit "lyb_history") (lit "[{oops").

(** The number a run of decimal digits denotes after the digits [acc]. *)
Fixpoint uint_value (acc : N) (d : Decimal.uint) : N :=
  match d with
  | Decimal.Nil => acc
  | Decimal.D0 d => uint_value (acc * 10 + 0) d
  | Decimal.D1 d => uint_value (acc * 10 + 1) d
  | Decimal.D2 d => uint_value (acc * 10 + 2) d
  | Decimal.D3 d => uint_value (acc * 10 + 3) d
  | Decimal.D4 d => uint_value (acc * 10 + 4) d
  | Decimal.D5 d => uint_value (acc * 10 + 5) d
  | Decimal.D6 d => uint_value (acc * 10 + 6) d
  | Decimal.D7 d => uint_value (acc * 10 + 7) d
  | Decimal.D8 d => uint_value (acc * 10 + 8) d
  | Decimal.D9 d => uint_value (acc * 10 + 9) d
  end%N.

(** A numeral that starts with a digit from 1 to 9. *)
Definition starts_nonzero (d : Decimal.uint) : Prop :=
  match d with
  | Decimal.Nil | Decimal.D0 _ => False
  | _ => True
  end.

(** A state whose history was built by two appends. *)
Definition two_words : DictionaryState.t :=
  addToHistory_updater 3 4 inu
    (addToHistory_updater 1 2 neko DictionaryState.initial).

(* ================================================================== *)
(** * Further vocabulary: the history along a run *)
(* ================================================================== *)

(** The words and the ids of a history, in order. *)
Definition words_of (h : list WordHistoryItem.t) : list jsstring :=
  map WordHistoryItem.word h.

Definition ids_of (h : list WordHistoryItem.t) : list jsstring :=
  map WordHistoryItem.id h.

(** The readings of [Date.now()] that became ids.  Every insertion reads
    the clock twice, first for the id and then for the timestamp, so after
    [n] readings the ids were made from the readings [0], [2], ... below
    [n]; the newest comes first, as in the history. *)
Definition id_readings (clk : nat -> Z) (n : nat) : list Z :=
  map (fun k => clk (2 * k)) (rev (seq 0 (Nat.div2 n))).

(** A clock as browsers have it: it counts milliseconds, so the two
    readings of one insertion agree, and it has moved on by the next
    insertion. *)
Definition millisecond_clock : nat -> Z :=
  fun n => (1700000000000 + Z.of_nat (Nat.div2 n))%Z.

(** What one event does to the history: nothing, or one new item in front,
    made from the next two clock readings, for a word that was absent. *)
Definition history_step (w w' : World) : Prop :=
  clock w' = clock w /\
  ((DictionaryState.history (state w') = DictionaryState.history (state w) /\
    ticks w' = ticks w) \/
   (exists d,
      inserted d (state w) = true /\
      DictionaryState.history (state w')
        = newItem (clock w (ticks w)) (clock w (S (ticks w))) d
          :: DictionaryState.history (state w) /\
      ticks w' = S (S (ticks w)))).

(** The ids of the history are the id readings taken so far, as decimal
    numerals, and the clock has been read an even number of times. *)
Definition ids_from_clock (w : World) : Prop :=
  Nat.Even (ticks w) /\
  ids_of (DictionaryState.history (state w))
    = map Number_toString (id_readings (clock w) (ticks w)).

(** The story requests in flight. *)
Definition is_story (k : Suspended) : bool :=
  match k with
  | awaiting_story _ => true
  | _ => false
  end.

Definition stories_in_flight (w : World) : nat :=
  List.length (filter is_story (pending w)).

(** The guard of the story phase as an invariant: a story request is in
    flight only while [isGeneratingStory] is up, and then it is the only
    one. *)
Definition story_guarded (w : World) : Prop :=
  (DictionaryState.isGeneratingStory (state w) = false ->
   stories_in_flight w = 0) /\
  stories_in_flight w <= 1.

(** A story request carries at least one word. *)
Definition story_nonempty (r : Request) : Prop :=
  match r with
  | generateDailyStory words => words <> []
  | _ => True
  end.

(** How a call of [handlePlayAudio] ends.  In its [catch]: the failure is
    logged and nothing is played.  After [playBuffer]: the buffer has been
    handed over and nothing is logged.  Either way [finally] clears the
    flag of the phase, and nothing else changes. *)
Definition playback_failed (type : AudioType) (w w' : World) : Prop :=
  state w' = with_loading type false (state w) /\
  console w' = message "Audio playback failed" :: console w /\
  played w' = played w /\
  requests w' = requests w.

Definition playback_started (type : AudioType)
    (audioBuffer : AudioDecoder.AudioBuffer) (w w' : World) : Prop :=
  state w' = with_loading type false (state w) /\
  console w' = console w /\
  played w' = audioBuffer :: played w /\
  requests w' = requests w.




(** A browser for the examples: its [decodeBase64] knows one payload, the
    two bytes of the sample -32768, and it always has an audio context. *)
Definition sample_platform : Platform :=
  mkPlatform
    (fun s => if streq s (lit "AIA=") then Some [Byte.x00; Byte.x80]
              else None)
    (fun _ => true).

(** The settlements that write an error message into the state, with the
    message each one writes. *)
Definition error_source (k : Suspended) (o : Outcome) (m : jsstring) : Prop :=
  match k, o with
  | awaiting_definition _, rejected =>
      m = lit "Failed to find the word. Please try again."
  | awaiting_story _, rejected => m = lit "Failed to generate story."
  | awaiting_ocr _ _, rejected => m = lit "Could not read text from image."
  | awaiting_ocr _ _, fulfilled_text extractedText =>
      extractedText = [] /\ m = lit "Could not read text from image."
  | _, _ => False
  end.

(* ================================================================== *)
(** * services/geminiService: what the calls resolve to *)
(* ================================================================== *)

(** The value [extractTextFromImage] resolves to, from the text of the
    response (absent when the service returned none):
    the trimmed text, or the empty string when there is none. *)
Definition extractTextFromImage_returns (response_text : option jsstring)
  : jsstring :=
  match response_text with
  | Some text => if truthy (trim text) then trim text else []
  | None => []
  end.

(** A string that is empty or starts with a code unit that is no white
    space. *)
Definition starts_clean (s : jsstring) : Prop :=
  match s with
  | [] => True
  | c :: _ => is_white_space c = false
  end.

(* ================================================================== *)
(** * Strings as bytes: UTF-8 *)
(* ================================================================== *)

(** What [new Blob([text])] holds: the text is converted to scalar values
    (the USVString of Web IDL) and these are written in UTF-8.  Bytes are
    numbers below 256. *)
Module Utf8.

(** The code units D800 to DBFF open a surrogate pair, DC00 to DFFF close
    one. *)
Definition is_high_surrogate (c : N) : bool :=
  ((55296 <=? c) && (c <=? 56319))%N.

Definition is_low_surrogate (c : N) : bool :=
  ((56320 <=? c) && (c <=? 57343))%N.

(** A surrogate pair is one code point; a surrogate without its partner
    becomes U+FFFD. *)
Fixpoint scalar_values (s : jsstring) : list N :=
  match s with
  | [] => []
  | c :: s' =>
      if is_high_surrogate c then
        match s' with
        | d :: s'' =>
            if is_low_surrogate d then
              (65536 + (c - 55296) * 1024 + (d - 56320))%N
              :: scalar_values s''
            else 65533%N :: scalar_values s'
        | [] => [65533%N]
        end
      else if is_low_surrogate c then 65533%N :: scalar_values s'
      else c :: scalar_values s'
  end.

(** The scalar values: the code points up to 10FFFF but the surrogates. *)
Definition is_scalar_value (u : N) : bool :=
  (u <? 1114112)%N && negb (is_high_surrogate u) && negb (is_low_surrogate u).

(** The one to four bytes of a scalar value. *)
Definition encode_scalar (u : N) : list N :=
  if (u <? 128)%N then [u]
  else if (u <? 2048)%N then [192 + u / 64; 128 + u mod 64]%N
  else if (u <? 65536)%N then
    [224 + u / 4096; 128 + (u / 64) mod 64; 128 + u mod 64]%N
  else
    [240 + u / 262144; 128 + (u / 4096) mod 64; 128 + (u / 64) mod 64;
     128 + u mod 64]%N.

Definition encode (s : jsstring) : list N :=
  flat_map encode_scalar (scalar_values s).

(** Reading UTF-8, strictly: [None] for bytes that are no UTF-8 (a stray
    or missing continuation byte, an overlong form, a surrogate, a value
    above 10FFFF). *)
Definition is_continuation (b : N) : bool := ((128 <=? b) && (b <=? 191))%N.

Fixpoint decode_scalars (bytes : list N) : option (list N) :=
  match bytes with
  | [] => Some []
  | b0 :: rest =>
      if (b0 <? 128)%N then option_map (cons b0) (decode_scalars rest)
      else if ((194 <=? b0) && (b0 <=? 223))%N then
        match rest with
        | b1 :: rest1 =>
            if is_continuation b1 then
              option_map (cons ((b0 - 192) * 64 + (b1 - 128))%N)
                         (decode_scalars rest1)
            else None
        | _ => None
        end
      else if ((224 <=? b0) && (b0 <=? 239))%N then
        match rest with
        | b1 :: b2 :: rest2 =>
            let u := ((b0 - 224) * 4096 + (b1 - 128) * 64 + (b2 - 128))%N in
            if is_continuation b1 && is_continuation b2
               && (2048 <=? u)%N
               && negb (is_high_surrogate u || is_low_surrogate u) then
              option_map (cons u) (decode_scalars rest2)
            else None
        | _ => None
        end
      else if ((240 <=? b0) && (b0 <=? 244))%N then
        match rest with
        | b1 :: b2 :: b3 :: rest3 =>
            let u := ((b0 - 240) * 262144 + (b1 - 128) * 4096
                      + (b2 - 128) * 64 + (b3 - 128))%N in
            if is_continuation b1 && is_continuation b2
               && is_continuation b3
               && (65536 <=? u)%N && (u <=? 1114111)%N then
              option_map (cons u) (decode_scalars rest3)
            else None
        | _ => None
        end
      else None
  end.

(** The one or two code units of a scalar value. *)
Definition utf16_units (u : N) : jsstring :=
  if (u <? 65536)%N then [u]
  else [55296 + (u - 65536) / 1024; 56320 + (u - 65536) mod 1024]%N.

Definition decode (bytes : list N) : option jsstring :=
  option_map (flat_map utf16_units) (decode_scalars bytes).

(** A string of code units in which every surrogate is part of a pair. *)
Fixpoint well_formed (s : jsstring) : bool :=
  match s with
  | [] => true
  | c :: s' =>
      if is_high_surrogate c then
        match s' with
        | d :: s'' => is_low_surrogate d && well_formed s''
        | [] => false
        end
      else negb (is_low_surrogate c) && (c <? 65536)%N && well_formed s'
  end.

End Utf8.

(* ================================================================== *)
(** * utils/csvUtils: [exportHistoryToCSV] *)
(* ================================================================== *)

Module CsvUtils.

(** The array [headers]. *)
Definition headers : list jsstring :=
  map lit ["Word"; "Reading"; "Definition (CN)"; "Definition (JP)";
           "Example (JP)"; "Example (CN)"; "Date Added"]%string.

(** The call of [replace] on a field: every double quote of the text is
    replaced by two double quotes. *)
Fixpoint replace_quotes (s : jsstring) : jsstring :=
  match s with
  | [] => []
  | c :: s' =>
      if (c =? 34)%N then 34%N :: 34%N :: replace_quotes s'
      else c :: replace_quotes s'
  end.

(** The template that puts a text between double quotes. *)
Definition in_quotes (s : jsstring) : jsstring := 34%N :: s ++ [34%N].

(** [Array.prototype.join] on an array of strings. *)
Fixpoint join (sep : jsstring) (l : list jsstring) : jsstring :=
  match l with
  | [] => []
  | [x] => x
  | x :: l' => x ++ sep ++ join sep l'
  end.

(** What the browser is asked to download: the bytes of the Blob, its
    type, and the file name of the link. *)
Record Download : Type := mkDownload {
  blob_bytes : list N;
  blob_type : jsstring;
  download : jsstring
}.

Section ExportToCSV.

(** [new Date(timestamp).toLocaleDateString()] depends on the locale of
    the browser, and [new Date().toISOString().slice(0, 10)] on the day of
    the export; both are taken as given. *)
Variable toLocaleDateString : Z -> jsstring.
Variable today : jsstring.

(** One element of [rows]. *)
Definition row (item : WordHistoryItem.t) : jsstring :=
  join [44%N]
    [ in_quotes (replace_quotes (WordHistoryItem.word item));
      in_quotes (replace_quotes (WordHistoryItem.reading item));
      in_quotes (replace_quotes (WordHistoryItem.definition item));
      in_quotes (replace_quotes (WordHistoryItem.definition_jp item));
      in_quotes (replace_quotes (WordHistoryItem.example_jp item));
      in_quotes (replace_quotes (WordHistoryItem.example_cn item));
      in_quotes (toLocaleDateString (WordHistoryItem.timestamp item)) ].

Definition csvContent (history : list WordHistoryItem.t) : jsstring :=
  join [10%N] (join [44%N] headers :: map row history).

(** [exportHistoryToCSV(history)]: nothing for an empty history; otherwise
    a download of the content behind a byte-order mark, in UTF-8. *)
Definition exportHistoryToCSV (history : list WordHistoryItem.t)
  : option Download :=
  match history with
  | [] => None
  | _ :: _ =>
      Some (mkDownload
              (Utf8.encode (65279%N :: csvContent history))
              (lit "text/csv;charset=utf-8;")
              (lit "little_yellow_book_vocabulary_" ++ today ++ lit ".csv"))
  end.

(** The texts that make the row of an item. *)
Definition fields_of (item : WordHistoryItem.t) : list jsstring :=
  [ WordHistoryItem.word item; WordHistoryItem.reading item;
    WordHistoryItem.definition item; WordHistoryItem.definition_jp item;
    WordHistoryItem.example_jp item; WordHistoryItem.example_cn item;
    toLocaleDateString (WordHistoryItem.timestamp item) ].

(** The texts of the row of an item in UTF-8, as the file holds them. *)
Definition fields_in_utf8 (item : WordHistoryItem.t) : list (list N) :=
  map Utf8.encode (fields_of item).

(** Every text of the rows is well formed. *)
Definition texts_well_formed (history : list WordHistoryItem.t) : Prop :=
  forall item text,
    In item history -> In text (fields_of item) ->
    Utf8.well_formed text = true.

End ExportToCSV.

End CsvUtils.

(** A reader of comma-separated values as the exporter writes them:
    fields are separated by commas, records by line feeds; a field may
    stand between double quotes, and then holds commas and line feeds as
    they are and a double quote as two of them.  (This is the quoting of
    RFC 4180; its record break is CR LF, where the exporter writes a bare
    line feed.)  The reader works on a sequence of symbols, code units or
    bytes; [None] stands for a malformed text. *)
Module CsvReader.

Inductive mode : Type :=
| FieldStart       (* at the start of a field *)
| Unquoted         (* in a field without quotes *)
| Quoted           (* between the quotes of a field *)
| QuoteSeen.       (* after a quote inside a quoted field *)

(** The mode, the field being read (newest unit first), the fields of the
    record being read (newest first), the records read (newest first). *)
Definition state : Type :=
  (mode * list N * list (list N) * list (list (list N)))%type.

Definition end_field (s : state) : state :=
  let '(_, field, fields, records) := s in
  (FieldStart, [], rev field :: fields, records).

Definition end_record (s : state) : state :=
  let '(_, field, fields, records) := s in
  (FieldStart, [], [], rev (rev field :: fields) :: records).

Definition push (m : mode) (c : N) (s : state) : state :=
  let '(_, field, fields, records) := s in
  (m, c :: field, fields, records).

Definition step (s : state) (c : N) : option state :=
  let '(m, field, fields, records) := s in
  match m with
  | FieldStart =>
      if (c =? 34)%N then Some (Quoted, field, fields, records)
      else if (c =? 44)%N then Some (end_field s)
      else if (c =? 10)%N then Some (end_record s)
      else Some (push Unquoted c s)
  | Unquoted =>
      if (c =? 34)%N then None
      else if (c =? 44)%N then Some (end_field s)
      else if (c =? 10)%N then Some (end_record s)
      else Some (push Unquoted c s)
  | Quoted =>
      if (c =? 34)%N then Some (QuoteSeen, field, fields, records)
      else Some (push Quoted c s)
  | QuoteSeen =>
      if (c =? 34)%N then Some (push Quoted c s)
      else if (c =? 44)%N then Some (end_field s)
      else if (c =? 10)%N then Some (end_record s)
      else None
  end.

Fixpoint run (text : list N) (s : state) : option state :=
  match text with
  | [] => Some s
  | c :: text' =>
      match step s c with
      | Some s' => run text' s'
      | None => None
      end
  end.

(** The end of the text closes the last record, unless the text ended
    with a line break or inside quotes. *)
Definition finish (s : state) : option (list (list (list N))) :=
  let '(m, field, fields, records) := s in
  match m, fields with
  | Quoted, _ => None
  | FieldStart, [] => Some (rev records)
  | _, _ => Some (rev (rev (rev field :: fields) :: records))
  end.

Definition read (text : list N) : option (list (list (list N))) :=
  match run text (FieldStart, [], [], []) with
  | Some s => finish s
  | None => None
  end.

(** All the values of a list of results, when none is missing. *)
Fixpoint all_some {A : Type} (l : list (option A)) : option (list A) :=
  match l with
  | [] => Some []
  | Some x :: l' => option_map (cons x) (all_some l')
  | None :: _ => None
  end.

(** Reading a file: a byte-order mark at the start is skipped, the bytes
    are split into records and fields, and every field is read as
    UTF-8. *)
Definition skip_bom (bytes : list N) : list N :=
  match bytes with
  | 239%N :: 187%N :: 191%N :: content => content
  | _ => bytes
  end.

Definition read_file (bytes : list N) : option (list (list jsstring)) :=
  match read (skip_bom bytes) with
  | Some records =>
      all_some (map (fun fields => all_some (map Utf8.decode fields)) records)
  | None => None
  end.

End CsvReader.

(** A date format for the examples, and a history item whose definition
    holds double quotes, a comma, a line feed and a surrogate pair. *)
Definition sample_date : Z -> jsstring := fun _ => lit "1/2/2024".

Definition quoted_item : WordHistoryItem.t :=
  WordHistoryItem.mk (lit "1700000000000") [29483%N] (lit "neko")
    [34; 99; 97; 116; 34; 44; 10; 55357; 56369]%N
    (lit "a small animal") (lit "neko ga iru") (lit "mao") 1700000000000.

(* ================================================================== *)
(** * The user profile and its storage *)
(* ================================================================== *)

Module UserProfile.
Record t : Type := mk {
  name : jsstring;
  email : jsstring;
  photoURL : option jsstring
}.
End UserProfile.

(** The constant [mockUser] of [handleLogin]. *)
Definition mockUser : UserProfile.t :=
  UserProfile.mk
    (lit "Explorer")
    (lit "explorer@example.com")
    (Some (lit "https://ui-avatars.com/api/?name=Explorer&background=f59e0b&color=fff")).

(** [localStorage.removeItem(key)] *)
Definition removeItem (ls : Storage) (key : jsstring) : Storage :=
  fun k => if streq k key then None else ls k.

(** [JSON.stringify] of a profile: the properties that are defined, in
    creation order. *)
Definition JSON_stringify_user (u : UserProfile.t) : jsstring :=
  123%N ::
  string_property "name" (UserProfile.name u) ++ 44%N ::
  string_property "email" (UserProfile.email u) ++
  match UserProfile.photoURL u with
  | Some url => 44%N :: string_property "photoURL" url
  | None => []
  end ++ [125%N].

(** The run-time value of a profile. *)
Definition user_value (u : UserProfile.t) : json :=
  JObj ([ (lit "name", JStr (UserProfile.name u));
          (lit "email", JStr (UserProfile.email u)) ]
        ++ match UserProfile.photoURL u with
           | Some url => [(lit "photoURL", JStr url)]
           | None => []
           end).

(** The [user] hook (the value given to [setUser]; [None] is null) and
    the store. *)
Record Account : Type := mkAccount {
  user : option json;
  localStorage : Storage
}.

(** [handleLogin()]; the alert shows a message and changes nothing. *)
Definition handleLogin (a : Account) : Account :=
  mkAccount (Some (user_value mockUser))
            (setItem (localStorage a) (lit "lyb_user")
                     (JSON_stringify_user mockUser)).

(** [handleLogout()], which also goes back to the search view. *)
Definition handleLogout (a : Account) (w : World) : Account * World :=
  (mkAccount None (removeItem (localStorage a) (lit "lyb_user")),
   setView SEARCH w).

(** The profile part of the mount effect: the value given to [setUser],
    [None] when the hook keeps its initial null (nothing stored, or a
    parse failure, which is caught and logged). *)
Definition loadUserEffect (ls : Storage) : option json :=
  match getItem ls (lit "lyb_user") with
  | None => None
  | Some savedUser =>
      if truthy savedUser then JSON_parse savedUser else None
  end.

(* ================================================================== *)
(** * Loading flags and the calls behind them *)
(* ================================================================== *)

Definition is_definition_call (k : Suspended) : bool :=
  match k with awaiting_definition _ => true | _ => false end.

Definition is_image_call (k : Suspended) : bool :=
  match k with awaiting_image _ _ => true | _ => false end.

(** Some suspended call satisfies [f]. *)
Definition calls (f : Suspended -> bool) (w : World) : bool :=
  existsb f (pending w).

(** Every loading flag that is up has a call in flight that will take it
    down. *)
Definition flags_backed (w : World) : Prop :=
  (DictionaryState.isLoadingText (state w) = true ->
   calls is_definition_call w = true) /\
  (DictionaryState.isLoadingImage (state w) = true ->
   calls (fun k => is_definition_call k || is_image_call k) w = true) /\
  (DictionaryState.isLoadingAudioWord (state w) = true ->
   calls (is_playback AudioWord) w = true) /\
  (DictionaryState.isLoadingAudioSentence (state w) = true ->
   calls (is_playback AudioSentence) w = true) /\
  (DictionaryState.isGeneratingStory (state w) = true ->
   calls is_story w = true).

(* ================================================================== *)
(** * Strings *)
(* ================================================================== *)

Lemma streq_refl : forall s, streq s s = true.
Proof.
  induction s as [|c s IH]; simpl; [reflexivity|].
  now rewrite N.eqb_refl, IH.
Qed.

Lemma streq_eq : forall a b, streq a b = true <-> a = b.
Proof.
  induction a as [|x a IH]; destruct b as [|y b]; simpl; split;
    try discriminate; try reflexivity.
  - intros H. apply andb_true_iff in H as [Hxy Hab].
    apply N.eqb_eq in Hxy. apply IH in Hab. now subst.
  - intros H. injection H as -> ->. now rewrite N.eqb_refl, streq_refl.
Qed.

Lemma streq_neq : forall a b, streq a b = false <-> a <> b.
Proof.
  intros a b. split.
  - intros H E. apply streq_eq in E. congruence.
  - intros H. destruct (streq a b) eqn:E; [|reflexivity].
    apply streq_eq in E. contradiction.
Qed.

Lemma trimStart_white : forall s,
  forallb is_white_space s = true -> trimStart s = [].
Proof.
  induction s as [|c s IH]; simpl; [reflexivity|].
  intros H. apply andb_true_iff in H as [Hc Hs]. rewrite Hc. now apply IH.
Qed.

Lemma trim_white : forall s, forallb is_white_space s = true -> trim s = [].
Proof.
  intros s H. unfold trim, trimEnd. now rewrite (trimStart_white s H).
Qed.

(* ================================================================== *)
(** * The history store *)
(* ================================================================== *)

Lemma history_with_history : forall h p,
  DictionaryState.history (DictionaryState.with_history h p) = h.
Proof. reflexivity. Qed.

Lemma entries_for_absent : forall w h,
  has_word w h = false -> entries_for w h = [].
Proof.
  induction h as [|x h IH]; simpl; [reflexivity|].
  intros H. apply orb_false_iff in H as [Hx Hh]. rewrite Hx. now apply IH.
Qed.

Lemma addToHistory_updater_present : forall a b r prev,
  inserted r prev = false -> addToHistory_updater a b r prev = prev.
Proof.
  unfold inserted, addToHistory_updater. intros a b r prev H.
  apply negb_false_iff in H. now rewrite H.
Qed.

Lemma addToHistory_updater_absent : forall a b r prev,
  inserted r prev = true ->
  DictionaryState.history (addToHistory_updater a b r prev)
  = newItem a b r :: DictionaryState.history prev.
Proof.
  unfold inserted, addToHistory_updater. intros a b r prev H.
  apply negb_true_iff in H. now rewrite H.
Qed.

Lemma has_word_after : forall a b r prev,
  has_word (DictionaryResult.word r)
    (DictionaryState.history (addToHistory_updater a b r prev)) = true.
Proof.
  intros a b r prev. unfold addToHistory_updater.
  destruct (has_word (DictionaryResult.word r) (DictionaryState.history prev))
    eqn:E; [exact E|].
  simpl. now rewrite streq_refl.
Qed.

(** C1, as amended.  Two results with the same word are appended one after
    the other.  The second append returns the state unchanged.  When the
    history held no entry for the word, the first append puts its new item
    in front and that item is afterwards the only entry for the word; when
    the history already held the word, both appends leave the state as it
    was. *)
Theorem addToHistory_same_word_twice :
  forall prev r1 r2 a1 b1 a2 b2,
    DictionaryResult.word r1 = DictionaryResult.word r2 ->
    let s1 := addToHistory_updater a1 b1 r1 prev in
    let s2 := addToHistory_updater a2 b2 r2 s1 in
    s2 = s1 /\
    (inserted r1 prev = true ->
       DictionaryState.history s2
         = newItem a1 b1 r1 :: DictionaryState.history prev /\
       entries_for (DictionaryResult.word r1) (DictionaryState.history s2)
         = [newItem a1 b1 r1]) /\
    (inserted r1 prev = false -> s2 = prev).
Proof.
  intros prev r1 r2 a1 b1 a2 b2 Hw s1 s2.
  assert (E : s2 = s1).
  { subst s1 s2. apply addToHistory_updater_present.
    unfold inserted. rewrite <- Hw, has_word_after. reflexivity. }
  split; [exact E|]. split.
  - intros Hins. rewrite E. subst s1.
    rewrite (addToHistory_updater_absent a1 b1 r1 prev Hins).
    split; [reflexivity|].
    unfold entries_for. simpl. rewrite streq_refl.
    fold (entries_for (DictionaryResult.word r1) (DictionaryState.history prev)).
    rewrite entries_for_absent; [reflexivity|].
    unfold inserted in Hins. now apply negb_true_iff in Hins.
  - intros Hins. rewrite E. subst s1.
    now apply addToHistory_updater_present.
Qed.

Lemma addToHistory_same_word_twice_witness :
  DictionaryResult.word neko = DictionaryResult.word neko_again /\
  addToHistory_updater 3 4 neko_again
    (addToHistory_updater 1 2 neko DictionaryState.initial)
  = addToHistory_updater 1 2 neko DictionaryState.initial.
Proof.
  split; [reflexivity|].
  exact (proj1 (addToHistory_same_word_twice DictionaryState.initial
                  neko neko_again 1 2 3 4 eq_refl)).
Defined.

(** C1, as stated, fails where the history already holds the word: the
    entry that remains is the older one, not an entry made from the first
    of the two results. *)
Lemma addToHistory_same_word_twice_counterexample :
  let prev := addToHistory_updater 1 2 neko_again DictionaryState.initial in
  let s1 := addToHistory_updater 3 4 neko prev in
  let s2 := addToHistory_updater 5 6 neko_again s1 in
  DictionaryResult.word neko = DictionaryResult.word neko_again /\
  entries_for (DictionaryResult.word neko) (DictionaryState.history s2)
    = [newItem 1 2 neko_again] /\
  entries_for (DictionaryResult.word neko) (DictionaryState.history s2)
    <> [newItem 3 4 neko].
Proof.
  split; [reflexivity|]. split; [reflexivity|]. vm_compute. discriminate.
Qed.

(** C2.  When the append of A succeeds and then the append of B succeeds,
    the history starts with B's item followed by A's item, followed by what
    was there before: every successful append puts its item in front. *)
Theorem history_newest_first :
  forall prev rA rB a1 b1 a2 b2,
    let s1 := addToHistory_updater a1 b1 rA prev in
    let s2 := addToHistory_updater a2 b2 rB s1 in
    inserted rA prev = true ->
    inserted rB s1 = true ->
    DictionaryState.history s1
      = newItem a1 b1 rA :: DictionaryState.history prev /\
    DictionaryState.history s2
      = newItem a2 b2 rB :: DictionaryState.history s1 /\
    DictionaryState.history s2
      = newItem a2 b2 rB :: newItem a1 b1 rA :: DictionaryState.history prev.
Proof.
  intros prev rA rB a1 b1 a2 b2 s1 s2 HA HB. subst s1 s2.
  rewrite (addToHistory_updater_absent a2 b2 rB _ HB).
  rewrite (addToHistory_updater_absent a1 b1 rA prev HA).
  repeat split.
Qed.

Lemma history_newest_first_witness :
  DictionaryState.history
    (addToHistory_updater 3 4 inu
       (addToHistory_updater 1 2 neko DictionaryState.initial))
  = [newItem 3 4 inu; newItem 1 2 neko].
Proof.
  exact (proj2 (proj2 (history_newest_first DictionaryState.initial neko inu
                         1 2 3 4 eq_refl eq_refl))).
Defined.

(* ================================================================== *)
(** * The lookup orchestrator *)
(* ================================================================== *)

(** Unfolds the handlers down to the actions they are made of. *)
Ltac unfold_handlers :=
  unfold handleSearch, handleSearch_fulfilled, handleSearch_rejected,
    generateImage_fulfilled, generateImage_rejected, handleRegenerateImage,
    handlePlayAudio, handlePlayAudio_fulfilled, handlePlayAudio_decoded,
    handlePlayAudio_rejected,
    handleGenerateStory, handleGenerateStory_fulfilled,
    handleGenerateStory_rejected, handleImageUpload, reader_onload,
    reader_onload_fulfilled, reader_onload_rejected, handleSearch,
    generateImage, addToHistory, andThen.

Ltac split_cases :=
  repeat match goal with
         | |- context [if ?b then _ else _] => destruct b eqn:?
         | |- context [match ?x with Some _ => _ | None => _ end] =>
             destruct x eqn:?
         | |- context [match ?x with
                       | AudioDecoder.decoded _ => _
                       | AudioDecoder.format_error => _ end] => destruct x eqn:?
         | |- context [match ?x with [] => _ | _ :: _ => _ end] =>
             destruct x eqn:?
         end.

Lemma firstn_10_length : forall (h : list WordHistoryItem.t),
  List.length (slice_0_10 h) <= 10.
Proof. intros h. unfold slice_0_10. apply firstn_le_length. Qed.

Ltac forall_requests :=
  simpl;
  repeat (apply Forall_cons; [first [exact I | apply firstn_10_length]|]);
  try assumption.

Lemma handle_story_bounded : forall dec e w w',
  handle dec e w = Some w' ->
  Forall story_bounded (requests w) -> Forall story_bounded (requests w').
Proof.
  intros dec e w w' H Inv.
  destruct e as [q|v| |iw| |text ty| |fc|i o]; simpl in H;
    try (injection H as <-; unfold_handlers; split_cases;
         forall_requests; fail).
  destruct (nth_error (pending w) i) as [k|] eqn:Hk; [|discriminate].
  destruct k, o; simpl in H; try discriminate; injection H as <-;
    unfold_handlers; split_cases; forall_requests.
Qed.

(** ** Frame lemmas: what leaves an audio phase alone *)

Create HintDb audio.

Lemma leaves_audio_andThen : forall type a b,
  leaves_audio type a -> leaves_audio type b -> leaves_audio type (a ;; b).
Proof.
  intros type a b Ha Hb w. unfold andThen.
  destruct (Ha w) as [Ha1 Ha2], (Hb (a w)) as [Hb1 Hb2].
  split; congruence.
Qed.

Lemma leaves_audio_skip : forall type, leaves_audio type skip.
Proof. intros type w. split; reflexivity. Qed.

Lemma leaves_audio_setQuery : forall type q, leaves_audio type (setQuery q).
Proof. intros type q w. split; reflexivity. Qed.

Lemma leaves_audio_setView : forall type v, leaves_audio type (setView v).
Proof. intros type v w. split; reflexivity. Qed.

Lemma leaves_audio_console_error : forall type e,
  leaves_audio type (console_error e).
Proof. intros type e w. split; reflexivity. Qed.

Lemma leaves_audio_playBuffer : forall type b,
  leaves_audio type (playBuffer b).
Proof. intros type b w. split; reflexivity. Qed.

Lemma leaves_audio_tick : forall type n, leaves_audio type (tick n).
Proof. intros type n w. split; reflexivity. Qed.

Lemma leaves_audio_setState : forall type f,
  (forall st, loading type (f st) = loading type st) ->
  leaves_audio type (setState f).
Proof. intros type f Hf w. split; [apply Hf | reflexivity]. Qed.

Lemma leaves_audio_await : forall type r k,
  is_playback type k = false -> leaves_audio type (await r k).
Proof.
  intros type r k Hk w. split; [reflexivity|]. simpl. now rewrite Hk.
Qed.

Lemma leaves_audio_suspend : forall type k,
  is_playback type k = false -> leaves_audio type (suspend k).
Proof.
  intros type k Hk w. split; [reflexivity|]. simpl. now rewrite Hk.
Qed.

#[local] Hint Resolve leaves_audio_andThen leaves_audio_skip
  leaves_audio_setQuery leaves_audio_setView leaves_audio_console_error
  leaves_audio_playBuffer leaves_audio_tick leaves_audio_setState
  leaves_audio_await leaves_audio_suspend : audio.

Lemma loading_addToHistory_updater : forall type a b r st,
  loading type (addToHistory_updater a b r st) = loading type st.
Proof.
  intros type a b r st. unfold addToHistory_updater.
  destruct (has_word _ _); [reflexivity|]. destruct type; reflexivity.
Qed.

#[local] Hint Resolve loading_addToHistory_updater : audio.
#[local] Hint Extern 1 (forall st, loading ?type _ = loading ?type st) =>
  (let st := fresh in intros st; destruct type; reflexivity) : audio.
#[local] Hint Extern 1 (is_playback _ _ = false) =>
  (match goal with |- is_playback ?t _ = false => destruct t; reflexivity end)
  : audio.

Lemma leaves_audio_addToHistory : forall type r,
  leaves_audio type (addToHistory r).
Proof.
  intros type r w. unfold addToHistory.
  destruct (negb _); apply leaves_audio_andThen; auto with audio.
Qed.

Lemma leaves_audio_generateImage : forall type wd df,
  leaves_audio type (generateImage wd df).
Proof. intros. unfold generateImage. auto with audio. Qed.

#[local] Hint Resolve leaves_audio_addToHistory leaves_audio_generateImage
  : audio.

Lemma leaves_audio_handleSearch : forall type q o,
  leaves_audio type (handleSearch q o).
Proof.
  intros type q o w. unfold handleSearch.
  destruct (negb _); [split; reflexivity|].
  apply leaves_audio_andThen; auto with audio.
Qed.

#[local] Hint Resolve leaves_audio_handleSearch : audio.

Lemma leaves_audio_handleRegenerateImage : forall type,
  leaves_audio type handleRegenerateImage.
Proof.
  intros type w. unfold handleRegenerateImage.
  destruct (DictionaryState.data (state w)); [|split; reflexivity].
  apply leaves_audio_andThen; auto with audio.
Qed.

Lemma leaves_audio_handleGenerateStory : forall type,
  leaves_audio type handleGenerateStory.
Proof.
  intros type w. unfold handleGenerateStory.
  destruct (DictionaryState.history (state w)); [split; reflexivity|].
  destruct (DictionaryState.isGeneratingStory (state w));
    [split; reflexivity|].
  apply leaves_audio_andThen; auto with audio.
Qed.

Lemma leaves_audio_handleImageUpload : forall type q fc,
  leaves_audio type (handleImageUpload q fc).
Proof. intros type q [|]; unfold handleImageUpload; auto with audio. Qed.

Lemma leaves_audio_setState_other : forall type ty v,
  ty <> type -> leaves_audio type (setState (with_loading ty v)).
Proof.
  intros type ty v Hne. apply leaves_audio_setState. intros st.
  destruct type, ty; try reflexivity; now destruct Hne.
Qed.

Lemma leaves_audio_rejected_other : forall type ty,
  ty <> type -> leaves_audio type (handlePlayAudio_rejected ty).
Proof.
  intros type ty Hne. unfold handlePlayAudio_rejected.
  apply leaves_audio_andThen; [auto with audio|].
  now apply leaves_audio_setState_other.
Qed.

Lemma is_playback_speech : forall type text ty,
  is_playback type (awaiting_speech text ty) = false -> ty <> type.
Proof. intros [|] text [|] H; simpl in H; congruence. Qed.

Lemma is_playback_decode : forall type ty decoding,
  is_playback type (awaiting_decode ty decoding) = false -> ty <> type.
Proof. intros [|] [|] decoding H; simpl in *; congruence. Qed.

Lemma is_playback_other : forall type ty decoding,
  ty <> type -> is_playback type (awaiting_decode ty decoding) = false.
Proof. intros [|] [|] decoding H; simpl in *; congruence. Qed.

Lemma leaves_audio_other_continuation : forall dec type k o act,
  is_playback type k = false ->
  continuation dec k o = Some act -> leaves_audio type act.
Proof.
  intros dec type k o act Hk H.
  destruct k as [t|wd df|text ty|ty decoding|ws|qs|qs b], o as [d|s| |];
    simpl in H; try discriminate; injection H as <-.
  - unfold handleSearch_fulfilled. auto 8 with audio.
  - unfold handleSearch_rejected. auto with audio.
  - unfold generateImage_fulfilled. auto with audio.
  - unfold generateImage_rejected. auto with audio.
  - (* the other audio phase, at the speech request *)
    apply is_playback_speech in Hk. intros w.
    unfold handlePlayAudio_fulfilled.
    destruct (decodeBase64 dec s) as [audioBytes|];
      [destruct (newAudioContext dec w)|];
      try (now apply leaves_audio_rejected_other).
    apply leaves_audio_suspend. now apply is_playback_other.
  - apply is_playback_speech in Hk. now apply leaves_audio_rejected_other.
  - (* the other audio phase, at the decoding *)
    apply is_playback_decode in Hk. unfold handlePlayAudio_decoded.
    destruct decoding as [audioBuffer|];
      [|now apply leaves_audio_rejected_other].
    apply leaves_audio_andThen; [auto with audio|].
    now apply leaves_audio_setState_other.
  - unfold handleGenerateStory_fulfilled. auto with audio.
  - unfold handleGenerateStory_rejected. auto with audio.
  - unfold reader_onload. auto with audio.
  - auto with audio.
  - unfold reader_onload_fulfilled, reader_onload_rejected.
    destruct (truthy s); auto 8 with audio.
  - unfold reader_onload_rejected. auto with audio.
Qed.

Lemma in_flight_remove_nth : forall (f : Suspended -> bool) l i k,
  nth_error l i = Some k ->
  List.length (filter f l)
  = (if f k then 1 else 0) + List.length (filter f (remove_nth i l)).
Proof.
  induction l as [|x l IH]; intros [|i] k H; simpl in *; try discriminate.
  - injection H as ->. destruct (f k); reflexivity.
  - specialize (IH i k H). destruct (f x), (f k); simpl in *; lia.
Qed.

Lemma audio_guarded_leaves : forall type a w,
  leaves_audio type a -> audio_guarded type w -> audio_guarded type (a w).
Proof.
  intros type a w Ha Inv. unfold audio_guarded, playbacks in *.
  destruct (Ha w) as [-> ->]. exact Inv.
Qed.

Lemma is_speech_same : forall text type,
  is_speech type (awaiting_speech text type) = true.
Proof. intros text [|]; reflexivity. Qed.

Lemma is_playback_same : forall type decoding,
  is_playback type (awaiting_decode type decoding) = true.
Proof. intros [|] decoding; reflexivity. Qed.

Lemma is_playback_type : forall type k,
  is_playback type k = true ->
  (exists text, k = awaiting_speech text type) \/
  (exists decoding, k = awaiting_decode type decoding).
Proof.
  intros [|] [t|wd df|text [|]|[|] decoding|ws|qs|qs b] H;
    try discriminate; eauto.
Qed.

Lemma is_speech_playback : forall type k,
  is_speech type k = true -> is_playback type k = true.
Proof.
  intros [|] [t|wd df|text [|]|[|] decoding|ws|qs|qs b] H;
    try discriminate; reflexivity.
Qed.

Lemma in_flight_le_playbacks : forall type w,
  in_flight type w <= playbacks type w.
Proof.
  intros type w. unfold in_flight, playbacks.
  induction (pending w) as [|k l IH]; simpl; [apply Nat.le_refl|].
  destruct (is_speech type k) eqn:E.
  - rewrite (is_speech_playback _ _ E). simpl. lia.
  - destruct (is_playback type k); simpl; lia.
Qed.

Lemma loading_with_loading : forall type v st,
  loading type (with_loading type v st) = v.
Proof. intros [|] v st; reflexivity. Qed.

Lemma handlePlayAudio_guarded : forall type text ty w,
  audio_guarded type w -> audio_guarded type (handlePlayAudio text ty w).
Proof.
  intros type text ty w Inv. unfold handlePlayAudio.
  destruct (loading ty (state w)) eqn:Hl; [exact Inv|].
  unfold audio_guarded, playbacks, andThen in *. simpl.
  destruct type, ty; simpl in *; try rewrite Hl in Inv; simpl; lia.
Qed.

(** Settling a suspended call of the phase: the call moves on to the
    decoding with the flag up, or it ends and clears the flag; no other
    call of the phase is left behind. *)
Lemma playback_settled_guarded : forall dec type k o act i w,
  nth_error (pending w) i = Some k ->
  is_playback type k = true ->
  continuation dec k o = Some act ->
  audio_guarded type w -> audio_guarded type ((resumed i ;; act) w).
Proof.
  intros dec type k o act i w Hk Hp Hc Inv.
  unfold audio_guarded, playbacks in *.
  rewrite (in_flight_remove_nth (is_playback type) _ _ Hk), Hp in Inv.
  assert (Hle : List.length
                  (filter (is_playback type) (remove_nth i (pending w))) = 0)
    by (destruct (loading type (state w)); lia).
  assert (Hl : loading type (state w) = true)
    by (destruct (loading type (state w)); [reflexivity | lia]).
  clear Inv.
  assert (Hrej : forall w0,
            pending w0 = remove_nth i (pending w) ->
            List.length
              (filter (is_playback type)
                 (pending (handlePlayAudio_rejected type w0)))
            <= (if loading type (state (handlePlayAudio_rejected type w0))
                then 1 else 0)).
  { intros w0 E. unfold handlePlayAudio_rejected, andThen. simpl.
    rewrite loading_with_loading, E, Hle. lia. }
  destruct (is_playback_type _ _ Hp) as [[text ->] | [decoding ->]];
    destruct o as [d|s| |]; simpl in Hc; try discriminate;
    injection Hc as <-; unfold andThen.
  - unfold handlePlayAudio_fulfilled.
    destruct (decodeBase64 dec s) as [audioBytes|];
      [destruct (newAudioContext dec (resumed i w))|];
      try (now apply Hrej).
    cbn [suspend resumed pending state filter].
    rewrite is_playback_same, Hl. cbn [List.length]. rewrite Hle. lia.
  - now apply Hrej.
  - unfold handlePlayAudio_decoded.
    destruct decoding as [audioBuffer|]; [|now apply Hrej].
    unfold andThen. simpl. rewrite loading_with_loading, Hle. lia.
Qed.

Lemma handle_audio_guarded : forall dec type e w w',
  handle dec e w = Some w' -> audio_guarded type w -> audio_guarded type w'.
Proof.
  intros dec type e w w' H Inv.
  destruct e as [q|v| |iw| |text ty| |fc|i o]; simpl in H.
  - injection H as <-. apply audio_guarded_leaves; auto with audio.
  - injection H as <-. apply audio_guarded_leaves; auto with audio.
  - injection H as <-. apply audio_guarded_leaves; auto with audio.
  - injection H as <-. apply audio_guarded_leaves; auto with audio.
  - injection H as <-. apply audio_guarded_leaves; trivial.
    apply leaves_audio_handleRegenerateImage.
  - injection H as <-. now apply handlePlayAudio_guarded.
  - injection H as <-. apply audio_guarded_leaves; trivial.
    apply leaves_audio_handleGenerateStory.
  - injection H as <-. apply audio_guarded_leaves; trivial.
    apply leaves_audio_handleImageUpload.
  - destruct (nth_error (pending w) i) as [k|] eqn:Hk; [|discriminate].
    destruct (continuation dec k o) as [act|] eqn:Hc; [|discriminate].
    injection H as <-.
    destruct (is_playback type k) eqn:Hs.
    + eapply playback_settled_guarded; eauto.
    + unfold andThen. apply audio_guarded_leaves.
      * eapply leaves_audio_other_continuation; eauto.
      * unfold audio_guarded, playbacks, resumed in *. simpl.
        rewrite (in_flight_remove_nth (is_playback type) _ _ Hk), Hs in Inv.
        exact Inv.
Qed.

Lemma runs_audio_guarded : forall dec type w es w',
  runs dec w es w' -> audio_guarded type w -> audio_guarded type w'.
Proof.
  intros dec type w es w' R. induction R as [w|w es w1 e w2 R IH H].
  - trivial.
  - intros Inv. eapply handle_audio_guarded; eauto.
Qed.

Lemma reachable_audio_guarded : forall dec type w,
  reachable dec w -> audio_guarded type w.
Proof.
  intros dec type w (clk & h & es & R).
  apply (runs_audio_guarded (type:=type) R).
  unfold audio_guarded, playbacks. simpl. lia.
Qed.

Lemma runs_story_bounded : forall dec w es w',
  runs dec w es w' ->
  Forall story_bounded (requests w) -> Forall story_bounded (requests w').
Proof.
  intros dec w es w' R. induction R as [w|w es w1 e w2 R IH H].
  - trivial.
  - intros Inv. eapply handle_story_bounded; eauto.
Qed.

Lemma reachable_story_bounded : forall dec w,
  reachable dec w -> Forall story_bounded (requests w).
Proof.
  intros dec w (clk & h & es & R).
  apply (runs_story_bounded R). constructor.
Qed.

Lemma reachable_start : forall dec clock h,
  reachable dec (start_world clock h).
Proof. intros dec clk h. exists clk, h, []. constructor. Qed.

Lemma reachable_step : forall dec w e w',
  reachable dec w -> handle dec e w = Some w' -> reachable dec w'.
Proof.
  intros dec w e w' (clk & h & es & R) H.
  exists clk, h, (es ++ [e]). econstructor; eauto.
Qed.

(** C8.  In every world the component can reach: while the loading flag
    of an audio phase is up, [handlePlayAudio] for that phase returns the
    world as it is (no request, no state change), and at most one speech
    request of the phase is in flight. *)
Theorem audio_retrigger_guard :
  forall dec type w,
    reachable dec w ->
    (loading type (state w) = true ->
       forall text, handlePlayAudio text type w = w) /\
    in_flight type w <= 1.
Proof.
  intros dec type w R. split.
  - intros Hl text. unfold handlePlayAudio. now rewrite Hl.
  - pose proof (reachable_audio_guarded type R) as Inv.
    pose proof (in_flight_le_playbacks type w) as Hle.
    unfold audio_guarded in Inv.
    destruct (loading type (state w)); lia.
Qed.

Lemma audio_retrigger_guard_witness :
  let w := handlePlayAudio [29483%N] AudioWord (start_world sample_clock []) in
  loading AudioWord (state w) = true /\
  handlePlayAudio [29483%N] AudioWord w = w /\
  in_flight AudioWord w <= 1.
Proof.
  intros w.
  assert (R : reachable no_decoder w).
  { apply (@reachable_step no_decoder (start_world sample_clock [])
             (click_play [29483%N] AudioWord) w).
    - apply reachable_start.
    - reflexivity. }
  destruct (audio_retrigger_guard AudioWord R) as [Hnoop Hle].
  split; [reflexivity|]. split; [apply Hnoop; reflexivity | exact Hle].
Defined.

(** C9.  In every world the component can reach, every story request
    issued so far carried at most ten history items, and triggering the
    story phase either does nothing (empty history, or a story already
    being generated) or issues one request with exactly the first ten
    items of the newest-first history (all of them when there are fewer). *)
Theorem story_receives_at_most_ten :
  forall dec w,
    reachable dec w ->
    Forall story_bounded (requests w) /\
    (handleGenerateStory w = w \/
     requests (handleGenerateStory w)
       = generateDailyStory (firstn 10 (DictionaryState.history (state w)))
         :: requests w) /\
    List.length (firstn 10 (DictionaryState.history (state w))) <= 10 /\
    (exists older,
       DictionaryState.history (state w)
       = firstn 10 (DictionaryState.history (state w)) ++ older).
Proof.
  intros dec w R. split; [exact (reachable_story_bounded R)|]. split.
  - unfold handleGenerateStory.
    destruct (DictionaryState.history (state w)) as [|x h] eqn:Hh;
      [now left|].
    destruct (DictionaryState.isGeneratingStory (state w)); [now left|].
    right. reflexivity.
  - split; [apply firstn_le_length|].
    exists (skipn 10 (DictionaryState.history (state w))).
    symmetry. apply firstn_skipn.
Qed.

Lemma story_receives_at_most_ten_witness :
  requests
    (handleGenerateStory
       (start_world sample_clock (repeat (newItem 1 2 neko) 12)))
  = [generateDailyStory (repeat (newItem 1 2 neko) 10)].
Proof.
  destruct (story_receives_at_most_ten
              (reachable_start no_decoder sample_clock
                 (repeat (newItem 1 2 neko) 12))) as [_ [[H|H] _]].
  - discriminate H.
  - exact H.
Defined.

(** C10.  When the search term ([overrideQuery || query]) is empty or
    holds only white space, [handleSearch] returns the world as it is: no
    request, no flag, no change to history or error. *)
Theorem blank_search_is_noop :
  forall query_seen overrideQuery w,
    forallb is_white_space (searchTerm query_seen overrideQuery) = true ->
    handleSearch query_seen overrideQuery w = w.
Proof.
  intros q o w H. unfold handleSearch. now rewrite (trim_white _ H).
Qed.

Lemma blank_search_is_noop_witness :
  forallb is_white_space
    (searchTerm [] (Some [32; 12288; 9]%N)) = true /\
  handleSearch [] (Some [32; 12288; 9]%N) (initial_world sample_clock)
  = initial_world sample_clock.
Proof.
  split; [reflexivity|].
  apply (blank_search_is_noop [] (Some [32; 12288; 9]%N)
           (initial_world sample_clock)).
  reflexivity.
Defined.

(** C6, as amended.  When the story call fails, the [catch] block clears
    the generating flag and sets the error message of the state to
    "Failed to generate story."; nothing is written to the console and no
    request is issued. *)
Theorem story_failure_sets_error :
  forall dec w i words,
    nth_error (pending w) i = Some (awaiting_story words) ->
    exists w',
      handle dec (settled i rejected) w = Some w' /\
      DictionaryState.isGeneratingStory (state w') = false /\
      DictionaryState.error (state w')
        = Some (lit "Failed to generate story.") /\
      DictionaryState.dailyStory (state w')
        = DictionaryState.dailyStory (state w) /\
      console w' = console w /\
      requests w' = requests w.
Proof.
  intros dec w i words Hk. eexists. split.
  - simpl. rewrite Hk. simpl. reflexivity.
  - repeat split.
Qed.

Lemma story_failure_sets_error_witness :
  nth_error (pending story_pending) 0
    = Some (awaiting_story [newItem 1 2 neko]) /\
  exists w',
    handle no_decoder (settled 0 rejected) story_pending = Some w' /\
    DictionaryState.isGeneratingStory (state w') = false.
Proof.
  split; [reflexivity|].
  destruct (@story_failure_sets_error no_decoder story_pending 0
              [newItem 1 2 neko] eq_refl) as [w' [H [Hg _]]].
  exists w'. split; assumption.
Defined.

(** C6, as stated, fails: after a failed story call the state carries an
    error message that was not there before, and the console is empty. *)
Lemma story_failure_counterexample :
  exists w',
    handle no_decoder (settled 0 rejected) story_pending = Some w' /\
    DictionaryState.error (state story_pending) = None /\
    DictionaryState.error (state w')
      = Some (lit "Failed to generate story.") /\
    console w' = [].
Proof.
  eexists. split; [reflexivity|]. repeat split.
Qed.

(** ** The image phase follows the text phase *)

Lemma text_succeeded_later : forall d es e,
  text_succeeded d es -> text_succeeded d (es ++ [e]).
Proof.
  intros d es e [i H]. exists i. apply in_or_app. now left.
Qed.

Lemma text_succeeded_now : forall d es i,
  text_succeeded d (es ++ [settled i (fulfilled_definition d)]).
Proof.
  intros d es i. exists i. apply in_or_app. right. now left.
Qed.

Lemma image_request_justified_later : forall es e r,
  image_request_justified es r -> image_request_justified (es ++ [e]) r.
Proof.
  intros es e [q|wd df|t|ws|b] H; simpl in *; trivial.
  destruct H as (d & Hd & Hw & Hf). exists d.
  auto using text_succeeded_later.
Qed.

Lemma images_follow_text_later : forall es e w,
  images_follow_text es w ->
  Forall (image_request_justified (es ++ [e])) (requests w) /\
  (forall d, DictionaryState.data (state w) = Some d ->
             text_succeeded d (es ++ [e])).
Proof.
  intros es e w [H1 H2]. split.
  - eapply Forall_impl; [|exact H1].
    intros r. apply image_request_justified_later.
  - intros d Hd. apply text_succeeded_later. auto.
Qed.

Ltac justified :=
  simpl;
  repeat (apply Forall_cons; [first [exact I | simpl; eauto]|]);
  try assumption.

Lemma data_addToHistory_updater : forall a b r st,
  DictionaryState.data (addToHistory_updater a b r st)
  = DictionaryState.data st.
Proof.
  intros a b r st. unfold addToHistory_updater.
  destruct (has_word _ _); reflexivity.
Qed.

Lemma data_with_loading : forall type v st,
  DictionaryState.data (with_loading type v st) = DictionaryState.data st.
Proof. intros [|] v st; reflexivity. Qed.

Lemma handle_images_follow_text : forall dec es e w w',
  handle dec e w = Some w' ->
  images_follow_text es w -> images_follow_text (es ++ [e]) w'.
Proof.
  intros dec es e w w' H Inv.
  destruct (images_follow_text_later e Inv) as [H1 H2]. clear Inv.
  unfold images_follow_text.
  destruct e as [q|v| |iw| |text ty| |fc|i o]; simpl in H.
  1-8: injection H as <-; unfold_handlers; split_cases; simpl;
       rewrite ?data_with_loading;
       (split; [justified
               | first [exact H2 | intros d0 Hd0; discriminate
                       | intros d0 Hd0; apply H2; congruence]]).
  destruct (nth_error (pending w) i) as [k|] eqn:Hk; [|discriminate].
  destruct k as [t|wd df|text ty|ty decoding|ws| |b], o as [d|s| |];
    simpl in H;
    try discriminate; injection H as <-;
    unfold_handlers; split_cases; simpl;
    rewrite ?data_addToHistory_updater, ?data_with_loading; simpl;
    (split; [justified
            | try first [exact H2 | intros d0 Hd0; discriminate
                        | intros d0 Hd0; apply H2; congruence]]).
  all: try (exists d; split; [apply text_succeeded_now | auto]).
  all: intros d0 Hd0; injection Hd0 as <-; apply text_succeeded_now.
Qed.

Lemma runs_images_follow_text : forall dec w es w',
  runs dec w es w' ->
  images_follow_text [] w -> images_follow_text es w'.
Proof.
  intros dec w es w' R. induction R as [w|w es w1 e w2 R IH H].
  - trivial.
  - intros Inv. eapply handle_images_follow_text; eauto.
Qed.

Lemma addToHistory_world : forall d w,
  state (addToHistory d w)
    = addToHistory_updater (clock w (ticks w)) (clock w (S (ticks w))) d
        (state w) /\
  requests (addToHistory d w) = requests w /\
  pending (addToHistory d w) = pending w.
Proof.
  intros d w. unfold addToHistory, andThen.
  destruct (negb _); repeat split.
Qed.

Lemma history_addToHistory_updater_frame : forall a b d st st',
  DictionaryState.history st' = DictionaryState.history st ->
  DictionaryState.history (addToHistory_updater a b d st')
  = DictionaryState.history (addToHistory_updater a b d st).
Proof.
  intros a b d st st' E. unfold addToHistory_updater. rewrite E.
  destruct (has_word _ _); [exact E | reflexivity].
Qed.

(** C7, as amended.  In every world the component reaches by the events
    [es]: starting a lookup with a term that is not blank issues the
    definition request and no other; when the definition call of a lookup
    in flight fails, the error message of the state is set and no request
    is issued; when it succeeds with [d], [d] goes through [addToHistory],
    which puts a new item made from [d] in front of the history when no
    entry has the word of [d] and leaves the history as it is when one
    has, and the image request for [d] is issued at once; and every image
    request issued so far carries the word and definition of a result that
    a successful definition call delivered. *)
Theorem image_only_after_text_success :
  forall dec clk h es w,
    runs dec (start_world clk h) es w ->
    (forall o,
       truthy (trim (searchTerm (query w) o)) = true ->
       requests (handleSearch (query w) o w)
         = fetchDictionaryDefinition (searchTerm (query w) o)
           :: requests w) /\
    (forall i term,
       nth_error (pending w) i = Some (awaiting_definition term) ->
       (exists w',
          handle dec (settled i rejected) w = Some w' /\
          DictionaryState.error (state w')
            = Some (lit "Failed to find the word. Please try again.") /\
          requests w' = requests w /\
          pending w' = remove_nth i (pending w)) /\
       (forall d, exists w',
          handle dec (settled i (fulfilled_definition d)) w = Some w' /\
          (inserted d (state w) = true ->
           DictionaryState.history (state w')
             = newItem (clock w (ticks w)) (clock w (S (ticks w))) d
               :: DictionaryState.history (state w)) /\
          (inserted d (state w) = false ->
           DictionaryState.history (state w')
             = DictionaryState.history (state w)) /\
          requests w'
            = generateWordImage (DictionaryResult.word d)
                (DictionaryResult.definition_cn d) :: requests w /\
          pending w'
            = awaiting_image (DictionaryResult.word d)
                (DictionaryResult.definition_cn d)
              :: remove_nth i (pending w))) /\
    Forall (image_request_justified es) (requests w).
Proof.
  intros dec clk h es w R. split; [|split].
  - intros o Ht. unfold handleSearch. rewrite Ht. reflexivity.
  - intros i term Hk. split.
    + eexists. split; [simpl; rewrite Hk; reflexivity|]. repeat split.
    + intros d. eexists. split; [simpl; rewrite Hk; reflexivity|].
      unfold handleSearch_fulfilled, generateImage, andThen, await.
      simpl.
      match goal with
      | |- context [addToHistory d ?w0] =>
          destruct (addToHistory_world d w0) as (Hs & Hr & Hp);
          assert (Hh : DictionaryState.history (state (addToHistory d w0))
                       = DictionaryState.history
                           (addToHistory_updater (clock w (ticks w))
                              (clock w (S (ticks w))) d (state w)))
            by (rewrite Hs; now apply history_addToHistory_updater_frame)
      end.
      rewrite Hh, Hr, Hp. simpl.
      split; [|split; [|split; reflexivity]]; intros Hi.
      * now apply addToHistory_updater_absent.
      * now rewrite addToHistory_updater_present.
  - refine (proj1 (runs_images_follow_text R _)).
    split; [constructor | discriminate].
Qed.

Lemma image_only_after_text_success_witness :
  exists w',
    handle no_decoder (settled 0 (fulfilled_definition neko)) lookup_pending
      = Some w' /\
    DictionaryState.history (state w')
      = [newItem (sample_clock 0) (sample_clock 1) neko] /\
    requests w'
      = [generateWordImage (DictionaryResult.word neko)
           (DictionaryResult.definition_cn neko);
         fetchDictionaryDefinition [29483%N]].
Proof.
  assert (R : runs no_decoder (start_world sample_clock [])
                ([] ++ [click_view_details [29483%N]])
                ((setQuery [29483%N] ;; setView SEARCH) lookup_pending)).
  { apply runs_snoc with (w1 := start_world sample_clock []).
    - apply runs_nil.
    - reflexivity. }
  destruct (image_only_after_text_success R) as [_ [H _]].
  destruct (H 0 [29483%N] eq_refl) as [_ Hok].
  destruct (Hok neko) as [w' [Hh [Hi [_ [Hr _]]]]].
  exists w'. split; [exact Hh|]. split; [exact (Hi eq_refl) | exact Hr].
Defined.

(** C7, as stated, fails for the lookup of a word the history already
    holds, which is what the lookup started from an entry of the wordbook
    is: the text phase succeeds and the image request is issued, but the
    result is not appended; the history is the one entry it was, and no
    item made from the result is in it. *)
Lemma image_only_after_text_success_counterexample :
  exists w w',
    handle no_decoder (click_view_details [29483%N])
      (start_world sample_clock [newItem 1 2 neko]) = Some w /\
    handle no_decoder (settled 0 (fulfilled_definition neko_again)) w
      = Some w' /\
    requests w'
      = [generateWordImage (DictionaryResult.word neko_again)
           (DictionaryResult.definition_cn neko_again);
         fetchDictionaryDefinition [29483%N]] /\
    DictionaryState.history (state w') = [newItem 1 2 neko] /\
    forall a b,
      ~ In (newItem a b neko_again) (DictionaryState.history (state w')).
Proof.
  eexists. eexists. split; [reflexivity|]. split; [reflexivity|].
  split; [reflexivity|]. split; [reflexivity|].
  intros a b [H | []]. discriminate H.
Qed.

(* ================================================================== *)
(** * Audio decoding *)
(* ================================================================== *)

Module AudioFacts.
Import AudioDecoder.

Lemma int16_le_range : forall lo hi, is_int16 (int16_le lo hi).
Proof.
  intros lo hi. unfold is_int16, int16_le.
  pose proof (Byte.to_N_bounded lo). pose proof (Byte.to_N_bounded hi).
  destruct (Z.ltb_spec
              (Z.of_N (Byte.to_N lo) + 256 * Z.of_N (Byte.to_N hi)) 32768);
    lia.
Qed.

Lemma to_N_byte_of_Z : forall z,
  Z.of_N (Byte.to_N (byte_of_Z z)) = (z mod 256)%Z.
Proof.
  intros z. unfold byte_of_Z.
  pose proof (Z.mod_pos_bound z 256 ltac:(lia)) as Hb.
  destruct (Byte.of_N (Z.to_N (z mod 256))) as [b|] eqn:E.
  - apply Byte.to_of_N in E. rewrite E. lia.
  - apply Byte.of_N_None_iff in E. lia.
Qed.

Lemma int16_le_encode : forall s,
  is_int16 s -> int16_le (byte_of_Z s) (byte_of_Z (s / 256)) = s.
Proof.
  intros s [Hlo Hhi]. unfold int16_le. rewrite !to_N_byte_of_Z.
  pose proof (Z.div_mod s 256 ltac:(lia)) as E1.
  pose proof (Z.mod_pos_bound s 256 ltac:(lia)) as B1.
  pose proof (Z.div_mod (s / 256) 256 ltac:(lia)) as E2.
  pose proof (Z.mod_pos_bound (s / 256) 256 ltac:(lia)) as B2.
  destruct (Z.ltb_spec (s mod 256 + 256 * ((s / 256) mod 256)) 32768);
    lia.
Qed.

Lemma samples_encode : forall l,
  Forall is_int16 l -> samples (encode l) = Some l.
Proof.
  induction 1 as [|s l Hs Hl IH]; [reflexivity|].
  unfold encode in *. simpl. rewrite IH. now rewrite (int16_le_encode Hs).
Qed.

(** An even number of bytes decodes, pair by pair. *)
Lemma samples_even : forall n bytes,
  List.length bytes = 2 * n ->
  exists l,
    samples bytes = Some l /\
    List.length l = n /\
    (forall i lo hi,
       nth_error bytes (2 * i) = Some lo ->
       nth_error bytes (2 * i + 1) = Some hi ->
       nth_error l i = Some (int16_le lo hi)).
Proof.
  induction n as [|n IH]; intros bytes Hlen.
  - destruct bytes; [|discriminate]. exists []. repeat split.
    intros [|i] lo hi H; discriminate.
  - destruct bytes as [|b0 [|b1 rest]]; simpl in Hlen; try lia.
    destruct (IH rest ltac:(lia)) as (l & Hs & Hn & Hi).
    exists (int16_le b0 b1 :: l).
    split; [simpl; now rewrite Hs|]. split; [simpl; now rewrite Hn|].
    intros [|i] lo hi H0 H1.
    + simpl in H0, H1. simpl. congruence.
    + replace (2 * S i) with (S (S (2 * i))) in H0 by lia.
      replace (2 * S i + 1) with (S (S (2 * i + 1))) in H1 by lia.
      apply (Hi i lo hi H0 H1).
Qed.

(** An odd number of bytes leaves a dangling byte. *)
Lemma samples_odd : forall n bytes,
  List.length bytes = 2 * n + 1 -> samples bytes = None.
Proof.
  induction n as [|n IH]; intros bytes Hlen.
  - destruct bytes as [|b0 [|b1 rest]]; simpl in Hlen; try lia.
    reflexivity.
  - destruct bytes as [|b0 [|b1 rest]]; simpl in Hlen; try lia.
    simpl. now rewrite (IH rest ltac:(lia)).
Qed.

Lemma normalize_range : forall s,
  is_int16 s -> (-1 <= normalize s)%Q /\ (normalize s < 1)%Q.
Proof.
  intros s [Hlo Hhi]. unfold normalize, Qle, Qlt. simpl. lia.
Qed.

End AudioFacts.

(** C5.  For a byte sequence of even length N, [decodeAudioData] returns a
    single-channel buffer at the given rate with N/2 samples, the i-th one
    being the signed 16-bit little-endian value of bytes 2i and 2i+1
    divided by 32768, a value in [-1, 1); in particular the decoding of
    encoded samples gives back each sample divided by 32768.  For a byte
    sequence of odd length it returns the format error. *)
Theorem decodeAudioData_pcm16 :
  forall bytes rate,
    (Nat.even (List.length bytes) = true ->
     exists l,
       AudioDecoder.decodeAudioData bytes rate
         = AudioDecoder.decoded
             (AudioDecoder.mkBuffer rate 1 (map AudioDecoder.normalize l)) /\
       List.length bytes = 2 * List.length l /\
       (forall i lo hi,
          nth_error bytes (2 * i) = Some lo ->
          nth_error bytes (2 * i + 1) = Some hi ->
          nth_error (map AudioDecoder.normalize l) i
            = Some (AudioDecoder.normalize (AudioDecoder.int16_le lo hi)) /\
          (-1 <= AudioDecoder.normalize (AudioDecoder.int16_le lo hi))%Q /\
          (AudioDecoder.normalize (AudioDecoder.int16_le lo hi) < 1)%Q)) /\
    (Nat.even (List.length bytes) = false ->
     AudioDecoder.decodeAudioData bytes rate = AudioDecoder.format_error) /\
    (forall l,
       Forall AudioDecoder.is_int16 l ->
       AudioDecoder.decodeAudioData (AudioDecoder.encode l) rate
         = AudioDecoder.decoded
             (AudioDecoder.mkBuffer rate 1 (map AudioDecoder.normalize l))).
Proof.
  intros bytes rate. split; [|split].
  - intros He. apply Nat.even_spec in He as [n Hn].
    destruct (AudioFacts.samples_even n bytes Hn) as (l & Hs & Hl & Hi).
    exists l. unfold AudioDecoder.decodeAudioData. rewrite Hs.
    split; [reflexivity|]. split; [lia|].
    intros i lo hi H0 H1. split.
    + rewrite nth_error_map, (Hi i lo hi H0 H1). reflexivity.
    + apply AudioFacts.normalize_range, AudioFacts.int16_le_range.
  - intros Ho. assert (Nat.odd (List.length bytes) = true) as H
      by (rewrite <- Nat.negb_even, Ho; reflexivity).
    apply Nat.odd_spec in H as [n Hn].
    unfold AudioDecoder.decodeAudioData.
    now rewrite (AudioFacts.samples_odd n bytes Hn).
  - intros l Hl. unfold AudioDecoder.decodeAudioData.
    now rewrite (AudioFacts.samples_encode Hl).
Qed.

Lemma decodeAudioData_pcm16_witness :
  AudioDecoder.decodeAudioData
    [Byte.x00; Byte.x80; Byte.xff; Byte.x7f; Byte.x00; Byte.x40] 24000
    = AudioDecoder.decoded
        (AudioDecoder.mkBuffer 24000 1
           [Qmake (-32768) 32768; Qmake 32767 32768; Qmake 16384 32768]) /\
  AudioDecoder.decodeAudioData [Byte.x00; Byte.x80; Byte.xff] 24000
    = AudioDecoder.format_error.
Proof.
  split.
  - destruct (decodeAudioData_pcm16
                [Byte.x00; Byte.x80; Byte.xff; Byte.x7f; Byte.x00; Byte.x40]
                24000) as [_ [_ H]].
    apply (H [-32768; 32767; 16384]%Z).
    repeat constructor; unfold AudioDecoder.is_int16; lia.
  - destruct (decodeAudioData_pcm16 [Byte.x00; Byte.x80; Byte.xff] 24000)
      as [_ [H _]].
    apply H. reflexivity.
Defined.

(* ================================================================== *)
(** * Loading the history *)
(* ================================================================== *)

Lemma is_history_history_value : forall h, is_history (history_value h) = true.
Proof.
  induction h as [|x h IH]; [reflexivity|].
  simpl in *. exact IH.
Qed.

(** C4, as amended.  When the history key is absent, or the stored string
    is not valid JSON (the empty string included), the mount effect leaves
    the history the empty array and nothing escapes it: the parse failure
    is caught and logged.  A stored string that is valid JSON is adopted
    as the history as it is, without any check against the
    WordHistoryItem interface. *)
Theorem load_tolerates_malformed_json :
  forall ls,
    (match getItem ls (lit "lyb_history") with
     | None => True
     | Some savedHistory => JSON_parse savedHistory = None
     end ->
     exists console,
       loadHistoryEffect ls = kept_empty console /\
       loaded_history (loadHistoryEffect ls) = history_value []) /\
    (forall savedHistory parsed,
       getItem ls (lit "lyb_history") = Some savedHistory ->
       JSON_parse savedHistory = Some parsed ->
       loadHistoryEffect ls = adopted parsed /\
       loaded_history (loadHistoryEffect ls) = parsed).
Proof.
  intros ls. unfold loadHistoryEffect. split.
  - destruct (getItem ls (lit "lyb_history")) as [s|]; intros H.
    + rewrite H. destruct (truthy s); eexists; split; reflexivity.
    + eexists; split; reflexivity.
  - intros s v Hs Hv. rewrite Hs, Hv.
    destruct s as [|c s]; [discriminate Hv|]. simpl. split; reflexivity.
Qed.

Lemma load_tolerates_malformed_json_witness :
  JSON_parse (lit "[{oops") = None /\
  loadHistoryEffect malformed_store
    = kept_empty ["Failed to load history"%string] /\
  loaded_history (loadHistoryEffect malformed_store) = history_value [].
Proof.
  split; [reflexivity|].
  destruct (load_tolerates_malformed_json malformed_store) as [H _].
  destruct (H eq_refl) as [console [H1 H2]].
  split; [reflexivity | exact H2].
Defined.

(** C4, as stated, fails on a stored string that is valid JSON but no
    sequence of WordHistoryItem: the effect adopts the parsed value, which
    is not the empty sequence. *)
Lemma load_schema_invalid_counterexample :
  JSON_parse (lit "[1]") = Some (JArr [JNum (inject_Z 1)]) /\
  is_history (JArr [JNum (inject_Z 1)]) = false /\
  loadHistoryEffect schema_invalid_store
    = adopted (JArr [JNum (inject_Z 1)]) /\
  loaded_history (loadHistoryEffect schema_invalid_store) <> history_value [].
Proof.
  repeat split. vm_compute. discriminate.
Qed.

(* ================================================================== *)
(** * JSON.parse after JSON.stringify *)
(* ================================================================== *)

Module JSONFacts.
Import JSONParse.

Lemma run_app : forall a b st,
  run (a ++ b) st
  = match run a st with Some st' => run b st' | None => None end.
Proof.
  induction a as [|c a IH]; intros b st; simpl; [reflexivity|].
  destruct (step st c); [apply IH | reflexivity].
Qed.

Lemma run_cons : forall c s st,
  run (c :: s) st
  = match step st c with Some st' => run s st' | None => None end.
Proof. reflexivity. Qed.

(** ** Strings *)

Lemma hex_value_hex_digit : forall d,
  (d < 16)%N -> hex_value (hex_digit d) = Some d.
Proof.
  intros d Hd. unfold hex_value, hex_digit, is_digit.
  destruct (N.ltb_spec d 10).
  - replace ((48 <=? 48 + d) && (48 + d <=? 57))%N with true
      by (symmetry; apply andb_true_iff; split; apply N.leb_le; lia).
    f_equal. lia.
  - replace ((48 <=? 87 + d) && (87 + d <=? 57))%N with false
      by (symmetry; apply andb_false_iff; right; apply N.leb_gt; lia).
    replace ((97 <=? 87 + d) && (87 + d <=? 102))%N with true
      by (symmetry; apply andb_true_iff; split; apply N.leb_le; lia).
    f_equal. lia.
Qed.

Ltac euclid := zify; Z.to_euclidean_division_equations; lia.

Lemma step_MHex : forall key acc n v stk c d,
  hex_value c = Some d ->
  step (MHex key acc n v, stk) c
  = Some (match n with
          | 3%nat => MStr key ((v * 16 + d)%N :: acc)
          | _ => MHex key acc (S n) (v * 16 + d)%N
          end, stk).
Proof.
  intros key acc n v stk c d H. simpl. rewrite H.
  destruct n as [|[|[|[|n]]]]; reflexivity.
Qed.

Lemma run_UnicodeEscape : forall c rest key acc stk,
  (c < 65536)%N ->
  run (UnicodeEscape c ++ rest) (MStr key acc, stk)
  = run rest (MStr key (c :: acc), stk).
Proof.
  intros c rest key acc stk Hc. unfold UnicodeEscape.
  assert (H3 : (c / 4096 < 16)%N) by euclid.
  assert (H2 : ((c / 256) mod 16 < 16)%N) by euclid.
  assert (H1 : ((c / 16) mod 16 < 16)%N) by euclid.
  assert (H0 : (c mod 16 < 16)%N) by euclid.
  cbn [app].
  rewrite run_cons.
  change (step (MStr key acc, stk) 92%N) with (Some (MEsc key acc, stk)).
  cbv beta iota. rewrite run_cons.
  change (step (MEsc key acc, stk) 117%N)
    with (Some (MHex key acc 0 0%N, stk)).
  cbv beta iota.
  rewrite run_cons, (@step_MHex _ _ _ _ _ _ _ (hex_value_hex_digit H3)).
  rewrite run_cons, (@step_MHex _ _ _ _ _ _ _ (hex_value_hex_digit H2)).
  rewrite run_cons, (@step_MHex _ _ _ _ _ _ _ (hex_value_hex_digit H1)).
  rewrite run_cons, (@step_MHex _ _ _ _ _ _ _ (hex_value_hex_digit H0)).
  replace ((((0 * 16 + c / 4096) * 16 + (c / 256) mod 16) * 16
            + (c / 16) mod 16) * 16 + c mod 16)%N with c
    by euclid.
  reflexivity.
Qed.

Lemma step_MStr_raw : forall c key acc stk,
  (c =? 34)%N = false -> (c =? 92)%N = false -> (c <? 32)%N = false ->
  step (MStr key acc, stk) c = Some (MStr key (c :: acc), stk).
Proof. intros c key acc stk H1 H2 H3. simpl. now rewrite H1, H2, H3. Qed.

Lemma run_quote_code_unit : forall c rest key acc stk,
  run (quote_code_unit c ++ rest) (MStr key acc, stk)
  = run rest (MStr key (c :: acc), stk).
Proof.
  intros c rest key acc stk. unfold quote_code_unit.
  repeat match goal with
         | |- context [(c =? ?n)%N] =>
             destruct (N.eqb_spec c n); [subst c; reflexivity|]
         end.
  destruct (N.ltb_spec c 32).
  - apply run_UnicodeEscape. lia.
  - cbn [app]. rewrite run_cons, step_MStr_raw; trivial.
    + now apply N.eqb_neq.
    + now apply N.eqb_neq.
    + now apply N.ltb_ge.
Qed.

Lemma surrogate_raw : forall c key acc stk,
  (55296 <= c)%N ->
  step (MStr key acc, stk) c = Some (MStr key (c :: acc), stk).
Proof.
  intros c key acc stk Hc. apply step_MStr_raw.
  - apply N.eqb_neq. lia.
  - apply N.eqb_neq. lia.
  - apply N.ltb_ge. lia.
Qed.

Lemma high_surrogate_range : forall c,
  is_high_surrogate c = true -> (55296 <= c <= 56319)%N.
Proof.
  intros c H. unfold is_high_surrogate in H.
  apply andb_true_iff in H as [H1 H2].
  apply N.leb_le in H1, H2. lia.
Qed.

Lemma low_surrogate_range : forall c,
  is_low_surrogate c = true -> (56320 <= c <= 57343)%N.
Proof.
  intros c H. unfold is_low_surrogate in H.
  apply andb_true_iff in H as [H1 H2].
  apply N.leb_le in H1, H2. lia.
Qed.

(** The units between the quotes are read back one code point at a
    time. *)
Lemma run_quote_body_bounded : forall n s,
  List.length s <= n ->
  forall rest key acc stk,
    run (quote_body s ++ rest) (MStr key acc, stk)
    = run rest (MStr key (rev s ++ acc), stk).
Proof.
  induction n as [|n IH]; intros s Hn rest key acc stk.
  - destruct s; [reflexivity | simpl in Hn; lia].
  - destruct s as [|c s]; [reflexivity|].
    simpl in Hn. cbn [quote_body rev].
    rewrite <- app_assoc. cbn [app].
    destruct (is_high_surrogate c) eqn:Hh.
    + apply high_surrogate_range in Hh.
      destruct s as [|d s].
      * rewrite run_UnicodeEscape by lia. reflexivity.
      * destruct (is_low_surrogate d) eqn:Hl.
        -- apply low_surrogate_range in Hl.
           cbn [app rev]. rewrite run_cons, surrogate_raw by lia.
           rewrite run_cons, surrogate_raw by lia.
           rewrite IH by (simpl in Hn; lia).
           now rewrite <- !app_assoc.
        -- rewrite <- app_assoc, run_UnicodeEscape by lia.
           now rewrite IH by lia.
    + destruct (is_low_surrogate c) eqn:Hl.
      * apply low_surrogate_range in Hl.
        rewrite <- app_assoc, run_UnicodeEscape by lia.
        now rewrite IH by lia.
      * rewrite <- app_assoc, run_quote_code_unit.
        now rewrite IH by lia.
Qed.

Lemma run_quote_body : forall s rest key acc stk,
  run (quote_body s ++ rest) (MStr key acc, stk)
  = run rest (MStr key (rev s ++ acc), stk).
Proof.
  intros s. apply (run_quote_body_bounded (n := List.length s)). lia.
Qed.

(** A quoted string where a value is expected. *)
Lemma run_QuoteJSONString_value : forall s rest stk,
  run (QuoteJSONString s ++ rest) (MValue, stk)
  = run rest (deliver (JStr s) stk).
Proof.
  intros s rest stk. unfold QuoteJSONString.
  cbn [app]. rewrite run_cons.
  change (step (MValue, stk) 34%N) with (Some (MStr false [], stk)).
  cbv beta iota. rewrite <- app_assoc, run_quote_body.
  cbn [app]. rewrite run_cons.
  change (step (MStr false (rev s ++ []), stk) 34%N)
    with (Some (deliver (JStr (rev (rev s ++ []))) stk)).
  cbv beta iota. now rewrite app_nil_r, rev_involutive.
Qed.

(** A quoted string where a key is expected. *)
Lemma run_QuoteJSONString_key : forall m s rest members key stk,
  m = MObjStart \/ m = MKey ->
  run (QuoteJSONString s ++ rest) (m, FObj members key :: stk)
  = run rest (MColon, FObj members s :: stk).
Proof.
  intros m s rest members key stk Hm. unfold QuoteJSONString.
  cbn [app]. rewrite run_cons.
  replace (step (m, FObj members key :: stk) 34%N)
    with (Some (MStr true [], FObj members key :: stk))
    by (destruct Hm; subst m; reflexivity).
  cbv beta iota. rewrite <- app_assoc, run_quote_body.
  cbn [app]. rewrite run_cons.
  change (step (MStr true (rev s ++ []), FObj members key :: stk) 34%N)
    with (Some (MColon, FObj members (rev (rev s ++ [])) :: stk)).
  cbv beta iota. now rewrite app_nil_r, rev_involutive.
Qed.

(** ** Numbers *)

Lemma of_uint_acc_value : forall d p,
  Npos (Pos.of_uint_acc d p) = uint_value (Npos p) d.
Proof.
  induction d; intros p; cbn [Pos.of_uint_acc uint_value];
    try reflexivity; rewrite IHd; f_equal; lia.
Qed.

Lemma of_uint_value : forall d, Pos.of_uint d = uint_value 0 d.
Proof.
  induction d; cbn [Pos.of_uint uint_value]; try reflexivity;
    try (rewrite of_uint_acc_value; f_equal; lia).
  exact IHd.
Qed.

Lemma uint_value_to_uint : forall p,
  uint_value 0 (Pos.to_uint p) = Npos p.
Proof.
  intros p. rewrite <- of_uint_value. apply DecimalPos.Unsigned.of_to.
Qed.

Lemma to_uint_starts_nonzero : forall p, starts_nonzero (Pos.to_uint p).
Proof.
  intros p.
  assert (Hn : Decimal.unorm (Pos.to_uint p) = Pos.to_uint p).
  { rewrite <- DecimalPos.Unsigned.to_of.
    now rewrite DecimalPos.Unsigned.of_to. }
  pose proof (DecimalPos.Unsigned.to_uint_nonzero p) as Hz.
  pose proof (DecimalPos.Unsigned.to_uint_nonnil p) as Hnil.
  destruct (Pos.to_uint p) as [|d| | | | | | | | | ]; simpl; trivial.
  - now apply Hnil.
  - rewrite DecimalFacts.unorm_D0 in Hn.
    destruct d as [|d| | | | | | | | | ];
      [now apply Hz| | | | | | | | | | ];
      match goal with
      | H : Decimal.unorm ?u = _ |- _ =>
          pose proof (@DecimalFacts.nb_digits_unorm u ltac:(discriminate))
            as Hle;
          rewrite H in Hle; simpl in Hle; lia
      end.
Qed.

Lemma run_digits : forall d rest a stk,
  run (uint_chars d ++ rest) (MNum NInt a, stk)
  = run rest
      (MNum NInt (mkNum (neg a) (uint_value (mant a) d) (scale a)
                        (eneg a) (expo a)), stk).
Proof.
  induction d; intros rest a stk; cbn [uint_chars app uint_value];
    try (rewrite run_cons;
         match goal with
         | |- context [step (MNum NInt a, stk) ?c] =>
             change (step (MNum NInt a, stk) c)
               with (Some (MNum NInt (add_digit a c), stk))
         end;
         cbv beta iota; rewrite IHd; reflexivity).
  destruct a; reflexivity.
Qed.

Lemma num_value_integer : forall sign n,
  num_value (mkNum sign n 0 false 0)
  = inject_Z (if sign then - Z.of_N n else Z.of_N n).
Proof.
  intros sign n. unfold num_value, inject_Z. cbn.
  now rewrite Z.mul_1_r.
Qed.

(** The digits of an integer where a value is expected: the machine is
    left inside the number, at a point where the number may end, holding
    the integer. *)
Lemma run_Number_toString : forall z rest stk,
  exists st a,
    (st = NZero \/ st = NInt) /\
    num_value a = inject_Z z /\
    run (Number_toString z ++ rest) (MValue, stk)
    = run rest (MNum st a, stk).
Proof.
  intros [|p|p] rest stk.
  - exists NZero, (mkNum false 0 0 false 0). repeat split. now left.
  - exists NInt, (mkNum false (Npos p) 0 false 0).
    split; [now right|]. split; [apply num_value_integer|].
    unfold Number_toString.
    pose proof (to_uint_starts_nonzero p) as Hs.
    pose proof (uint_value_to_uint p) as Hv.
    destruct (Pos.to_uint p); try contradiction;
      cbn [uint_chars app]; rewrite run_cons;
      match goal with
      | |- context [step (MValue, stk) ?c] =>
          change (step (MValue, stk) c)
            with (Some (MNum NInt (mkNum false (c - 48) 0 false 0), stk))
      end;
      cbv beta iota; rewrite run_digits;
      cbn [neg mant scale eneg expo];
      cbn [uint_value] in Hv; cbn in Hv |- *; rewrite Hv; reflexivity.
  - exists NInt, (mkNum true (Npos p) 0 false 0).
    split; [now right|]. split; [apply num_value_integer|].
    unfold Number_toString.
    pose proof (to_uint_starts_nonzero p) as Hs.
    pose proof (uint_value_to_uint p) as Hv.
    cbn [app]. rewrite run_cons.
    change (step (MValue, stk) 45%N)
      with (Some (MNum NMinus (mkNum true 0 0 false 0), stk)).
    cbv beta iota.
    destruct (Pos.to_uint p); try contradiction;
      cbn [uint_chars app]; rewrite run_cons;
      match goal with
      | |- context [step (MNum NMinus ?a, stk) ?c] =>
          change (step (MNum NMinus a, stk) c)
            with (Some (MNum NInt (add_digit a c), stk))
      end;
      cbv beta iota; rewrite run_digits;
      cbn [neg mant scale eneg expo add_digit];
      cbn [uint_value] in Hv; cbn in Hv |- *; rewrite Hv; reflexivity.
Qed.

(** The closing brace right after a number that is the value of the
    pending key. *)
Lemma step_number_close_object : forall st a members key stk,
  st = NZero \/ st = NInt ->
  step (MNum st a, FObj members key :: stk) 125%N
  = Some (deliver (JObj (obj_set key (JNum (num_value a)) members)) stk).
Proof. intros st a members key stk [-> | ->]; reflexivity. Qed.

(** ** Properties, items, the array *)

Lemma run_string_property : forall m key v rest members k0 stk,
  m = MObjStart \/ m = MKey ->
  run (string_property key v ++ rest) (m, FObj members k0 :: stk)
  = run rest
      (MAfter,
       FObj (obj_set (lit key) (JStr v) members) (lit key) :: stk).
Proof.
  intros m key v rest members k0 stk Hm. unfold string_property.
  rewrite <- app_assoc, (run_QuoteJSONString_key _ _ _ _ _ Hm).
  cbn [app]. rewrite run_cons.
  change (step (MColon, FObj members (lit key) :: stk) 58%N)
    with (Some (MValue, FObj members (lit key) :: stk)).
  cbv beta iota. now rewrite run_QuoteJSONString_value.
Qed.

Lemma run_number_property_close : forall key z rest members k0 stk,
  run (number_property key z ++ 125%N :: rest)
      (MKey, FObj members k0 :: stk)
  = run rest
      (deliver (JObj (obj_set (lit key) (JNum (inject_Z z)) members)) stk).
Proof.
  intros key z rest members k0 stk. unfold number_property.
  rewrite <- app_assoc,
    (run_QuoteJSONString_key _ _ _ _ _ (or_intror eq_refl)).
  cbn [app]. rewrite run_cons.
  change (step (MColon, FObj members (lit key) :: stk) 58%N)
    with (Some (MValue, FObj members (lit key) :: stk)).
  cbv beta iota.
  destruct (run_Number_toString z (125%N :: rest)
              (FObj members (lit key) :: stk))
    as (st & a & Hst & Hv & Hrun).
  rewrite Hrun, run_cons, (step_number_close_object _ _ _ _ Hst), Hv.
  reflexivity.
Qed.

Lemma run_comma_in_object : forall rest members key stk,
  run (44%N :: rest) (MAfter, FObj members key :: stk)
  = run rest (MKey, FObj members key :: stk).
Proof. reflexivity. Qed.

Lemma run_open_object : forall m rest stk,
  m = MValue \/ m = MArrStart ->
  run (123%N :: rest) (m, stk) = run rest (MObjStart, FObj [] [] :: stk).
Proof. intros m rest stk [-> | ->]; reflexivity. Qed.

(** One serialized item is read back as its value. *)
Lemma run_JSON_stringify_item : forall m item rest stk,
  m = MValue \/ m = MArrStart ->
  run (JSON_stringify_item item ++ rest) (m, stk)
  = run rest (deliver (item_value item) stk).
Proof.
  intros m item rest stk Hm. unfold JSON_stringify_item.
  cbn [app]. rewrite (run_open_object _ _ Hm).
  rewrite <- app_assoc,
    (run_string_property _ _ _ _ _ _ (or_introl eq_refl)).
  cbn [app]. rewrite run_comma_in_object.
  do 6 (rewrite <- app_assoc,
          (run_string_property _ _ _ _ _ _ (or_intror eq_refl));
        cbn [app]; rewrite run_comma_in_object).
  rewrite <- app_assoc. cbn [app].
  rewrite run_number_property_close.
  reflexivity.
Qed.

Lemma run_JSON_stringify_items : forall h x rest m acc stk,
  m = MValue \/ m = MArrStart ->
  run (JSON_stringify_items (x :: h) ++ rest) (m, FArr acc :: stk)
  = run rest
      (MAfter, FArr (rev (map item_value (x :: h)) ++ acc) :: stk).
Proof.
  induction h as [|y h IH]; intros x rest m acc stk Hm.
  - cbn [JSON_stringify_items]. now rewrite (run_JSON_stringify_item _ _ _ Hm).
  - change (JSON_stringify_items (x :: y :: h))
      with (JSON_stringify_item x
            ++ 44%N :: JSON_stringify_items (y :: h)).
    rewrite <- app_assoc, (run_JSON_stringify_item _ _ _ Hm).
    cbn [app deliver]. rewrite run_cons.
    change (step (MAfter, FArr (item_value x :: acc) :: stk) 44%N)
      with (Some (MValue, FArr (item_value x :: acc) :: stk)).
    cbv beta iota. rewrite (IH y rest MValue _ stk (or_introl eq_refl)).
    change (map item_value (x :: y :: h))
      with (item_value x :: map item_value (y :: h)).
    cbn [rev]. now rewrite <- app_assoc.
Qed.

(** Parsing what [JSON.stringify] wrote for a history gives the value of
    that history. *)
Lemma JSON_parse_stringify : forall h,
  JSON_parse (JSON_stringify h) = Some (history_value h).
Proof.
  intros [|x h]; [reflexivity|].
  unfold JSON_parse, JSON_stringify, history_value.
  rewrite run_cons.
  change (step (MValue, []) 91%N) with (Some (MArrStart, [FArr []])).
  cbv beta iota.
  rewrite (run_JSON_stringify_items h x [93%N] [] []
             (or_intror eq_refl)).
  rewrite app_nil_r, run_cons.
  change (step (MAfter, [FArr (rev (map item_value (x :: h)))]) 93%N)
    with (Some (MDone (JArr (rev (rev (map item_value (x :: h))))),
                @nil frame)).
  cbv beta iota fix delta [run finish].
  now rewrite rev_involutive.
Qed.

End JSONFacts.

Lemma JSON_stringify_truthy : forall h, truthy (JSON_stringify h) = true.
Proof. reflexivity. Qed.

Lemma getItem_setItem : forall ls key value,
  getItem (setItem ls key value) key = Some value.
Proof. intros. unfold getItem, setItem. now rewrite streq_refl. Qed.

(** C3.  For a history built from the empty one by [addToHistory] alone,
    the save effect followed by the load effect hands back, as the new
    history, the array of the same items with the same fields in the same
    order. *)
Theorem load_after_save_round_trip :
  forall st ls,
    built_by_append (DictionaryState.history st) ->
    loadHistoryEffect (saveHistoryEffect st ls)
      = adopted (history_value (DictionaryState.history st)) /\
    loaded_history (loadHistoryEffect (saveHistoryEffect st ls))
      = history_value (DictionaryState.history st).
Proof.
  intros st ls _.
  assert (E : loadHistoryEffect (saveHistoryEffect st ls)
              = adopted (history_value (DictionaryState.history st))).
  { unfold loadHistoryEffect, saveHistoryEffect.
    rewrite getItem_setItem, JSON_stringify_truthy.
    now rewrite JSONFacts.JSON_parse_stringify. }
  split; [exact E | now rewrite E].
Qed.

Lemma load_after_save_round_trip_witness :
  built_by_append (DictionaryState.history two_words) /\
  loadHistoryEffect (saveHistoryEffect two_words no_storage)
    = adopted (history_value [newItem 3 4 inu; newItem 1 2 neko]).
Proof.
  assert (B : built_by_append (DictionaryState.history two_words)).
  { unfold two_words. apply built_append, built_append, built_empty. }
  split; [exact B|].
  exact (proj1 (load_after_save_round_trip two_words no_storage B)).
Defined.

(* ================================================================== *)
(** * The history along a run *)
(* ================================================================== *)

Lemma history_with_loading : forall type v st,
  DictionaryState.history (with_loading type v st)
  = DictionaryState.history st.
Proof. intros [|] v st; reflexivity. Qed.

Lemma addToHistory_history_step : forall d w w0,
  DictionaryState.history (state w0) = DictionaryState.history (state w) ->
  clock w0 = clock w -> ticks w0 = ticks w ->
  history_step w (addToHistory d w0).
Proof.
  intros d w w0 Eh Ec Et. unfold history_step, addToHistory, andThen.
  destruct (negb (has_word (DictionaryResult.word d)
                    (DictionaryState.history (state w0)))) eqn:Hi;
    simpl; (split; [exact Ec|]).
  - right. exists d. unfold inserted. rewrite <- Eh. split; [exact Hi|].
    apply negb_true_iff in Hi. unfold addToHistory_updater.
    rewrite Hi. simpl. now rewrite Eh, Ec, Et.
  - left. apply negb_false_iff in Hi. unfold addToHistory_updater.
    rewrite Hi. split; assumption.
Qed.

Lemma history_step_then : forall w w1 (a : Action),
  history_step w w1 ->
  DictionaryState.history (state (a w1)) = DictionaryState.history (state w1) ->
  clock (a w1) = clock w1 -> ticks (a w1) = ticks w1 ->
  history_step w (a w1).
Proof.
  intros w w1 a [Hc Hs] Eh Ec Et. unfold history_step.
  rewrite Eh, Ec, Et. split; assumption.
Qed.

Lemma handle_history_step : forall dec e w w',
  handle dec e w = Some w' -> history_step w w'.
Proof.
  intros dec e w w' H.
  destruct e as [q|v| |iw| |text ty| |fc|i o]; simpl in H.
  1-8: injection H as <-; unfold history_step; unfold_handlers;
       split_cases; simpl; rewrite ?history_with_loading;
       (split; [reflexivity
              | left; split; first [reflexivity | congruence]]).
  destruct (nth_error (pending w) i) as [k|] eqn:Hk; [|discriminate].
  destruct k as [t|wd df|text ty|ty decoding|ws|qs|qs b], o as [d|s| |];
    simpl in H; try discriminate; injection H as <-.
  1: { (* a definition has arrived *)
    unfold handleSearch_fulfilled, andThen.
    apply history_step_then; try reflexivity.
    apply addToHistory_history_step; reflexivity. }
  all: unfold history_step; unfold_handlers; split_cases; simpl;
       rewrite ?history_with_loading;
       (split; [reflexivity
              | left; split; first [reflexivity | congruence]]).
Qed.

Lemma has_word_In : forall w h,
  has_word w h = true <-> In w (words_of h).
Proof.
  intros w h. unfold has_word, words_of. rewrite existsb_exists, in_map_iff.
  split; intros (x & H1 & H2).
  - exists x. split; [now apply streq_eq | exact H1].
  - exists x. split; [exact H2 | now apply streq_eq].
Qed.

Lemma history_step_distinct : forall w w',
  history_step w w' ->
  NoDup (words_of (DictionaryState.history (state w))) ->
  NoDup (words_of (DictionaryState.history (state w'))).
Proof.
  intros w w' [_ [[E _] | (d & Hi & E & _)]] N; rewrite E; [exact N|].
  simpl. constructor; [|exact N].
  intros Hin. apply has_word_In in Hin.
  unfold inserted in Hi. rewrite Hin in Hi. discriminate.
Qed.

(** X1.  The history never holds a word twice: when the loaded history has
    pairwise distinct words, so has the history after any sequence of
    events. *)
Theorem history_words_stay_distinct :
  forall dec clk h es w,
    NoDup (words_of h) ->
    runs dec (start_world clk h) es w ->
    NoDup (words_of (DictionaryState.history (state w))).
Proof.
  intros dec clk h es w N R.
  remember (start_world clk h) as w0 eqn:E.
  induction R as [w|w es w1 e w2 R IH H].
  - subst w. exact N.
  - eapply history_step_distinct; [eapply handle_history_step; eauto|].
    now apply IH.
Qed.

Lemma history_words_stay_distinct_witness :
  NoDup (words_of [newItem 1 2 neko]) /\
  NoDup (words_of
           (DictionaryState.history
              (state ((resumed 0 ;; handleSearch_fulfilled inu)
                        (handleSearch [] (Some [29356%N])
                           (start_world sample_clock [newItem 1 2 neko])))))).
Proof.
  assert (N : NoDup (words_of [newItem 1 2 neko]))
    by (repeat constructor; simpl; tauto).
  split; [exact N|].
  apply (@history_words_stay_distinct no_decoder sample_clock
           [newItem 1 2 neko]
           (([] ++ [click_view_details [29356%N]])
              ++ [settled 0 (fulfilled_definition inu)])); [exact N|].
  eapply runs_snoc; [eapply runs_snoc; [apply runs_nil|]|]; reflexivity.
Defined.

(** X2.  The history is append-only: whatever the events, the history at
    the end is the history at the start with new items in front, at most
    one per event; nothing is removed, replaced or reordered. *)
Theorem history_only_grows_in_front :
  forall dec w es w',
    runs dec w es w' ->
    exists newer,
      DictionaryState.history (state w')
        = newer ++ DictionaryState.history (state w) /\
      List.length newer <= List.length es.
Proof.
  intros dec w es w' R. induction R as [w|w es w1 e w2 R IH H].
  - exists []. split; [reflexivity | apply Nat.le_refl].
  - destruct IH as (newer & E & L).
    destruct (handle_history_step _ _ _ H) as [_ [[E1 _] | (d & _ & E1 & _)]].
    + exists newer. rewrite E1, E. split; [reflexivity|].
      rewrite length_app. simpl. lia.
    + eexists (_ :: newer). rewrite E1, E. split; [reflexivity|].
      rewrite length_app. simpl. lia.
Qed.

Lemma history_only_grows_in_front_witness :
  exists newer,
    DictionaryState.history
      (state ((resumed 0 ;; handleSearch_fulfilled inu)
                (handleSearch [] (Some [29356%N])
                   (start_world sample_clock [newItem 1 2 neko]))))
    = newer ++ [newItem 1 2 neko] /\
    List.length newer <= 2.
Proof.
  apply (@history_only_grows_in_front no_decoder
           (start_world sample_clock [newItem 1 2 neko])
           (([] ++ [click_view_details [29356%N]])
              ++ [settled 0 (fulfilled_definition inu)])).
  eapply runs_snoc; [eapply runs_snoc; [apply runs_nil|]|]; reflexivity.
Defined.

(** ** Ids *)

Lemma uint_chars_inj : forall d d',
  uint_chars d = uint_chars d' -> d = d'.
Proof.
  induction d; destruct d'; simpl; intros H;
    try discriminate; try reflexivity;
    injection H as H; f_equal; auto.
Qed.

Lemma uint_chars_head : forall d rest,
  uint_chars d <> 45%N :: rest.
Proof. destruct d; simpl; intros rest H; discriminate. Qed.

Lemma Number_toString_inj : forall a b,
  Number_toString a = Number_toString b -> a = b.
Proof.
  intros [|p|p] [|q|q] H; simpl in H; try reflexivity.
  - exfalso. apply (DecimalPos.Unsigned.to_uint_nonzero q).
    apply uint_chars_inj. symmetry. exact H.
  - discriminate.
  - exfalso. apply (DecimalPos.Unsigned.to_uint_nonzero p).
    apply uint_chars_inj. exact H.
  - f_equal. apply DecimalPos.Unsigned.to_uint_inj.
    now apply uint_chars_inj.
  - exfalso. eapply uint_chars_head. exact H.
  - discriminate.
  - exfalso. eapply uint_chars_head. symmetry. exact H.
  - injection H as H. f_equal. apply DecimalPos.Unsigned.to_uint_inj.
    now apply uint_chars_inj.
Qed.

Lemma NoDup_map_injective : forall (A B : Type) (f : A -> B) l,
  (forall x y, f x = f y -> x = y) -> NoDup l -> NoDup (map f l).
Proof.
  intros A B f l Hf N. induction N as [|x l Hx N IH]; simpl; constructor.
  - intros Hin. apply in_map_iff in Hin as (y & E & Hy).
    apply Hf in E. subst y. contradiction.
  - exact IH.
Qed.

Lemma id_readings_next : forall clk n,
  Nat.Even n ->
  id_readings clk (S (S n)) = clk n :: id_readings clk n.
Proof.
  intros clk n [k ->]. unfold id_readings.
  change (S (S (2 * k))) with (2 + 2 * k).
  replace (2 + 2 * k) with (2 * S k) by lia.
  rewrite !Nat.div2_double, seq_S, rev_app_distr. reflexivity.
Qed.

Lemma history_step_ids : forall w w',
  history_step w w' -> ids_from_clock w -> ids_from_clock w'.
Proof.
  intros w w' [Ec [[E Et] | (d & _ & E & Et)]] [Hev Hids];
    unfold ids_from_clock; rewrite E, Ec, Et.
  - split; assumption.
  - split.
    + destruct Hev as [k Hk]. exists (S k). lia.
    + rewrite (id_readings_next _ Hev). simpl. now rewrite Hids.
Qed.

Lemma runs_clock : forall dec w es w',
  runs dec w es w' -> clock w' = clock w.
Proof.
  intros dec w es w' R. induction R as [w|w es w1 e w2 R IH H];
    [reflexivity|].
  destruct (handle_history_step _ _ _ H) as [Ec _]. congruence.
Qed.

Lemma runs_ids_from_clock : forall dec w es w',
  runs dec w es w' -> ids_from_clock w -> ids_from_clock w'.
Proof.
  intros dec w es w' R. induction R as [w|w es w1 e w2 R IH H].
  - trivial.
  - intros I. eapply history_step_ids; [eapply handle_history_step; eauto|].
    now apply IH.
Qed.

(** X3.  Item ids are unique exactly when no two insertions met the same
    reading of the clock: in a history that started empty, the ids are,
    whatever the events, the decimal numerals of the readings of
    [Date.now()] taken for them, newest first, and they are pairwise
    distinct if and only if those readings are. *)
Theorem history_ids_distinct :
  forall dec clk es w,
    runs dec (start_world clk []) es w ->
    ids_of (DictionaryState.history (state w))
      = map Number_toString (id_readings clk (ticks w)) /\
    (NoDup (ids_of (DictionaryState.history (state w)))
     <-> NoDup (id_readings clk (ticks w))).
Proof.
  intros dec clk es w R.
  assert (I : ids_from_clock w).
  { apply (runs_ids_from_clock R). split; [now exists 0 | reflexivity]. }
  destruct I as [_ Hids]. rewrite (runs_clock R) in Hids. simpl in Hids.
  split; [exact Hids|]. rewrite Hids. split.
  - apply NoDup_map_inv.
  - apply NoDup_map_injective. apply Number_toString_inj.
Qed.

(** Two lookups with a clock that counts milliseconds: each insertion
    reads the same millisecond twice, the second insertion a later one. *)
Lemma history_ids_distinct_witness :
  exists w,
    runs no_decoder (start_world millisecond_clock [])
      (((([] ++ [click_view_details [29483%N]])
           ++ [settled 0 (fulfilled_definition neko)])
          ++ [click_view_details [29356%N]])
         ++ [settled 0 (fulfilled_definition inu)]) w /\
    ids_of (DictionaryState.history (state w))
      = [Number_toString 1700000000001; Number_toString 1700000000000] /\
    NoDup (ids_of (DictionaryState.history (state w))).
Proof.
  eexists.
  match goal with |- ?R /\ _ => assert (HR : R) end.
  { eapply runs_snoc;
      [eapply runs_snoc;
         [eapply runs_snoc; [eapply runs_snoc; [apply runs_nil|]|]|]|];
      reflexivity. }
  split; [exact HR|]. split; [reflexivity|].
  apply (proj2 (proj2 (history_ids_distinct HR))).
  vm_compute.
  constructor; [intros [H | []]; discriminate H|].
  constructor; [intros []|constructor].
Defined.

(** X4.  The id of a new item determines the clock reading it was made
    from: two items get the same id exactly when [Date.now()] gave the same
    reading for both. *)
Theorem newItem_id_same_reading :
  forall a b r a' b' r',
    WordHistoryItem.id (newItem a b r) = WordHistoryItem.id (newItem a' b' r')
    <-> a = a'.
Proof.
  intros a b r a' b' r'. simpl. split.
  - apply Number_toString_inj.
  - now intros ->.
Qed.

(* ================================================================== *)
(** * The story phase *)
(* ================================================================== *)

Lemma generating_with_loading : forall type v st,
  DictionaryState.isGeneratingStory (with_loading type v st)
  = DictionaryState.isGeneratingStory st.
Proof. intros [|] v st; reflexivity. Qed.

Lemma generating_addToHistory_updater : forall a b r st,
  DictionaryState.isGeneratingStory (addToHistory_updater a b r st)
  = DictionaryState.isGeneratingStory st.
Proof.
  intros a b r st. unfold addToHistory_updater.
  destruct (has_word _ _); reflexivity.
Qed.

Ltac story_arith :=
  repeat match goal with
         | H : _ = true |- _ => rewrite H in *
         | H : _ = false |- _ => rewrite H in *
         end;
  intuition (try discriminate; try lia).

Lemma handle_story_guarded : forall dec e w w',
  handle dec e w = Some w' -> story_guarded w -> story_guarded w'.
Proof.
  intros dec e w w' H Inv. unfold story_guarded, stories_in_flight in *.
  destruct e as [q|v| |iw| |text ty| |fc|i o]; simpl in H.
  1-8: injection H as <-; unfold_handlers; split_cases; simpl;
       rewrite ?generating_with_loading; story_arith.
  destruct (nth_error (pending w) i) as [k|] eqn:Hk; [|discriminate].
  rewrite (in_flight_remove_nth is_story _ _ Hk) in Inv.
  destruct k as [t|wd df|text ty|ty decoding|ws|qs|qs b], o as [d|s| |];
    simpl in H;
    try discriminate; injection H as <-;
    unfold_handlers; split_cases; simpl in *;
    rewrite ?generating_with_loading, ?generating_addToHistory_updater;
    simpl; story_arith.
Qed.

(** X5.  The story phase guards itself: in every world the component can
    reach, at most one story request is in flight, none while
    [isGeneratingStory] is down, and while it is up [handleGenerateStory]
    returns the world as it is. *)
Theorem story_retrigger_guard :
  forall dec w,
    reachable dec w ->
    stories_in_flight w <= 1 /\
    (DictionaryState.isGeneratingStory (state w) = false ->
     stories_in_flight w = 0) /\
    (DictionaryState.isGeneratingStory (state w) = true ->
     handleGenerateStory w = w).
Proof.
  intros dec w (clk & h & es & R).
  assert (Inv : story_guarded w).
  { remember (start_world clk h) as w0 eqn:E.
    induction R as [w|w es w1 e w2 R IH H].
    - subst w. split; [reflexivity | apply Nat.le_0_l].
    - eapply handle_story_guarded; eauto. }
  destruct Inv as [I0 I1]. split; [exact I1|]. split; [exact I0|].
  intros Hg. unfold handleGenerateStory. rewrite Hg.
  destruct (DictionaryState.history (state w)); reflexivity.
Qed.

Lemma story_retrigger_guard_witness :
  stories_in_flight story_pending <= 1 /\
  handleGenerateStory story_pending = story_pending.
Proof.
  assert (R : reachable no_decoder story_pending).
  { apply (@reachable_step no_decoder
             (start_world sample_clock [newItem 1 2 neko])
             click_create_story story_pending).
    - apply reachable_start.
    - reflexivity. }
  destruct (story_retrigger_guard R) as (H1 & _ & H3).
  split; [exact H1 | apply H3; reflexivity].
Defined.

Lemma handle_story_nonempty : forall dec e w w',
  handle dec e w = Some w' ->
  Forall story_nonempty (requests w) -> Forall story_nonempty (requests w').
Proof.
  intros dec e w w' H Inv.
  assert (Hne : forall (x : WordHistoryItem.t) l, slice_0_10 (x :: l) <> [])
    by (intros x l E; discriminate E).
  destruct e as [q|v| |iw| |text ty| |fc|i o]; simpl in H.
  1-8: injection H as <-; unfold_handlers; split_cases; simpl;
       repeat (apply Forall_cons; [first [exact I | apply Hne]|]);
       assumption.
  destruct (nth_error (pending w) i) as [k|] eqn:Hk; [|discriminate].
  destruct k as [t|wd df|text ty|ty decoding|ws|qs|qs b], o as [d|s| |];
    simpl in H;
    try discriminate; injection H as <-;
    unfold_handlers; split_cases; simpl;
    repeat (apply Forall_cons; [first [exact I | apply Hne]|]);
    assumption.
Qed.

Lemma reachable_story_nonempty : forall dec w,
  reachable dec w -> Forall story_nonempty (requests w).
Proof.
  intros dec w (clk & h & es & R).
  remember (start_world clk h) as w0 eqn:E.
  induction R as [w|w es w1 e w2 R IH H].
  - subst w. constructor.
  - eapply handle_story_nonempty; eauto.
Qed.

(** X6.  The story service is never asked for a story about nothing: in
    every world the component can reach, every story request issued so far
    carried at least one history item. *)
Theorem story_request_never_empty :
  forall dec w words,
    reachable dec w ->
    In (generateDailyStory words) (requests w) ->
    words <> [] /\ List.length words <= 10.
Proof.
  intros dec w words R Hin. split.
  - pose proof (reachable_story_nonempty R) as Inv.
    rewrite Forall_forall in Inv. exact (Inv _ Hin).
  - pose proof (reachable_story_bounded R) as B.
    rewrite Forall_forall in B. exact (B _ Hin).
Qed.

Lemma story_request_never_empty_witness :
  In (generateDailyStory [newItem 1 2 neko]) (requests story_pending) /\
  [newItem 1 2 neko] <> [].
Proof.
  assert (R : reachable no_decoder story_pending).
  { apply (@reachable_step no_decoder
             (start_world sample_clock [newItem 1 2 neko])
             click_create_story story_pending).
    - apply reachable_start.
    - reflexivity. }
  assert (Hin : In (generateDailyStory [newItem 1 2 neko])
                   (requests story_pending)) by (left; reflexivity).
  split; [exact Hin|].
  exact (proj1 (@story_request_never_empty _ _ _ R Hin)).
Defined.

(* ================================================================== *)
(** * Failures of the phases *)
(* ================================================================== *)

Lemma error_with_loading : forall type v st,
  DictionaryState.error (with_loading type v st) = DictionaryState.error st.
Proof. intros [|] v st; reflexivity. Qed.

Lemma error_addToHistory_updater : forall a b r st,
  DictionaryState.error (addToHistory_updater a b r st)
  = DictionaryState.error st.
Proof.
  intros a b r st. unfold addToHistory_updater.
  destruct (has_word _ _); reflexivity.
Qed.

(** X7.  A speech call always gives the phase back, and a buffer is
    played exactly when every step before [playBuffer] succeeded.  A
    rejected call ends in [catch].  When the speech data arrives, either
    [decodeBase64] throws or no audio context can be made, and the call
    ends in [catch]; or the call is suspended at [decodeAudioData], with
    state, console and played buffers as they were.  When that decoding
    settles, in whatever world it is then pending, the buffer is played if
    the decoder made one, and the call ends in [catch] if it found a
    format error.  Every ending clears the loading flag of the phase and
    changes nothing else in the state; no ending issues a request. *)
Theorem speech_call_always_settles :
  forall dec w i text type,
    nth_error (pending w) i = Some (awaiting_speech text type) ->
    (exists w',
       handle dec (settled i rejected) w = Some w' /\
       playback_failed type w w' /\
       pending w' = remove_nth i (pending w)) /\
    (forall base64Audio, exists w',
       handle dec (settled i (fulfilled_text base64Audio)) w = Some w' /\
       (((decodeBase64 dec base64Audio = None \/
          newAudioContext dec (resumed i w) = false) /\
         playback_failed type w w' /\
         pending w' = remove_nth i (pending w)) \/
        (exists audioBytes,
           decodeBase64 dec base64Audio = Some audioBytes /\
           newAudioContext dec (resumed i w) = true /\
           w' = suspend
                  (awaiting_decode type
                     (AudioDecoder.decodeAudioData audioBytes 24000))
                  (resumed i w) /\
           forall w2 j,
             nth_error (pending w2) j
               = Some (awaiting_decode type
                         (AudioDecoder.decodeAudioData audioBytes 24000)) ->
             exists w'',
               handle dec (settled j decoder_returned) w2 = Some w'' /\
               pending w'' = remove_nth j (pending w2) /\
               ((exists audioBuffer,
                   AudioDecoder.decodeAudioData audioBytes 24000
                     = AudioDecoder.decoded audioBuffer /\
                   playback_started type audioBuffer w2 w'') \/
                (AudioDecoder.decodeAudioData audioBytes 24000
                   = AudioDecoder.format_error /\
                 playback_failed type w2 w''))))).
Proof.
  intros dec w i text type Hk.
  assert (Hrej : playback_failed type w
                   (handlePlayAudio_rejected type (resumed i w)) /\
                 pending (handlePlayAudio_rejected type (resumed i w))
                   = remove_nth i (pending w))
    by (repeat split).
  split.
  - eexists. split; [simpl; rewrite Hk; reflexivity|]. exact Hrej.
  - intros s. eexists. split; [simpl; rewrite Hk; reflexivity|].
    unfold andThen, handlePlayAudio_fulfilled.
    destruct (decodeBase64 dec s) as [audioBytes|] eqn:Hd;
      [destruct (newAudioContext dec (resumed i w)) eqn:Hc|];
      [right | left; split; [now right | exact Hrej]
             | left; split; [now left | exact Hrej]].
    exists audioBytes. repeat split.
    intros w2 j Hj. eexists. split; [simpl; rewrite Hj; reflexivity|].
    unfold andThen, handlePlayAudio_decoded.
    destruct (AudioDecoder.decodeAudioData audioBytes 24000)
      as [audioBuffer|] eqn:Hb.
    + split; [reflexivity|]. left. exists audioBuffer. repeat split.
    + split; [reflexivity|]. right. repeat split.
Qed.

Lemma speech_call_always_settles_witness :
  let w := handlePlayAudio [29483%N] AudioWord (start_world sample_clock []) in
  exists w' w'',
    handle sample_platform (settled 0 (fulfilled_text (lit "AIA="))) w
      = Some w' /\
    loading AudioWord (state w') = true /\
    handle sample_platform (settled 0 decoder_returned) w' = Some w'' /\
    loading AudioWord (state w'') = false /\
    played w'' = [AudioDecoder.mkBuffer 24000 1 [Qmake (-32768) 32768]] /\
    console w'' = [].
Proof.
  intros w.
  destruct (@speech_call_always_settles sample_platform w 0 [29483%N]
              AudioWord eq_refl) as [_ H].
  destruct (H (lit "AIA="))
    as (w' & Hw' & [([Hd | Hc] & _) | (bytes & Hd & _ & E & Hnext)]);
    [discriminate Hd | discriminate Hc |].
  injection Hd as <-.
  destruct (Hnext w' 0) as (w'' & Hw'' & _ & [(b & Hb & Hs) | (Hb & _)]);
    [rewrite E; reflexivity | | discriminate Hb].
  injection Hb as <-. destruct Hs as (Hst & Hco & Hpl & _).
  exists w', w''. split; [exact Hw'|]. split; [rewrite E; reflexivity|].
  split; [exact Hw''|]. rewrite Hst, Hco, Hpl, E. repeat split.
Defined.

(** X8.  Only three phases ever put an error message into the state: an
    event leaves a message in [state.error] that was not there before only
    when it is a failed definition call, a failed story call, or a text
    extraction that failed or found nothing.  Image and speech calls, file
    reads and user actions never produce one. *)
Theorem error_message_origin :
  forall dec e w w' m,
    handle dec e w = Some w' ->
    DictionaryState.error (state w') = Some m ->
    DictionaryState.error (state w) = Some m \/
    exists i k o,
      e = settled i o /\
      nth_error (pending w) i = Some k /\
      error_source k o m.
Proof.
  intros dec e w w' m H Hm.
  destruct e as [q|v| |iw| |text ty| |fc|i o]; simpl in H.
  1-8: injection H as <-; left; revert Hm; unfold_handlers; split_cases;
       simpl; rewrite ?error_with_loading; intros Hm;
       first [exact Hm | discriminate Hm].
  destruct (nth_error (pending w) i) as [k|] eqn:Hk; [|discriminate].
  destruct k as [t|wd df|text ty|ty decoding|ws|qs|qs b], o as [d|s| |];
    simpl in H;
    try discriminate; injection H as <-; revert Hm;
    unfold_handlers; split_cases; simpl;
    rewrite ?error_with_loading, ?error_addToHistory_updater; simpl;
    intros Hm;
    first [ left; exact Hm
          | discriminate Hm
          | right; exists i; eexists; eexists;
            split; [reflexivity|]; split; [exact Hk|];
            simpl; injection Hm as <-;
            first [reflexivity | split; [|reflexivity]] ].
  destruct s; [reflexivity | discriminate].
Qed.

Lemma error_message_origin_witness :
  exists w',
    handle no_decoder (settled 0 rejected) lookup_pending = Some w' /\
    DictionaryState.error (state w')
      = Some (lit "Failed to find the word. Please try again.") /\
    error_source (awaiting_definition [29483%N]) rejected
      (lit "Failed to find the word. Please try again.").
Proof.
  eexists. split; [reflexivity|]. split; [reflexivity|].
  destruct (@error_message_origin no_decoder (settled 0 rejected)
              lookup_pending _
              (lit "Failed to find the word. Please try again.")
              eq_refl eq_refl) as [H | (i & k & o & He & Hk & Hs)].
  - discriminate H.
  - injection He as <- <-. injection Hk as <-. exact Hs.
Defined.

(* ================================================================== *)
(** * Text extraction *)
(* ================================================================== *)

Lemma trimStart_clean : forall s, starts_clean (trimStart s).
Proof.
  induction s as [|c s IH]; simpl; [exact I|].
  destruct (is_white_space c) eqn:E; [exact IH | exact E].
Qed.

Lemma trimStart_of_clean : forall s, starts_clean s -> trimStart s = s.
Proof. intros [|c s] H; simpl in *; [reflexivity | now rewrite H]. Qed.

Lemma trimStart_split : forall s,
  exists pre, s = pre ++ trimStart s.
Proof.
  induction s as [|c s (pre & E)]; simpl; [now exists []|].
  destruct (is_white_space c).
  - exists (c :: pre). simpl. now f_equal.
  - now exists [].
Qed.

Lemma trimEnd_split : forall s, exists post, s = trimEnd s ++ post.
Proof.
  intros s. unfold trimEnd.
  destruct (trimStart_split (rev s)) as (pre & E).
  exists (rev pre).
  rewrite <- rev_app_distr, <- E. symmetry. apply rev_involutive.
Qed.

Lemma starts_clean_prefix : forall a b,
  starts_clean (a ++ b) -> starts_clean a.
Proof. intros [|c a] b H; simpl in *; [exact I | exact H]. Qed.

Lemma trimEnd_idempotent : forall s, trimEnd (trimEnd s) = trimEnd s.
Proof.
  intros s. unfold trimEnd. rewrite rev_involutive.
  now rewrite (@trimStart_of_clean _ (trimStart_clean (rev s))).
Qed.

Lemma trim_clean : forall s, starts_clean (trim s).
Proof.
  intros s. unfold trim.
  destruct (trimEnd_split (trimStart s)) as (post & E).
  apply starts_clean_prefix with (b := post).
  rewrite <- E. apply trimStart_clean.
Qed.

Lemma trim_idempotent : forall s, trim (trim s) = trim s.
Proof.
  intros s. unfold trim at 1.
  rewrite (@trimStart_of_clean _ (trim_clean s)).
  unfold trim. apply trimEnd_idempotent.
Qed.

Lemma extracted_text_not_blank : forall response_text,
  extractTextFromImage_returns response_text <> [] ->
  truthy (trim (extractTextFromImage_returns response_text)) = true.
Proof.
  intros [text|]; simpl; [|congruence].
  destruct (truthy (trim text)) eqn:E; [|congruence].
  intros _. now rewrite trim_idempotent.
Qed.

(** X9.  Text read off an image always leads somewhere: once the
    extraction call resolves with what [extractTextFromImage] returns (the
    trimmed text of the response, or the empty string), the analyzing flag
    is cleared, and either the text is empty and the error "Could not read
    text from image." is set without any request, or the text becomes the
    query and a definition request for exactly that text is issued; the
    blank-term guard of [handleSearch] can never swallow it. *)
Theorem extracted_text_starts_lookup :
  forall dec w i query_seen base64String response_text,
    nth_error (pending w) i = Some (awaiting_ocr query_seen base64String) ->
    let extractedText := extractTextFromImage_returns response_text in
    exists w',
      handle dec (settled i (fulfilled_text extractedText)) w = Some w' /\
      DictionaryState.isAnalyzingImage (state w') = false /\
      ((extractedText = [] /\
        DictionaryState.error (state w')
          = Some (lit "Could not read text from image.") /\
        requests w' = requests w /\
        query w' = query w) \/
       (extractedText <> [] /\
        query w' = extractedText /\
        view w' = SEARCH /\
        DictionaryState.error (state w') = None /\
        DictionaryState.isLoadingText (state w') = true /\
        requests w' = fetchDictionaryDefinition extractedText :: requests w)).
Proof.
  intros dec w i qs b rt Hk t.
  eexists. split; [simpl; rewrite Hk; reflexivity|].
  unfold reader_onload_fulfilled.
  destruct (truthy t) eqn:Ht.
  - assert (Hne : t <> []) by (intros E; rewrite E in Ht; discriminate).
    pose proof (extracted_text_not_blank rt Hne) as Hb. fold t in Hb.
    unfold andThen, handleSearch, searchTerm. rewrite Ht.
    simpl. rewrite Hb. simpl.
    split; [reflexivity|]. right. repeat split. exact Hne.
  - destruct t; [|discriminate].
    unfold reader_onload_rejected, andThen, resumed, setState. simpl.
    split; [reflexivity|]. left. repeat split.
Qed.

Lemma extracted_text_starts_lookup_witness :
  let w := reader_onload [] (lit "data:image/png;base64,AAAA")
             (handleImageUpload [] true (start_world sample_clock [])) in
  exists w',
    handle no_decoder
      (settled 0 (fulfilled_text
                    (extractTextFromImage_returns
                       (Some [32; 29483; 10]%N)))) w = Some w' /\
    requests w'
      = [fetchDictionaryDefinition [29483%N];
         extractTextFromImage (Some (lit "AAAA"))].
Proof.
  intros w.
  destruct (@extracted_text_starts_lookup no_decoder w 0 []
              (Some (lit "AAAA")) (Some [32; 29483; 10]%N) eq_refl)
    as (w' & H & _ & [(E & _) | (_ & _ & _ & _ & _ & Hr)]).
  - discriminate E.
  - exists w'. split; [exact H | exact Hr].
Defined.

Lemma split_comma_1_none : forall s,
  ~ In 44%N s -> split_comma_1 s = None.
Proof.
  induction s as [|c s IH]; simpl; intros H; [reflexivity|].
  destruct (N.eqb_spec c 44); [exfalso; apply H; left; congruence|].
  apply IH. intros Hin. apply H. now right.
Qed.

Lemma up_to_comma_all : forall s, ~ In 44%N s -> up_to_comma s = s.
Proof.
  induction s as [|c s IH]; simpl; intros H; [reflexivity|].
  destruct (N.eqb_spec c 44); [exfalso; apply H; left; congruence|].
  f_equal. apply IH. intros Hin. apply H. now right.
Qed.

(** X10.  The upload path sends the payload of the data URL: for a reader
    result made of a header without comma, a comma and a payload without
    comma (as base64 is), the extraction request carries exactly the
    payload; for a result without any comma it carries no image at all. *)
Theorem reader_onload_sends_payload :
  forall query_seen header payload w,
    ~ In 44%N header ->
    ~ In 44%N payload ->
    requests (reader_onload query_seen (header ++ 44%N :: payload) w)
      = extractTextFromImage (Some payload) :: requests w /\
    requests (reader_onload query_seen header w)
      = extractTextFromImage None :: requests w.
Proof.
  intros q header payload w Hh Hp. unfold reader_onload, await. simpl.
  split; f_equal; f_equal.
  - induction header as [|c header IH]; simpl.
    + now rewrite (@up_to_comma_all _ Hp).
    + destruct (N.eqb_spec c 44); [exfalso; apply Hh; left; congruence|].
      apply IH. intros Hin. apply Hh. now right.
  - now apply split_comma_1_none.
Qed.

Lemma reader_onload_sends_payload_witness :
  requests (reader_onload [] (lit "data:image/png;base64,AAAA")
              (start_world sample_clock []))
  = [extractTextFromImage (Some (lit "AAAA"))].
Proof.
  apply (proj1 (@reader_onload_sends_payload []
                  (lit "data:image/png;base64") (lit "AAAA")
                  (start_world sample_clock [])
                  ltac:(vm_compute; intuition discriminate)
                  ltac:(vm_compute; intuition discriminate))).
Defined.

(* ================================================================== *)
(** * UTF-8 *)
(* ================================================================== *)

Module Utf8Facts.
Import Utf8.

(** Induction that steps over one or two elements, as the conversion of
    surrogate pairs does. *)
Lemma list_pair_ind : forall (A : Type) (P : list A -> Prop),
  P [] ->
  (forall x, P [x]) ->
  (forall x y l, P l -> P (y :: l) -> P (x :: y :: l)) ->
  forall l, P l.
Proof.
  intros A P H0 H1 H2 l.
  assert (H : P l /\ forall x, P (x :: l)).
  { induction l as [|y l [IH1 IH2]]; split; auto. }
  exact (proj1 H).
Qed.

Ltac bools :=
  repeat match goal with
         | H : _ && _ = true |- _ => apply andb_true_iff in H; destruct H
         | H : _ && _ = false |- _ => apply andb_false_iff in H
         | H : _ || _ = false |- _ => apply orb_false_iff in H; destruct H
         | H : negb _ = true |- _ => apply negb_true_iff in H
         | H : negb _ = false |- _ => apply negb_false_iff in H
         | H : (_ <=? _)%N = true |- _ => apply N.leb_le in H
         | H : (_ <=? _)%N = false |- _ => apply N.leb_gt in H
         | H : (_ <? _)%N = true |- _ => apply N.ltb_lt in H
         | H : (_ <? _)%N = false |- _ => apply N.ltb_ge in H
         | H : (_ =? _)%N = true |- _ => apply N.eqb_eq in H
         | H : (_ =? _)%N = false |- _ => apply N.eqb_neq in H
         end.

Ltac arith := zify; Z.to_euclidean_division_equations; lia.

Lemma scalar_values_cons : forall c s,
  scalar_values (c :: s)
  = if is_high_surrogate c then
      match s with
      | d :: s'' =>
          if is_low_surrogate d then
            (65536 + (c - 55296) * 1024 + (d - 56320))%N :: scalar_values s''
          else 65533%N :: scalar_values s
      | [] => [65533%N]
      end
    else if is_low_surrogate c then 65533%N :: scalar_values s
    else c :: scalar_values s.
Proof. intros c [|d s]; reflexivity. Qed.

Lemma ascii_no_surrogate : forall c,
  (c < 128)%N -> is_high_surrogate c = false /\ is_low_surrogate c = false.
Proof.
  intros c H. unfold is_high_surrogate, is_low_surrogate.
  split; apply andb_false_iff; left; apply N.leb_gt; lia.
Qed.

Lemma scalar_values_ascii : forall c s,
  (c < 128)%N -> scalar_values (c :: s) = c :: scalar_values s.
Proof.
  intros c s H. destruct (ascii_no_surrogate H) as [Hh Hl].
  now rewrite scalar_values_cons, Hh, Hl.
Qed.

(** An ASCII character never joins what stands before it. *)
Lemma scalar_values_app : forall c b a,
  (c < 128)%N ->
  scalar_values (a ++ c :: b) = scalar_values a ++ c :: scalar_values b.
Proof.
  intros c b a Hc. destruct (ascii_no_surrogate Hc) as [Hh Hl].
  induction a as [|x|x y l IH1 IH2] using list_pair_ind.
  - now apply scalar_values_ascii.
  - cbn [app]. rewrite !(scalar_values_cons x), Hl.
    rewrite (scalar_values_ascii b Hc).
    destruct (is_high_surrogate x), (is_low_surrogate x); reflexivity.
  - change ((x :: y :: l) ++ c :: b) with (x :: y :: (l ++ c :: b)).
    rewrite !(scalar_values_cons x).
    change (y :: (l ++ c :: b)) with ((y :: l) ++ c :: b).
    rewrite IH1, IH2.
    destruct (is_high_surrogate x), (is_low_surrogate y),
      (is_low_surrogate x); reflexivity.
Qed.

Lemma encode_scalar_ascii : forall c, (c < 128)%N -> encode_scalar c = [c].
Proof.
  intros c H. unfold encode_scalar.
  now rewrite (proj2 (N.ltb_lt c 128) H).
Qed.

Lemma encode_cons : forall c s,
  (c < 128)%N -> encode (c :: s) = c :: encode s.
Proof.
  intros c s H. unfold encode.
  rewrite (scalar_values_ascii s H). cbn [flat_map].
  now rewrite (encode_scalar_ascii H).
Qed.

Lemma encode_app : forall c b a,
  (c < 128)%N -> encode (a ++ c :: b) = encode a ++ c :: encode b.
Proof.
  intros c b a H. unfold encode.
  rewrite (scalar_values_app b a H), flat_map_app. cbn [flat_map].
  now rewrite (encode_scalar_ascii H).
Qed.

(** A byte below 128 stands for itself only. *)
Lemma encode_scalar_plain : forall u c,
  (c < 128)%N -> In c (encode_scalar u) -> u = c.
Proof.
  intros u c Hc. unfold encode_scalar.
  destruct (N.ltb_spec u 128); [intros [<- | []]; reflexivity|].
  destruct (N.ltb_spec u 2048);
    [|destruct (N.ltb_spec u 65536)];
    cbn [In]; intros H'; exfalso; intuition arith.
Qed.

Lemma scalar_values_plain : forall c s,
  (c < 128)%N -> In c (scalar_values s) -> In c s.
Proof.
  intros c s Hc.
  induction s as [|x|x y l IH1 IH2] using list_pair_ind.
  - trivial.
  - rewrite scalar_values_cons.
    destruct (is_high_surrogate x), (is_low_surrogate x);
      cbn [In]; intros H; intuition lia.
  - rewrite scalar_values_cons.
    destruct (is_high_surrogate x) eqn:Hx;
      [destruct (is_low_surrogate y) eqn:Hy|
       destruct (is_low_surrogate x)];
      intros [H | H];
      try (right; right; now apply IH1);
      try (right; now apply IH2);
      try (left; exact H);
      exfalso; unfold is_high_surrogate, is_low_surrogate in *; bools; lia.
Qed.

Lemma encode_plain : forall c s,
  (c < 128)%N -> In c (encode s) -> In c s.
Proof.
  intros c s Hc H. unfold encode in H.
  apply in_flat_map in H as (u & Hu & Hin).
  apply (encode_scalar_plain _ Hc) in Hin. subst u.
  now apply scalar_values_plain.
Qed.

(** ** Doubling the quotes, before or after the encoding *)

Lemma replace_quotes_other : forall c s,
  c <> 34%N ->
  CsvUtils.replace_quotes (c :: s) = c :: CsvUtils.replace_quotes s.
Proof.
  intros c s H. cbn [CsvUtils.replace_quotes].
  apply N.eqb_neq in H. now rewrite H.
Qed.

Lemma replace_quotes_app_plain : forall a b,
  ~ In 34%N a ->
  CsvUtils.replace_quotes (a ++ b) = a ++ CsvUtils.replace_quotes b.
Proof.
  induction a as [|c a IH]; intros b H; [reflexivity|].
  cbn [app]. rewrite replace_quotes_other by (intros ->; apply H; now left).
  f_equal. apply IH. intros Hin. apply H. now right.
Qed.

Lemma scalar_values_replace_quotes : forall s,
  scalar_values (CsvUtils.replace_quotes s)
  = CsvUtils.replace_quotes (scalar_values s).
Proof.
  assert (Q : (34 < 128)%N) by reflexivity.
  assert (R : 65533%N <> 34%N) by discriminate.
  induction s as [|x|x y l IH1 IH2] using list_pair_ind.
  - reflexivity.
  - destruct (N.eq_dec x 34) as [->|Hx]; [reflexivity|].
    rewrite (replace_quotes_other _ Hx). cbn [CsvUtils.replace_quotes].
    rewrite !scalar_values_cons.
    destruct (is_high_surrogate x), (is_low_surrogate x);
      rewrite ?(replace_quotes_other _ R), ?(replace_quotes_other _ Hx);
      reflexivity.
  - destruct (N.eq_dec x 34) as [->|Hx].
    + change (CsvUtils.replace_quotes (34%N :: y :: l))
        with (34%N :: 34%N :: CsvUtils.replace_quotes (y :: l)).
      rewrite !(scalar_values_ascii _ Q), IH2. reflexivity.
    + rewrite (replace_quotes_other _ Hx).
      rewrite !(scalar_values_cons x).
      destruct (is_high_surrogate x) eqn:Hh.
      * destruct (N.eq_dec y 34) as [->|Hy].
        -- change (CsvUtils.replace_quotes (34%N :: l))
             with (34%N :: 34%N :: CsvUtils.replace_quotes l) at 1.
           change (is_low_surrogate 34) with false. cbv iota.
           change (34%N :: 34%N :: CsvUtils.replace_quotes l)
             with (CsvUtils.replace_quotes (34%N :: l)).
           now rewrite IH2, (replace_quotes_other _ R).
        -- rewrite (replace_quotes_other _ Hy).
           destruct (is_low_surrogate y) eqn:Hl.
           ++ rewrite IH1, replace_quotes_other; [reflexivity|].
              unfold is_high_surrogate in Hh. bools. lia.
           ++ rewrite <- (replace_quotes_other _ Hy), IH2.
              now rewrite (replace_quotes_other _ R).
      * destruct (is_low_surrogate x);
          rewrite IH2, ?(replace_quotes_other _ R),
            ?(replace_quotes_other _ Hx); reflexivity.
Qed.

Lemma encode_replace_quotes : forall s,
  encode (CsvUtils.replace_quotes s) = CsvUtils.replace_quotes (encode s).
Proof.
  intros s. unfold encode. rewrite scalar_values_replace_quotes.
  induction (scalar_values s) as [|u l IH]; [reflexivity|].
  destruct (N.eq_dec u 34) as [->|Hu].
  - change (CsvUtils.replace_quotes (34%N :: l))
      with (34%N :: 34%N :: CsvUtils.replace_quotes l).
    cbn [flat_map]. change (encode_scalar 34) with [34%N].
    cbn [app CsvUtils.replace_quotes N.eqb Pos.eqb]. now rewrite IH.
  - rewrite (replace_quotes_other _ Hu). cbn [flat_map].
    rewrite replace_quotes_app_plain, IH; [reflexivity|].
    intros Hin. apply Hu. now apply (@encode_scalar_plain u 34).
Qed.

(** ** Reading back what was written *)

Lemma decode_encode_scalar : forall u rest,
  is_scalar_value u = true ->
  decode_scalars (encode_scalar u ++ rest)
  = option_map (cons u) (decode_scalars rest).
Proof.
  intros u rest H. unfold is_scalar_value in H.
  unfold is_high_surrogate, is_low_surrogate in H. bools.
  unfold encode_scalar.
  destruct (N.ltb_spec u 128) as [L1|L1];
    [|destruct (N.ltb_spec u 2048) as [L2|L2];
      [|destruct (N.ltb_spec u 65536) as [L3|L3]]];
    cbn [app decode_scalars].
  - now rewrite (proj2 (N.ltb_lt u 128) L1).
  - assert (E1 : (192 + u / 64 <? 128)%N = false)
      by (apply N.ltb_ge; arith).
    assert (E2 : ((194 <=? 192 + u / 64) && (192 + u / 64 <=? 223))%N = true)
      by (apply andb_true_iff; split; apply N.leb_le; arith).
    assert (E3 : is_continuation (128 + u mod 64) = true)
      by (apply andb_true_iff; split; apply N.leb_le; arith).
    assert (E4 : ((192 + u / 64 - 192) * 64 + (128 + u mod 64 - 128))%N = u)
      by arith.
    now rewrite E1, E2, E3, E4.
  - assert (E1 : (224 + u / 4096 <? 128)%N = false)
      by (apply N.ltb_ge; arith).
    assert (E2 : ((194 <=? 224 + u / 4096)
                  && (224 + u / 4096 <=? 223))%N = false)
      by (apply andb_false_iff; right; apply N.leb_gt; arith).
    assert (E3 : ((224 <=? 224 + u / 4096)
                  && (224 + u / 4096 <=? 239))%N = true)
      by (apply andb_true_iff; split; apply N.leb_le; arith).
    assert (E4 : is_continuation (128 + (u / 64) mod 64) = true)
      by (apply andb_true_iff; split; apply N.leb_le; arith).
    assert (E5 : is_continuation (128 + u mod 64) = true)
      by (apply andb_true_iff; split; apply N.leb_le; arith).
    assert (E6 : ((224 + u / 4096 - 224) * 4096
                  + (128 + (u / 64) mod 64 - 128) * 64
                  + (128 + u mod 64 - 128))%N = u) by arith.
    rewrite E1, E2, E3, E4, E5, E6.
    assert (E7 : (2048 <=? u)%N = true) by (apply N.leb_le; lia).
    assert (E8 : is_high_surrogate u = false)
      by (destruct H1 as [H1|H1];
          apply andb_false_iff; [left | right]; exact H1).
    assert (E9 : is_low_surrogate u = false)
      by (destruct H0 as [H0|H0];
          apply andb_false_iff; [left | right]; exact H0).
    now rewrite E7, E8, E9.
  - assert (E1 : (240 + u / 262144 <? 128)%N = false)
      by (apply N.ltb_ge; arith).
    assert (E2 : ((194 <=? 240 + u / 262144)
                  && (240 + u / 262144 <=? 223))%N = false)
      by (apply andb_false_iff; right; apply N.leb_gt; arith).
    assert (E3 : ((224 <=? 240 + u / 262144)
                  && (240 + u / 262144 <=? 239))%N = false)
      by (apply andb_false_iff; right; apply N.leb_gt; arith).
    assert (E3' : ((240 <=? 240 + u / 262144)
                   && (240 + u / 262144 <=? 244))%N = true)
      by (apply andb_true_iff; split; apply N.leb_le; arith).
    assert (E4 : is_continuation (128 + (u / 4096) mod 64) = true)
      by (apply andb_true_iff; split; apply N.leb_le; arith).
    assert (E5 : is_continuation (128 + (u / 64) mod 64) = true)
      by (apply andb_true_iff; split; apply N.leb_le; arith).
    assert (E5' : is_continuation (128 + u mod 64) = true)
      by (apply andb_true_iff; split; apply N.leb_le; arith).
    assert (E6 : ((240 + u / 262144 - 240) * 262144
                  + (128 + (u / 4096) mod 64 - 128) * 4096
                  + (128 + (u / 64) mod 64 - 128) * 64
                  + (128 + u mod 64 - 128))%N = u) by arith.
    rewrite E1, E2, E3, E3', E4, E5, E5', E6.
    assert (E7 : (65536 <=? u)%N = true) by (apply N.leb_le; lia).
    assert (E8 : (u <=? 1114111)%N = true) by (apply N.leb_le; lia).
    now rewrite E7, E8.
Qed.

Lemma decode_encode_scalars : forall us,
  forallb is_scalar_value us = true ->
  decode_scalars (flat_map encode_scalar us) = Some us.
Proof.
  induction us as [|u us IH]; intros H; [reflexivity|].
  cbn [forallb] in H. apply andb_true_iff in H as [Hu Hus].
  cbn [flat_map]. rewrite decode_encode_scalar by exact Hu. rewrite (IH Hus).
  reflexivity.
Qed.

(** The scalar values of a well-formed string are scalar values indeed,
    and give the string back. *)
Lemma well_formed_scalar_values : forall s,
  well_formed s = true ->
  forallb is_scalar_value (scalar_values s) = true /\
  flat_map utf16_units (scalar_values s) = s.
Proof.
  induction s as [|x|x y l IH1 IH2] using list_pair_ind.
  - intros _. split; reflexivity.
  - cbn [well_formed]. rewrite scalar_values_cons.
    destruct (is_high_surrogate x) eqn:Hh; [discriminate|].
    destruct (is_low_surrogate x) eqn:Hl; [discriminate|].
    cbn [negb andb]. rewrite andb_true_r. intros Hx.
    cbn [scalar_values forallb flat_map].
    unfold is_scalar_value, utf16_units. rewrite Hh, Hl, Hx.
    apply N.ltb_lt in Hx.
    rewrite (proj2 (N.ltb_lt x 1114112)) by lia.
    split; reflexivity.
  - rewrite scalar_values_cons.
    change (well_formed (x :: y :: l))
      with (if is_high_surrogate x
            then is_low_surrogate y && well_formed l
            else negb (is_low_surrogate x) && (x <? 65536)%N
                 && well_formed (y :: l)).
    destruct (is_high_surrogate x) eqn:Hh.
    + intros H. apply andb_true_iff in H as [Hy Hwf]. rewrite Hy.
      destruct (IH1 Hwf) as [F E]. cbn [forallb flat_map]. rewrite F, E.
      unfold is_high_surrogate in Hh. unfold is_low_surrogate in Hy. bools.
      split.
      * rewrite andb_true_r. unfold is_scalar_value.
        unfold is_high_surrogate, is_low_surrogate.
        repeat (apply andb_true_iff; split);
          [apply N.ltb_lt; lia
          | apply negb_true_iff, andb_false_iff; right; apply N.leb_gt; lia
          | apply negb_true_iff, andb_false_iff; right; apply N.leb_gt; lia].
      * unfold utf16_units.
        rewrite (proj2 (N.ltb_ge _ 65536)) by lia.
        cbn [app]. f_equal; [arith | f_equal; arith].
    + destruct (is_low_surrogate x) eqn:Hl; [discriminate|].
      cbn [negb andb]. intros H. apply andb_true_iff in H as [Hx Hwf].
      destruct (IH2 Hwf) as [F E]. cbn [forallb flat_map]. rewrite F, E.
      unfold is_scalar_value, utf16_units. rewrite Hh, Hl, Hx.
      apply N.ltb_lt in Hx.
      rewrite (proj2 (N.ltb_lt x 1114112)) by lia.
      split; reflexivity.
Qed.

Lemma decode_encode : forall s,
  well_formed s = true -> decode (encode s) = Some s.
Proof.
  intros s H. destruct (@well_formed_scalar_values s H) as [F E].
  unfold decode, encode. rewrite decode_encode_scalars by exact F.
  cbn [option_map]. now rewrite E.
Qed.

End Utf8Facts.

(* ================================================================== *)
(** * The exported file *)
(* ================================================================== *)

Module CsvFacts.
Import CsvUtils CsvReader.

Lemma run_csv_cons : forall c text s,
  run (c :: text) s
  = match step s c with Some s' => run text s' | None => None end.
Proof. reflexivity. Qed.

(** Between quotes, the doubled quotes are read back as single ones. *)
Lemma run_replace_quotes : forall s rest field fields records,
  run (replace_quotes s ++ rest) (Quoted, field, fields, records)
  = run rest (Quoted, rev s ++ field, fields, records).
Proof.
  induction s as [|c s IH]; intros rest field fields records;
    [reflexivity|].
  cbn [replace_quotes rev]. rewrite <- app_assoc. cbn [app].
  destruct (N.eqb_spec c 34) as [->|Hc].
  - cbn [app]. rewrite !run_csv_cons. cbn. apply IH.
  - cbn [app]. rewrite run_csv_cons. cbn.
    apply N.eqb_neq in Hc. rewrite Hc. apply IH.
Qed.

(** Between quotes, a text without quotes is read as it is. *)
Lemma run_plain : forall s rest field fields records,
  ~ In 34%N s ->
  run (s ++ rest) (Quoted, field, fields, records)
  = run rest (Quoted, rev s ++ field, fields, records).
Proof.
  induction s as [|c s IH]; intros rest field fields records H;
    [reflexivity|].
  cbn [rev app]. rewrite <- app_assoc. cbn [app]. rewrite run_csv_cons. cbn.
  destruct (N.eqb_spec c 34) as [->|Hc]; [exfalso; apply H; now left|].
  apply IH. intros Hin. apply H. now right.
Qed.

(** A quoted field and the separator after it. *)
Lemma run_quoted_field : forall s sep rest fields records,
  sep = 44%N \/ sep = 10%N ->
  run (in_quotes (replace_quotes s) ++ sep :: rest)
      (FieldStart, [], fields, records)
  = run rest
      (if (sep =? 44)%N then (FieldStart, [], s :: fields, records)
       else (FieldStart, [], [], rev (s :: fields) :: records)).
Proof.
  intros s sep rest fields records Hsep. unfold in_quotes.
  cbn [app]. rewrite run_csv_cons. cbn. rewrite <- app_assoc.
  rewrite run_replace_quotes. cbn [app]. rewrite !run_csv_cons.
  rewrite app_nil_r.
  destruct Hsep as [-> | ->]; cbn; now rewrite rev_involutive.
Qed.

Lemma run_date_field : forall s sep rest fields records,
  ~ In 34%N s ->
  sep = 44%N \/ sep = 10%N ->
  run (in_quotes s ++ sep :: rest) (FieldStart, [], fields, records)
  = run rest
      (if (sep =? 44)%N then (FieldStart, [], s :: fields, records)
       else (FieldStart, [], [], rev (s :: fields) :: records)).
Proof.
  intros s sep rest fields records Hs Hsep. unfold in_quotes.
  cbn [app]. rewrite run_csv_cons. cbn. rewrite <- app_assoc.
  rewrite run_plain by exact Hs. cbn [app]. rewrite !run_csv_cons.
  rewrite app_nil_r.
  destruct Hsep as [-> | ->]; cbn; now rewrite rev_involutive.
Qed.

Section Rows.

Variable toLocaleDateString : Z -> jsstring.
Hypothesis date_without_quote :
  forall timestamp, ~ In 34%N (toLocaleDateString timestamp).

(** The bytes of a text between quotes are the bytes of the text between
    quotes. *)
Lemma encode_in_quotes_sep : forall t c rest,
  (c < 128)%N ->
  Utf8.encode (in_quotes t ++ c :: rest)
  = in_quotes (Utf8.encode t) ++ c :: Utf8.encode rest.
Proof.
  intros t c rest Hc. unfold in_quotes. cbn [app].
  rewrite <- !app_assoc. cbn [app].
  rewrite Utf8Facts.encode_cons by reflexivity.
  rewrite Utf8Facts.encode_app by reflexivity.
  now rewrite Utf8Facts.encode_cons by exact Hc.
Qed.

Lemma encode_in_quotes : forall t,
  Utf8.encode (in_quotes t) = in_quotes (Utf8.encode t).
Proof.
  intros t. unfold in_quotes.
  rewrite Utf8Facts.encode_cons by reflexivity.
  now rewrite Utf8Facts.encode_app by reflexivity.
Qed.

Lemma encode_row : forall item,
  Utf8.encode (row toLocaleDateString item)
  = join [44%N]
      [ in_quotes (replace_quotes (Utf8.encode (WordHistoryItem.word item)));
        in_quotes (replace_quotes (Utf8.encode (WordHistoryItem.reading item)));
        in_quotes
          (replace_quotes (Utf8.encode (WordHistoryItem.definition item)));
        in_quotes
          (replace_quotes (Utf8.encode (WordHistoryItem.definition_jp item)));
        in_quotes
          (replace_quotes (Utf8.encode (WordHistoryItem.example_jp item)));
        in_quotes
          (replace_quotes (Utf8.encode (WordHistoryItem.example_cn item)));
        in_quotes
          (Utf8.encode
             (toLocaleDateString (WordHistoryItem.timestamp item))) ].
Proof.
  intros item. unfold row. cbn [join]. cbn [app].
  rewrite !encode_in_quotes_sep by reflexivity.
  now rewrite encode_in_quotes, !Utf8Facts.encode_replace_quotes.
Qed.

(** The bytes of a row up to its last field, the date, which is left
    open: the closing quote has been read. *)
Lemma run_row : forall item rest records,
  run (Utf8.encode (row toLocaleDateString item) ++ rest)
      (FieldStart, [], [], records)
  = run rest
      (QuoteSeen,
       rev (Utf8.encode (toLocaleDateString (WordHistoryItem.timestamp item))),
       rev (firstn 6 (fields_in_utf8 toLocaleDateString item)),
       records).
Proof.
  intros item rest records. rewrite encode_row. cbn [join].
  repeat (rewrite <- app_assoc; cbn [app];
          rewrite run_quoted_field by (left; reflexivity);
          cbn [N.eqb Pos.eqb]).
  unfold in_quotes. cbn [app]. rewrite run_csv_cons. cbn.
  rewrite <- app_assoc, run_plain.
  - cbn [app]. rewrite run_csv_cons. cbn. now rewrite app_nil_r.
  - intros Hin. apply (date_without_quote (WordHistoryItem.timestamp item)).
    now apply (@Utf8Facts.encode_plain 34).
Qed.

Lemma record_of_row : forall item,
  rev (rev (rev (Utf8.encode
                   (toLocaleDateString (WordHistoryItem.timestamp item))))
       :: rev (firstn 6 (fields_in_utf8 toLocaleDateString item)))
  = fields_in_utf8 toLocaleDateString item.
Proof.
  intros item. unfold fields_in_utf8, fields_of. simpl.
  now rewrite rev_involutive.
Qed.

Lemma finish_row : forall item records,
  finish
    (QuoteSeen,
     rev (Utf8.encode (toLocaleDateString (WordHistoryItem.timestamp item))),
     rev (firstn 6 (fields_in_utf8 toLocaleDateString item)),
     records)
  = Some (rev (fields_in_utf8 toLocaleDateString item :: records)).
Proof.
  intros item records. cbn [finish]. now rewrite record_of_row.
Qed.

Lemma run_rows : forall h item records,
  match run (Utf8.encode
               (join [10%N] (map (row toLocaleDateString) (item :: h))))
            (FieldStart, [], [], records) with
  | Some s => finish s
  | None => None
  end
  = Some (rev records
          ++ map (fields_in_utf8 toLocaleDateString) (item :: h)).
Proof.
  induction h as [|next h IH]; intros item records.
  - cbn [map join].
    rewrite <- (app_nil_r (Utf8.encode (row toLocaleDateString item))).
    rewrite run_row.
    cbn [run]. rewrite finish_row. cbn [rev map]. reflexivity.
  - change (join [10%N] (map (row toLocaleDateString) (item :: next :: h)))
      with (row toLocaleDateString item
            ++ 10%N
               :: join [10%N] (map (row toLocaleDateString) (next :: h))).
    rewrite Utf8Facts.encode_app by reflexivity.
    rewrite run_row. rewrite run_csv_cons. cbn [step N.eqb Pos.eqb].
    cbn [end_record]. rewrite record_of_row, IH.
    cbn [rev map]. now rewrite <- app_assoc.
Qed.

Lemma run_headers : forall rest,
  run (join [44%N] headers ++ 10%N :: rest) (FieldStart, [], [], [])
  = run rest (FieldStart, [], [], [headers]).
Proof. intros rest. reflexivity. Qed.

(** The bytes of the content, read as records of bytes. *)
Lemma read_csvContent : forall item h,
  read (Utf8.encode (csvContent toLocaleDateString (item :: h)))
  = Some (map (map Utf8.encode)
            (headers :: map (fields_of toLocaleDateString) (item :: h))).
Proof.
  intros item h. unfold read, csvContent.
  change (join [10%N]
            (join [44%N] headers
             :: map (row toLocaleDateString) (item :: h)))
    with (join [44%N] headers
          ++ 10%N :: join [10%N] (map (row toLocaleDateString) (item :: h))).
  rewrite Utf8Facts.encode_app by reflexivity.
  change (Utf8.encode (join [44%N] headers)) with (join [44%N] headers).
  rewrite run_headers.
  refine (eq_trans (run_rows h item [headers]) _).
  cbn [rev app]. f_equal.
  change (headers :: map (fields_in_utf8 toLocaleDateString) (item :: h))
    with (map Utf8.encode headers
          :: map (fun it => map Utf8.encode (fields_of toLocaleDateString it))
               (item :: h)).
  rewrite <- (@map_map _ _ _ (fields_of toLocaleDateString)
                (map Utf8.encode) (item :: h)).
  reflexivity.
Qed.

End Rows.

(** Each field of each record is read back from its bytes. *)
Lemma all_some_decode : forall fields,
  (forall text, In text fields -> Utf8.well_formed text = true) ->
  all_some (map Utf8.decode (map Utf8.encode fields)) = Some fields.
Proof.
  induction fields as [|t fields IH]; intros H; [reflexivity|].
  cbn [map all_some].
  rewrite Utf8Facts.decode_encode by (apply H; now left).
  rewrite IH by (intros text Hin; apply H; now right). reflexivity.
Qed.

Lemma all_some_records : forall records,
  (forall fields text,
     In fields records -> In text fields -> Utf8.well_formed text = true) ->
  all_some (map (fun fields => all_some (map Utf8.decode fields))
              (map (map Utf8.encode) records))
  = Some records.
Proof.
  induction records as [|r records IH]; intros H; [reflexivity|].
  cbn [map all_some].
  rewrite all_some_decode by (intros text Hin; apply (H r); [now left|exact Hin]).
  rewrite IH by (intros f text Hf; apply H; now right). reflexivity.
Qed.

Lemma headers_well_formed : forall text,
  In text headers -> Utf8.well_formed text = true.
Proof.
  intros text H. unfold headers in H. cbn [map In] in H.
  repeat (destruct H as [<- | H]; [reflexivity|]). destruct H.
Qed.

End CsvFacts.

(** X11.  The exported file reads back.  For a history that is not empty
    and a date format that writes no double quote, [exportHistoryToCSV]
    offers a download whose bytes are the byte-order mark in UTF-8 and a
    content that a reader of comma-separated values splits into the header
    record and one record per item, newest first, each field holding the
    UTF-8 bytes of the text it was made from, commas, line feeds and double
    quotes included.  When no text has a surrogate without its partner,
    reading the file gives back the headers and, for every item, its six
    texts and its date exactly as they are.  For an empty history nothing
    is offered. *)
Theorem exported_csv_reads_back :
  forall toLocaleDateString today history,
    (forall timestamp, ~ In 34%N (toLocaleDateString timestamp)) ->
    history <> [] ->
    CsvUtils.exportHistoryToCSV toLocaleDateString today [] = None /\
    exists file content,
      CsvUtils.exportHistoryToCSV toLocaleDateString today history
        = Some file /\
      CsvUtils.blob_bytes file = 239%N :: 187%N :: 191%N :: content /\
      CsvReader.read content
        = Some (map (map Utf8.encode)
                  (CsvUtils.headers
                   :: map (CsvUtils.fields_of toLocaleDateString) history)) /\
      (CsvUtils.texts_well_formed toLocaleDateString history ->
       CsvReader.read_file (CsvUtils.blob_bytes file)
         = Some (CsvUtils.headers
                 :: map (CsvUtils.fields_of toLocaleDateString) history)).
Proof.
  intros toLocaleDateString today history Hd Hne.
  split; [reflexivity|].
  destruct history as [|item h]; [contradiction|].
  eexists. exists (Utf8.encode (CsvUtils.csvContent toLocaleDateString
                                  (item :: h))).
  split; [reflexivity|].
  assert (Hb : Utf8.encode
                 (65279%N :: CsvUtils.csvContent toLocaleDateString (item :: h))
               = 239%N :: 187%N :: 191%N
                 :: Utf8.encode
                      (CsvUtils.csvContent toLocaleDateString (item :: h))).
  { unfold Utf8.encode.
    change (Utf8.scalar_values
              (65279%N :: CsvUtils.csvContent toLocaleDateString (item :: h)))
      with (65279%N
            :: Utf8.scalar_values
                 (CsvUtils.csvContent toLocaleDateString (item :: h))).
    reflexivity. }
  pose proof (@CsvFacts.read_csvContent toLocaleDateString Hd item h) as Hr.
  split; [exact Hb|]. split; [exact Hr|].
  intros Hwf. unfold CsvReader.read_file. cbn [CsvUtils.blob_bytes].
  rewrite Hb. cbn [CsvReader.skip_bom]. rewrite Hr.
  apply CsvFacts.all_some_records.
  intros fields text [<- | Hin] Ht.
  - now apply CsvFacts.headers_well_formed.
  - apply in_map_iff in Hin as (it & <- & Hit). exact (Hwf it text Hit Ht).
Qed.

Lemma exported_csv_reads_back_witness :
  exists file,
    CsvUtils.exportHistoryToCSV sample_date (lit "2024-01-02") [quoted_item]
      = Some file /\
    CsvReader.read_file (CsvUtils.blob_bytes file)
      = Some [CsvUtils.headers; CsvUtils.fields_of sample_date quoted_item].
Proof.
  destruct (@exported_csv_reads_back sample_date (lit "2024-01-02")
              [quoted_item]
              ltac:(intros ts; vm_compute; intuition discriminate)
              ltac:(discriminate))
    as [_ (file & content & Hf & _ & _ & H)].
  exists file. split; [exact Hf|]. apply H.
  intros item text [<- | []] Ht. cbn [CsvUtils.fields_of] in Ht.
  repeat (destruct Ht as [<- | Ht]; [reflexivity|]). destruct Ht.
Defined.
(* ================================================================== *)
(** * The profile and the history in the store *)
(* ================================================================== *)

Lemma getItem_setItem_other : forall ls key key' value,
  streq key' key = false ->
  getItem (setItem ls key value) key' = getItem ls key'.
Proof. intros. unfold getItem, setItem. now rewrite H. Qed.

Lemma getItem_removeItem_other : forall ls key key',
  streq key' key = false ->
  getItem (removeItem ls key) key' = getItem ls key'.
Proof. intros. unfold getItem, removeItem. now rewrite H. Qed.

(** X12.  The profile and the history live under two keys that do not
    disturb each other: login stores the profile, and the next mount loads
    the value of [mockUser]; logout removes it, and the next mount loads no
    profile and the view is the search view; neither changes what the
    mount effect loads as history, and saving the history does not change
    what it loads as profile. *)
Theorem profile_and_history_storage_independent :
  forall a w st,
    loadUserEffect (localStorage (handleLogin a))
      = Some (user_value mockUser) /\
    loadUserEffect (localStorage (fst (handleLogout a w))) = None /\
    view (snd (handleLogout a w)) = SEARCH /\
    loadHistoryEffect (localStorage (handleLogin a))
      = loadHistoryEffect (localStorage a) /\
    loadHistoryEffect (localStorage (fst (handleLogout a w)))
      = loadHistoryEffect (localStorage a) /\
    loadUserEffect (saveHistoryEffect st (localStorage a))
      = loadUserEffect (localStorage a).
Proof.
  intros a w st.
  split; [|split; [|split; [|split; [|split]]]].
  - unfold loadUserEffect, handleLogin. cbn [localStorage].
    rewrite getItem_setItem. vm_compute. reflexivity.
  - unfold loadUserEffect, handleLogout. cbn [localStorage fst].
    unfold getItem, removeItem. now rewrite streq_refl.
  - reflexivity.
  - unfold loadHistoryEffect, handleLogin. cbn [localStorage].
    now rewrite getItem_setItem_other.
  - unfold loadHistoryEffect, handleLogout. cbn [localStorage fst].
    now rewrite getItem_removeItem_other.
  - unfold loadUserEffect, saveHistoryEffect.
    now rewrite getItem_setItem_other.
Qed.

(* ================================================================== *)
(** * Loading flags and the calls behind them *)
(* ================================================================== *)

Lemma existsb_remove_nth : forall (f : Suspended -> bool) l i k,
  nth_error l i = Some k ->
  existsb f l = f k || existsb f (remove_nth i l).
Proof.
  induction l as [|x l IH]; intros [|i] k H; simpl in *; try discriminate.
  - injection H as ->. reflexivity.
  - rewrite (IH i k H). destruct (f x), (f k); reflexivity.
Qed.

Lemma flag_text_addToHistory_updater : forall a b r st,
  DictionaryState.isLoadingText (addToHistory_updater a b r st)
  = DictionaryState.isLoadingText st.
Proof.
  intros. unfold addToHistory_updater. destruct (has_word _ _); reflexivity.
Qed.

Lemma flag_image_addToHistory_updater : forall a b r st,
  DictionaryState.isLoadingImage (addToHistory_updater a b r st)
  = DictionaryState.isLoadingImage st.
Proof.
  intros. unfold addToHistory_updater. destruct (has_word _ _); reflexivity.
Qed.

Lemma flag_word_addToHistory_updater : forall a b r st,
  DictionaryState.isLoadingAudioWord (addToHistory_updater a b r st)
  = DictionaryState.isLoadingAudioWord st.
Proof.
  intros. unfold addToHistory_updater. destruct (has_word _ _); reflexivity.
Qed.

Lemma flag_sentence_addToHistory_updater : forall a b r st,
  DictionaryState.isLoadingAudioSentence (addToHistory_updater a b r st)
  = DictionaryState.isLoadingAudioSentence st.
Proof.
  intros. unfold addToHistory_updater. destruct (has_word _ _); reflexivity.
Qed.

Ltac flags_arith :=
  repeat match goal with
         | H : ?x = true -> _ |- _ =>
             first [ specialize (H eq_refl)
                   | match goal with
                     | E : x = true |- _ => specialize (H E)
                     | E : x = false |- _ => clear H
                     end ]
         end;
  repeat match goal with
         | H : _ || _ = true |- _ => apply orb_true_iff in H
         | H : false = true |- _ => discriminate H
         | H : true = false |- _ => discriminate H
         end;
  intuition (try discriminate; try congruence).

Lemma handle_flags_backed : forall dec e w w',
  handle dec e w = Some w' -> flags_backed w -> flags_backed w'.
Proof.
  intros dec e w w' H Inv. unfold flags_backed, calls in *.
  destruct e as [q|v| |iw| |text ty| |fc|i o]; simpl in H.
  1-8: injection H as <-; unfold_handlers; split_cases;
       try destruct ty; simpl in *;
       repeat (split; [intros ?; try reflexivity; flags_arith|]);
       intros ?; try reflexivity; flags_arith.
  destruct (nth_error (pending w) i) as [k|] eqn:Hk; [|discriminate].
  rewrite !(existsb_remove_nth _ _ _ Hk) in Inv.
  destruct k as [t|wd df|text ty|ty decoding|ws|qs|qs b], o as [d|s| |];
    simpl in H;
    try discriminate; injection H as <-;
    unfold_handlers; split_cases; try destruct ty; simpl in *;
    rewrite ?flag_text_addToHistory_updater, ?flag_image_addToHistory_updater,
      ?flag_word_addToHistory_updater, ?flag_sentence_addToHistory_updater,
      ?generating_addToHistory_updater;
    simpl;
    repeat (split; [intros ?; try reflexivity; flags_arith|]);
    intros ?; try reflexivity; flags_arith.
Qed.

(** X13.  No spinner without a call: in every world the component can
    reach, whenever [isLoadingText] is up a definition call is in flight,
    whenever [isLoadingImage] is up a definition call or an image call is
    in flight, whenever the loading flag of an audio phase is up a call of
    [handlePlayAudio] for that phase is suspended (at its speech request
    or at the decoding), and whenever [isGeneratingStory] is up a story
    call is in flight. *)
Theorem loading_flags_are_backed :
  forall dec w,
    reachable dec w ->
    (DictionaryState.isLoadingText (state w) = true ->
     calls is_definition_call w = true) /\
    (DictionaryState.isLoadingImage (state w) = true ->
     calls (fun k => is_definition_call k || is_image_call k) w = true) /\
    (DictionaryState.isLoadingAudioWord (state w) = true ->
     calls (is_playback AudioWord) w = true) /\
    (DictionaryState.isLoadingAudioSentence (state w) = true ->
     calls (is_playback AudioSentence) w = true) /\
    (DictionaryState.isGeneratingStory (state w) = true ->
     calls is_story w = true).
Proof.
  intros dec w (clk & h & es & R).
  change (flags_backed w).
  remember (start_world clk h) as w0 eqn:E.
  induction R as [w|w es w1 e w2 R IH H].
  - subst w. unfold flags_backed. simpl. repeat split; discriminate.
  - eapply handle_flags_backed; eauto.
Qed.

Lemma loading_flags_are_backed_witness :
  DictionaryState.isLoadingText (state lookup_pending) = true /\
  calls is_definition_call lookup_pending = true.
Proof.
  assert (R : reachable no_decoder
                ((setQuery [29483%N] ;; setView SEARCH) lookup_pending)).
  { apply (@reachable_step no_decoder (start_world sample_clock [])
             (click_view_details [29483%N])).
    - apply reachable_start.
    - reflexivity. }
  destruct (loading_flags_are_backed R) as [H _].
  split; [reflexivity | exact (H eq_refl)].
Defined.

(** X14.  A lookup that succeeds ends with the word in the wordbook: when
    the definition call of a lookup in flight is fulfilled with [d], the
    history holds an entry for [d]'s word (the new one in front, or the one
    that was there), it has grown by at most one item, [d] is the displayed
    result, the search box shows [d]'s word, the text flag is down, and
    the error message is as it was. *)
Theorem successful_lookup_is_stored_and_shown :
  forall dec w i term d,
    nth_error (pending w) i = Some (awaiting_definition term) ->
    exists w',
      handle dec (settled i (fulfilled_definition d)) w = Some w' /\
      has_word (DictionaryResult.word d)
               (DictionaryState.history (state w')) = true /\
      List.length (DictionaryState.history (state w'))
        <= S (List.length (DictionaryState.history (state w))) /\
      DictionaryState.data (state w') = Some d /\
      query w' = DictionaryResult.word d /\
      DictionaryState.isLoadingText (state w') = false /\
      DictionaryState.error (state w') = DictionaryState.error (state w).
Proof.
  intros dec w i term d Hk.
  assert (H : handle dec (settled i (fulfilled_definition d)) w
              = Some ((resumed i ;; handleSearch_fulfilled d) w))
    by (simpl; rewrite Hk; reflexivity).
  eexists. split; [exact H|].
  pose proof (handle_history_step _ _ _ H) as [_ Hs].
  unfold handleSearch_fulfilled, generateImage, andThen, await. simpl.
  match goal with
  | |- context [addToHistory d ?w0] =>
      destruct (addToHistory_world d w0) as (Hst & _ & _);
      assert (Hq : query (addToHistory d w0) = query w0)
        by (unfold addToHistory, andThen; destruct (negb _); reflexivity)
  end.
  rewrite Hst, Hq. simpl.
  rewrite data_addToHistory_updater, flag_text_addToHistory_updater,
    error_addToHistory_updater. simpl.
  split; [apply has_word_after|]. split; [|repeat split].
  unfold handleSearch_fulfilled, generateImage, andThen, await in Hs.
  simpl in Hs. rewrite Hst in Hs. simpl in Hs.
  destruct Hs as [[E _] | (d0 & _ & E & _)]; rewrite E; simpl; lia.
Qed.

Lemma successful_lookup_is_stored_and_shown_witness :
  exists w',
    handle no_decoder (settled 0 (fulfilled_definition neko)) lookup_pending
      = Some w' /\
    has_word (DictionaryResult.word neko)
             (DictionaryState.history (state w')) = true.
Proof.
  destruct (@successful_lookup_is_stored_and_shown no_decoder lookup_pending
              0 [29483%N] neko eq_refl) as (w' & H & Hw & _).
  exists w'. split; assumption.
Defined.
(* ================================================================== *)
(** * What is played *)
(* ================================================================== *)







